(** * A day on the island: cruise ships, passengers and the hunger games

    Shallow embedding of [simulation_with_stats.py].

    - Python [int] is [Z]; Python [float] is IEEE binary64, here Rocq's
      primitive [float] with the same rounding.
    - The [stats] dictionary is a [gmap string Z].
    - Objects shared between threads (locations, ships, the registries
      and the console) live in one [World]; a passenger refers to its
      ship and to its current location by position in [island.ships] and
      [island.locations].
    - A thread body is a finite tree of atomic statements ([prog]); every
      [while] loop is unrolled under a fuel bound.  The tree is run
      either against an oracle that answers every read ([eval]), or
      inside a pool of threads that share the [World] ([sys_step]). *)

From Stdlib Require Import ZArith List String Bool Lia PrimFloat.
From stdpp Require Import base option list gmap strings.
Import ListNotations.

Set Warnings "-inexact-float".
Local Open Scope string_scope.
Local Open Scope list_scope.
Local Open Scope Z_scope.

(** ** Time settings *)

Definition SECONDS_PER_HOUR : float := 5.0%float.
Definition DAY_SECONDS : float := 120.0%float.
Definition SHIP_STAY_HOURS : float := 8%float.
Definition SHIP_STAY_SECONDS : float := (SHIP_STAY_HOURS * SECONDS_PER_HOUR)%float.
Definition LAST_CALL_MINUTES : float := 30%float.
Definition LAST_CALL_SECONDS : float :=
  ((LAST_CALL_MINUTES / 60.0) * SECONDS_PER_HOUR)%float.

Definition ARRIVAL_WINDOW_START : float := 8%float.
Definition ARRIVAL_WINDOW_END : float := 10%float.

Definition NUM_SHIPS_PER_DAY : Z := 5.
Definition PASSENGERS_PER_SHIP : Z := 50.

(** ** Strategy pattern *)

(** An object of a [MovementStrategy] subclass: its one method. *)
Record MovementStrategy : Type := { travel_time : float -> float }.

Definition WalkStrategy : MovementStrategy :=
  {| travel_time := fun dist => (dist / 1.0)%float |}.
Definition BusStrategy : MovementStrategy :=
  {| travel_time := fun dist => (dist / 3.0)%float |}.
Definition TaxiStrategy : MovementStrategy :=
  {| travel_time := fun dist => (dist / 4.0)%float |}.

(** The dictionary keeps insertion order: [list(keys())] is
    [walk; bus; taxi]. *)
Definition TRANSPORT_STRATEGIES : list (string * MovementStrategy) :=
  [ ("walk", WalkStrategy); ("bus", BusStrategy); ("taxi", TaxiStrategy) ].

Fixpoint dict_get {V : Type} (d : list (string * V)) (key : string) : option V :=
  match d with
  | [] => None
  | (k, v) :: d' => if String.eqb k key then Some v else dict_get d' key
  end.

(** [TRANSPORT_STRATEGIES[key]]; a missing key is a [KeyError] ([None]). *)
Definition strategy (key : string) : option MovementStrategy :=
  dict_get TRANSPORT_STRATEGIES key.

(** The transport model in the words of the specification: one speed per
    mode, [travel_time = distance / speed]. *)
Inductive Mode : Type := walk | bus | taxi.

Definition mode_key (m : Mode) : string :=
  match m with walk => "walk" | bus => "bus" | taxi => "taxi" end.

Definition speed (m : Mode) : float :=
  match m with walk => 1%float | bus => 3%float | taxi => 4%float end.

Definition travel_time_spec (m : Mode) (distance : float) : float :=
  (distance / speed m)%float.

(** ** Console *)

(** One line of [safe_print]: the bracketed tag and the id it mentions.
    The rest of the text is formatting. *)
Record LogLine : Type := { tag : string; who : Z }.

(** ** Location *)

Record Location : Type := {
  name : string;
  max_capacity : Z;
  base_duration : float;
  distance : float;
  count : Z
}.

Definition new_Location (nm : string) (cap : Z) (base_hours dist : float) : Location :=
  {| name := nm; max_capacity := cap;
     base_duration := (base_hours * SECONDS_PER_HOUR)%float;
     distance := dist; count := 0 |}.

Definition set_count (c : Z) (self : Location) : Location :=
  {| name := name self; max_capacity := max_capacity self;
     base_duration := base_duration self; distance := distance self;
     count := c |}.

(** [Location.try_enter], the body run under [self.lock]: the answer, the
    location afterwards and what was printed. *)
Definition try_enter (self : Location) (pid : Z) : bool * Location * list LogLine :=
  if count self <? max_capacity self then
    let self' := set_count (count self + 1) self in
    (true, self', [ {| tag := "[LOC] entered"; who := pid |} ])
  else (false, self, []).

(** [Location.leave], the body run under [self.lock]. *)
Definition leave (self : Location) (pid : Z) : Location * list LogLine :=
  let self' := set_count (count self - 1) self in
  (self', [ {| tag := "[LOC] left"; who := pid |} ]).

(** A call sequence on one location, as the callers issue it. *)
Inductive LocCall : Type := CallTryEnter (pid : Z) | CallLeave (pid : Z).

Definition call (self : Location) (c : LocCall) : Location :=
  match c with
  | CallTryEnter pid => snd (fst (try_enter self pid))
  | CallLeave pid => fst (leave self pid)
  end.

Definition calls (self : Location) (cs : list LocCall) : Location :=
  fold_left call cs self.

(** The calling protocol: every [leave] answers one earlier successful
    [try_enter] that has not been answered yet.  [held] counts the
    successful entries still open; [false] is a violation. *)
Fixpoint protocol (self : Location) (held : Z) (cs : list LocCall) : bool :=
  match cs with
  | [] => true
  | CallTryEnter pid :: cs' =>
      let '(ok, self', _) := try_enter self pid in
      protocol self' (if ok then held + 1 else held) cs'
  | CallLeave pid :: cs' =>
      (0 <? held) && protocol (fst (leave self pid)) (held - 1) cs'
  end.

(** ** Passenger and ship objects *)

Record Passenger : Type := {
  passenger_id : Z;
  ship_id : Z;
  age_group : string;
  gender : string;
  strength : Z;
  ship : option nat;               (* reference into [island.ships] *)
  current_location : option nat;   (* reference into [island.locations] *)
  transport_strategy : MovementStrategy;
  on_board : bool;
  was_drunk : bool;
  is_dead : bool
}.

(** [Passenger.__init__] *)
Definition new_Passenger (pid sid : Z) (age gen : string) (str : Z) : Passenger :=
  {| passenger_id := pid; ship_id := sid; age_group := age; gender := gen;
     strength := str; ship := None; current_location := None;
     transport_strategy := WalkStrategy;
     on_board := false; was_drunk := false; is_dead := false |}.

Definition set_ship (v : option nat) (p : Passenger) : Passenger :=
  {| passenger_id := passenger_id p; ship_id := ship_id p; age_group := age_group p;
     gender := gender p; strength := strength p; ship := v;
     current_location := current_location p;
     transport_strategy := transport_strategy p;
     on_board := on_board p; was_drunk := was_drunk p; is_dead := is_dead p |}.

Definition set_current_location (v : option nat) (p : Passenger) : Passenger :=
  {| passenger_id := passenger_id p; ship_id := ship_id p; age_group := age_group p;
     gender := gender p; strength := strength p; ship := ship p;
     current_location := v;
     transport_strategy := transport_strategy p;
     on_board := on_board p; was_drunk := was_drunk p; is_dead := is_dead p |}.

Definition set_transport_strategy (v : MovementStrategy) (p : Passenger) : Passenger :=
  {| passenger_id := passenger_id p; ship_id := ship_id p; age_group := age_group p;
     gender := gender p; strength := strength p; ship := ship p;
     current_location := current_location p;
     transport_strategy := v;
     on_board := on_board p; was_drunk := was_drunk p; is_dead := is_dead p |}.

Definition set_on_board (v : bool) (p : Passenger) : Passenger :=
  {| passenger_id := passenger_id p; ship_id := ship_id p; age_group := age_group p;
     gender := gender p; strength := strength p; ship := ship p;
     current_location := current_location p;
     transport_strategy := transport_strategy p;
     on_board := v; was_drunk := was_drunk p; is_dead := is_dead p |}.

Definition set_was_drunk (v : bool) (p : Passenger) : Passenger :=
  {| passenger_id := passenger_id p; ship_id := ship_id p; age_group := age_group p;
     gender := gender p; strength := strength p; ship := ship p;
     current_location := current_location p;
     transport_strategy := transport_strategy p;
     on_board := on_board p; was_drunk := v; is_dead := is_dead p |}.

Definition set_is_dead (v : bool) (p : Passenger) : Passenger :=
  {| passenger_id := passenger_id p; ship_id := ship_id p; age_group := age_group p;
     gender := gender p; strength := strength p; ship := ship p;
     current_location := current_location p;
     transport_strategy := transport_strategy p;
     on_board := on_board p; was_drunk := was_drunk p; is_dead := v |}.

(** The three [threading.Event] objects of a ship. *)
Inductive Signal : Type := Arrived | LastCall | Departed.

Record CruiseShip : Type := {
  cs_ship_id : Z;
  arrival_offset : float;
  arrived_event : bool;
  last_call_event : bool;
  departed_event : bool;
  observers : list Z
}.

(** [CruiseShip.__init__] *)
Definition new_CruiseShip (sid : Z) (arrival_hour : float) : CruiseShip :=
  {| cs_ship_id := sid;
     arrival_offset := ((arrival_hour - ARRIVAL_WINDOW_START) * SECONDS_PER_HOUR)%float;
     arrived_event := false; last_call_event := false; departed_event := false;
     observers := [] |}.

(** [Event.is_set] *)
Definition is_set (s : CruiseShip) (ev : Signal) : bool :=
  match ev with
  | Arrived => arrived_event s
  | LastCall => last_call_event s
  | Departed => departed_event s
  end.

(** [Event.set] *)
Definition set_event (ev : Signal) (s : CruiseShip) : CruiseShip :=
  {| cs_ship_id := cs_ship_id s; arrival_offset := arrival_offset s;
     arrived_event := match ev with Arrived => true | _ => arrived_event s end;
     last_call_event := match ev with LastCall => true | _ => last_call_event s end;
     departed_event := match ev with Departed => true | _ => departed_event s end;
     observers := observers s |}.

(** [CruiseShip.attach] *)
Definition attach (passenger : Z) (s : CruiseShip) : CruiseShip :=
  {| cs_ship_id := cs_ship_id s; arrival_offset := arrival_offset s;
     arrived_event := arrived_event s; last_call_event := last_call_event s;
     departed_event := departed_event s;
     observers := observers s ++ [passenger] |}.

(** ** Global state *)

Definition initial_stats : gmap string Z :=
  list_to_map
    [ ("died_cliff", 0); ("died_shark", 0); ("drunk", 0); ("intoxicated", 0);
      ("popup_delay", 0); ("fell_asleep", 0); ("lost_hiking", 0);
      ("snorkel_delay", 0); ("stranded", 0); ("boarded", 0);
      ("total_passengers", 0) ].

(** [stats[key] += 1].  Every key the program uses is in [initial_stats]
    and no key is ever removed, so the [KeyError] of a missing key does
    not arise; [alter] leaves a dictionary without the key as it is. *)
Definition incr (key : string) (st : gmap string Z) : gmap string Z :=
  alter (fun v => v + 1) key st.

Record World : Type := {
  locations : list Location;
  ships : list CruiseShip;
  stats : gmap string Z;
  stranded_passengers : list Passenger;
  dead_passengers : list Passenger;
  console : list LogLine
}.

Definition set_locations (v : list Location) (w : World) : World :=
  {| locations := v; ships := ships w; stats := stats w;
     stranded_passengers := stranded_passengers w;
     dead_passengers := dead_passengers w; console := console w |}.

Definition set_ships (v : list CruiseShip) (w : World) : World :=
  {| locations := locations w; ships := v; stats := stats w;
     stranded_passengers := stranded_passengers w;
     dead_passengers := dead_passengers w; console := console w |}.

Definition set_stats (v : gmap string Z) (w : World) : World :=
  {| locations := locations w; ships := ships w; stats := v;
     stranded_passengers := stranded_passengers w;
     dead_passengers := dead_passengers w; console := console w |}.

Definition set_stranded_passengers (v : list Passenger) (w : World) : World :=
  {| locations := locations w; ships := ships w; stats := stats w;
     stranded_passengers := v;
     dead_passengers := dead_passengers w; console := console w |}.

Definition set_dead_passengers (v : list Passenger) (w : World) : World :=
  {| locations := locations w; ships := ships w; stats := stats w;
     stranded_passengers := stranded_passengers w;
     dead_passengers := v; console := console w |}.

Definition safe_print (l : list LogLine) (w : World) : World :=
  {| locations := locations w; ships := ships w; stats := stats w;
     stranded_passengers := stranded_passengers w;
     dead_passengers := dead_passengers w; console := console w ++ l |}.

(** ** Thread bodies *)

(** Atomic statements that return nothing. *)
Inductive stmt : Type :=
| Print (l : LogLine)                      (* safe_print(...) *)
| Sleep (d : float)                        (* time.sleep(d) *)
| Leave (loc : nat) (pid : Z)              (* locations[loc].leave(pid) *)
| Incr (key : string)                      (* stats[key] += 1 *)
| AppendDead (p : Passenger)               (* dead_passengers.append(p) *)
| AppendStranded (p : Passenger)           (* stranded_passengers.append(p) *)
| SetSignal (sid : nat) (ev : Signal).     (* ships[sid].<ev>_event.set() *)

(** Atomic reads, by the type of their answer. *)
Inductive ask_bool : Type :=
| IsSet (sid : nat) (ev : Signal)          (* ships[sid].<ev>_event.is_set() *)
| TryEnter (loc : nat) (pid : Z).          (* locations[loc].try_enter(pid) *)

Inductive ask_float : Type :=
| Now                                      (* time.time() *)
| Random                                   (* random.random() *)
| Uniform (a b : float).                   (* random.uniform(a, b) *)

Inductive ask_nat : Type :=
| Choice (n : nat)                         (* index drawn by random.choice on n items *)
| Choices (weights : list Z).              (* index drawn by random.choices(.., weights, k=1) *)

(** A thread body.  [OutOfFuel] marks a loop cut by the unrolling bound,
    [Raise] an uncaught exception. *)
Inductive prog (A : Type) : Type :=
| Ret (a : A)
| OutOfFuel
| Raise (exn : string)
| Do (s : stmt) (k : prog A)
| Wait (sid : nat) (ev : Signal) (k : prog A)   (* ships[sid].<ev>_event.wait() *)
| AskB (q : ask_bool) (k : bool -> prog A)
| AskF (q : ask_float) (k : float -> prog A)
| AskN (q : ask_nat) (k : nat -> prog A).

Arguments Ret {A} a.
Arguments OutOfFuel {A}.
Arguments Raise {A} exn.
Arguments Do {A} s k.
Arguments Wait {A} sid ev k.
Arguments AskB {A} q k.
Arguments AskF {A} q k.
Arguments AskN {A} q k.

Fixpoint bind {A B : Type} (t : prog A) (f : A -> prog B) : prog B :=
  match t with
  | Ret a => f a
  | OutOfFuel => OutOfFuel
  | Raise exn => Raise exn
  | Do s k => Do s (bind k f)
  | Wait sid ev k => Wait sid ev (bind k f)
  | AskB q k => AskB q (fun b => bind (k b) f)
  | AskF q k => AskF q (fun x => bind (k x) f)
  | AskN q k => AskN q (fun n => bind (k n) f)
  end.

Declare Scope prog_scope.
Delimit Scope prog_scope with prog.
Bind Scope prog_scope with prog.
Notation "x ← y ; z" := (bind y (fun x => z))
  (at level 20, y at level 100, z at level 200, only parsing) : prog_scope.
Notation "x ;; z" := (bind x (fun _ => z))
  (at level 100, z at level 200, only parsing, right associativity) : prog_scope.
Local Open Scope prog_scope.

Definition do (s : stmt) : prog unit := Do s (Ret tt).
Definition print (t : string) (id : Z) : prog unit :=
  do (Print {| tag := t; who := id |}).
Definition sleep (d : float) : prog unit := do (Sleep d).
Definition ask_b (q : ask_bool) : prog bool := AskB q Ret.
Definition ask_f (q : ask_float) : prog float := AskF q Ret.
Definition ask_n (q : ask_nat) : prog nat := AskN q Ret.

(** Python's [cond and random.random() < p]: the draw is made only when
    [cond] holds. *)
Definition roll (cond : bool) (p : float) : prog bool :=
  if cond then r ← ask_f Random; Ret (r <? p)%float else Ret false.

(** Python's [sub in s] on strings. *)
Definition contains (sub s : string) : bool :=
  match String.index 0 sub s with Some _ => true | None => false end.

(** ** Passenger (observer) *)

(** What [locations[i]] reads when [i] is not a position of the list;
    the draws of [random.choices] are positions of the list. *)
Definition no_location : Location := new_Location "" 0 0%float 0%float.

Definition location_at (locs : list Location) (i : nat) : Location :=
  nth i locs no_location.

Definition choose_transport (self : Passenger) : prog (string * Passenger) :=
  let keys := map fst TRANSPORT_STRATEGIES in
  i ← ask_n (Choice (length keys));
  let choice := nth i keys "" in
  match strategy choice with
  | Some s => Ret (choice, set_transport_strategy s self)
  | None => Raise "KeyError"
  end.

Definition activity_weight (self : Passenger) (loc : Location) : Z :=
  if contains "bar" (name loc) then
    (if String.eqb (age_group self) "young" then 3 else 2)
  else if contains "beach" (name loc) then 3
  else 1.

Definition choose_activity (self : Passenger) (locs : list Location) : prog nat :=
  let weights := map (activity_weight self) locs in
  ask_n (Choices weights).

Definition go_to_location (self : Passenger) (li : nat) (location : Location)
  : prog Passenger :=
  if is_dead self then Ret self else
  chosen ← choose_transport self;
  let self := snd chosen in
  let travel := travel_time (transport_strategy self) (distance location) in
  print "[MOVE]" (passenger_id self);;
  sleep travel;;
  entered ← ask_b (TryEnter li (passenger_id self));
  if entered then Ret (set_current_location (Some li) self) else Ret self.

(** The waiting loop of [stay_in_activity]; the answer tells whether the
    method returned from inside the loop. *)
Fixpoint stay_wait (fuel : nat) (end_time : float) (self : Passenger) : prog bool :=
  match fuel with
  | O => OutOfFuel
  | S fuel' =>
      now ← ask_f Now;
      if (now <? end_time)%float then
        if is_dead self then Ret true else
        match ship self with
        | None => Raise "AttributeError"
        | Some sid =>
            last_call ← ask_b (IsSet sid LastCall);
            if last_call then Ret false
            else sleep 0.5%float;; stay_wait fuel' end_time self
        end
      else Ret false
  end.

(** The part of [stay_in_activity] after the waiting loop, once no fatal
    event has struck: the delays and incidents, one after the other. *)
Definition stay_incidents (loc_name : string) (self : Passenger) : prog Passenger :=
  let pid := passenger_id self in
  (* Restaurants: intoxicated (5%) *)
  hit ← roll (contains "restaurant" loc_name) 0.05%float;
  (if hit then
     extra ← ask_f (Uniform 1%float 2%float);
     do (Incr "intoxicated");; print "[INTOXICATED]" pid;; sleep extra
   else Ret tt);;
  (* Bars: drunk (7%) *)
  hit ← roll (contains "bar" loc_name) 0.07%float;
  self ← (if hit then
            extra ← ask_f (Uniform 2%float 3%float);
            do (Incr "drunk");; print "[DRUNK]" pid;; sleep extra;;
            Ret (set_was_drunk true self)
          else Ret self);
  (* Shopping: pop-up (4%) *)
  hit ← roll (String.eqb loc_name "shopping_street") 0.04%float;
  (if hit then
     extra ← ask_f (Uniform 2%float 4%float);
     do (Incr "popup_delay");; print "[POP-UP]" pid;; sleep extra
   else Ret tt);;
  (* Hiking: lost (3%) *)
  hit ← roll (String.eqb loc_name "hiking_excursion") 0.03%float;
  (if hit then
     extra ← ask_f (Uniform 3%float 5%float);
     do (Incr "lost_hiking");; print "[LOST]" pid;; sleep extra
   else Ret tt);;
  (* Snorkeling: delay (3%) *)
  hit ← roll (String.eqb loc_name "snorkeling_excursion") 0.03%float;
  (if hit then
     extra ← ask_f (Uniform 3%float 5%float);
     do (Incr "snorkel_delay");; print "[LATE SWIM]" pid;; sleep extra
   else Ret tt);;
  (* Beach: fell asleep (4%) *)
  hit ← roll (String.eqb loc_name "paradise_beach") 0.04%float;
  (if hit then
     extra ← ask_f (Uniform 2%float 4%float);
     do (Incr "fell_asleep");; print "[ASLEEP]" pid;; sleep extra
   else Ret tt);;
  Ret self.

Definition stay_in_activity (fuel : nat) (locs : list Location) (self : Passenger)
  : prog Passenger :=
  if is_dead self then Ret self else
  match current_location self with
  | None => Ret self
  | Some li =>
      let loc := location_at locs li in
      let loc_name := name loc in
      t0 ← ask_f Now;
      let end_time := (t0 + base_duration loc)%float in
      (* normal stay until duration or last call *)
      returned ← stay_wait fuel end_time self;
      if returned then Ret self else
      (* rare death events *)
      cliff ← roll (String.eqb loc_name "hiking_excursion") 0.02%float;
      if cliff then
        let self := set_is_dead true self in
        do (AppendDead self);; do (Incr "died_cliff");;
        print "[DEATH]" (passenger_id self);;
        Ret self
      else
      shark ← roll (String.eqb loc_name "snorkeling_excursion") 0.02%float;
      if shark then
        let self := set_is_dead true self in
        do (AppendDead self);; do (Incr "died_shark");;
        print "[DEATH]" (passenger_id self);;
        Ret self
      else
      (* rare delays / incidents *)
      stay_incidents loc_name self
  end.

Definition return_to_ship (self : Passenger) : prog Passenger :=
  if is_dead self then Ret self else
  (* extra drunk reaction delay (5%) *)
  late ← roll (was_drunk self) 0.05%float;
  (if late then
     delay ← ask_f (Uniform 1%float 2%float);
     print "[DRUNK-DELAY]" (passenger_id self);; sleep delay
   else Ret tt);;
  match strategy "taxi" with
  | None => Raise "KeyError"
  | Some taxi_strategy =>
      let travel := travel_time taxi_strategy 0.5%float in
      print "[RETURN]" (passenger_id self);;
      sleep travel;;
      match ship self with
      | None => Raise "AttributeError"
      | Some sid =>
          departed ← ask_b (IsSet sid Departed);
          if negb departed then
            let self := set_on_board true self in
            do (Incr "boarded");;
            print "[BOARD]" (passenger_id self);;
            Ret self
          else
            do (Incr "stranded");;
            print "[MISS]" (passenger_id self);;
            Ret self
      end
  end.

(** The end of [run], after the [while] loop. *)
Definition run_epilogue (self : Passenger) : prog Passenger :=
  if negb (on_board self) && negb (is_dead self) then
    do (AppendStranded self);;
    print "[STRANDED]" (passenger_id self);;
    Ret self
  else Ret self.

(** The [while not self.ship.departed_event.is_set()] loop of [run],
    followed by the epilogue. *)
Fixpoint run_loop (fuel : nat) (locs : list Location) (sid : nat) (self : Passenger)
  : prog Passenger :=
  match fuel with
  | O => OutOfFuel
  | S fuel' =>
      departed ← ask_b (IsSet sid Departed);
      if departed then run_epilogue self else
      if is_dead self then Ret self else
      li ← choose_activity self locs;
      self ← go_to_location self li (location_at locs li);
      visited ←
        match current_location self with
        | Some _ =>
            self ← stay_in_activity fuel' locs self;
            if is_dead self then Ret (true, self) else
            match current_location self with
            | Some cur =>
                do (Leave cur (passenger_id self));;
                Ret (false, set_current_location None self)
            | None => Raise "AttributeError"
            end
        | None => Ret (false, self)
        end;
      let returned := fst visited in
      let self := snd visited in
      if returned then Ret self else
      last_call ← ask_b (IsSet sid LastCall);
      if last_call then
        self ← return_to_ship self;
        run_epilogue self
      else run_loop fuel' locs sid self
  end.

Definition run (fuel : nat) (locs : list Location) (self : Passenger) : prog Passenger :=
  if is_dead self then Ret self else
  match ship self with
  | None => Ret self
  | Some sid =>
      print "[WAIT]" (passenger_id self);;
      Wait sid Arrived
        (if is_dead self then Ret self else
         print "[ARRIVE]" (passenger_id self);;
         run_loop fuel locs sid self)
  end.

(** ** Ship *)

Definition notify_last_call (sid : nat) (self : CruiseShip) : prog unit :=
  print "[SHIP] Last call" (cs_ship_id self);;
  do (SetSignal sid LastCall).

Definition notify_departure (sid : nat) (self : CruiseShip) : prog unit :=
  print "[SHIP] Departing" (cs_ship_id self);;
  do (SetSignal sid Departed).

(** [CruiseShip.run] of the ship at [island.ships[sid]]. *)
Definition ship_run (sid : nat) (self : CruiseShip) : prog unit :=
  print "[SHIP] Scheduled" (cs_ship_id self);;
  sleep (arrival_offset self);;
  print "[SHIP] Arrived" (cs_ship_id self);;
  do (SetSignal sid Arrived);;
  sleep (SHIP_STAY_SECONDS - LAST_CALL_SECONDS)%float;;
  notify_last_call sid self;;
  sleep LAST_CALL_SECONDS;;
  notify_departure sid self.

(** ** Hunger games *)

(** [fighters.pop()]: the last element and the list without it. *)
Definition pop {A : Type} (l : list A) : option (A * list A) :=
  match rev l with
  | [] => None
  | x :: r => Some (x, rev r)
  end.

(** One line of the tournament: the two fighters and the winner. *)
Record Match : Type := { fighter_a : Passenger; fighter_b : Passenger; winner : Passenger }.

(** [r <= a.strength] *)
Definition a_wins (a : Passenger) (r : Z) : bool := r <=? strength a.

(** One match: [winner = a if r <= a.strength else b], for the draw [r]
    of [random.randint(1, total)]. *)
Definition fight (a b : Passenger) (r : Z) : Passenger :=
  if a_wins a r then a else b.

(** The [while len(fighters) > 1] loop.  [draw total k] is the answer of
    the [k]-th call [random.randint(1, total)].  Each round removes two
    fighters and puts one back, so [length fighters] rounds of fuel are
    never used up. *)
Fixpoint tournament (fuel : nat) (draw : Z -> nat -> Z) (k : nat)
    (fighters : list Passenger) (log : list Match) : list Passenger * list Match :=
  match fuel with
  | O => (fighters, log)
  | S fuel' =>
      if (1 <? Z.of_nat (length fighters)) then
        match pop fighters with
        | None => (fighters, log)
        | Some (a, fighters1) =>
            match pop fighters1 with
            | None => (fighters, log)
            | Some (b, fighters2) =>
                let total := strength a + strength b in
                let r := draw total k in
                let w := fight a b r in
                tournament fuel' draw (S k) (fighters2 ++ [w])
                  (log ++ [ {| fighter_a := a; fighter_b := b; winner := w |} ])
            end
        end
      else (fighters, log)
  end.

(** [HungerGames.run(stranded)]: the matches played and the survivor,
    if any.  [shuffle] is the permutation [random.shuffle] applies. *)
Definition HungerGames_run (shuffle : list Passenger -> list Passenger)
    (draw : Z -> nat -> Z) (stranded : list Passenger)
  : list Match * option Passenger :=
  let fighters := shuffle stranded in
  let '(fighters, log) := tournament (length fighters) draw 0 fighters [] in
  (log, head fighters).

(** The draws [random.randint(1, total)] can return. *)
Definition randint_range (total : Z) : list Z :=
  map (fun i => Z.of_nat i + 1) (seq 0 (Z.to_nat total)).

(** ** Running a thread body *)

(** What one atomic step did, with the answer it got. *)
Inductive event : Type :=
| EDo (s : stmt)
| EWait (sid : nat) (ev : Signal)
| EB (q : ask_bool) (b : bool)
| EF (q : ask_float) (x : float)
| EN (q : ask_nat) (n : nat).

(** What the surroundings of a thread supply at one step: the answer to
    a read of shared state, the clock or a random draw, and the index of
    a random pick. *)
Record Answer : Type := { a_bool : bool; a_float : float; a_nat : nat }.

Definition idle_answer : Answer :=
  {| a_bool := true; a_float := 0%float; a_nat := 0%nat |}.

(** [random.choice] and [random.choices] return a position of their
    sequence. *)
Definition pick (q : ask_nat) (n : nat) : nat :=
  match q with
  | Choice m => (n mod m)%nat
  | Choices weights => (n mod length weights)%nat
  end.

Inductive result (A : Type) : Type :=
| Finished (a : A)
| Cut                      (* the unrolling bound was reached *)
| Failed (exn : string).   (* uncaught exception *)

Arguments Finished {A} a.
Arguments Cut {A}.
Arguments Failed {A} exn.

(** The run of a thread body on its own, every read answered by the
    oracle [o], one answer per step from position [pos] on: the steps
    taken, how the body ended and the next unused position. *)
Fixpoint eval {A : Type} (o : nat -> Answer) (pos : nat) (t : prog A)
  : list event * result A * nat :=
  match t with
  | Ret a => ([], Finished a, pos)
  | OutOfFuel => ([], Cut, pos)
  | Raise exn => ([], Failed exn, pos)
  | Do s k =>
      let '(tr, r, pos') := eval o (S pos) k in (EDo s :: tr, r, pos')
  | Wait sid ev k =>
      let '(tr, r, pos') := eval o (S pos) k in (EWait sid ev :: tr, r, pos')
  | AskB q k =>
      let b := a_bool (o pos) in
      let '(tr, r, pos') := eval o (S pos) (k b) in (EB q b :: tr, r, pos')
  | AskF q k =>
      let x := a_float (o pos) in
      let '(tr, r, pos') := eval o (S pos) (k x) in (EF q x :: tr, r, pos')
  | AskN q k =>
      let n := pick q (a_nat (o pos)) in
      let '(tr, r, pos') := eval o (S pos) (k n) in (EN q n :: tr, r, pos')
  end.

Definition trace_of {A : Type} (o : nat -> Answer) (t : prog A) : list event :=
  fst (fst (eval o 0 t)).

Definition result_of {A : Type} (o : nat -> Answer) (t : prog A) : result A :=
  snd (fst (eval o 0 t)).

(** ** The shared world *)

Definition signal (w : World) (sid : nat) (ev : Signal) : bool :=
  match ships w !! sid with
  | Some s => is_set s ev
  | None => false
  end.

(** The effect of one step on the shared objects. *)
Definition perform (e : event) (w : World) : World :=
  match e with
  | EDo (Print l) => safe_print [l] w
  | EDo (Sleep _) => w
  | EDo (Leave loc pid) =>
      match locations w !! loc with
      | Some l =>
          let '(l', out) := leave l pid in
          safe_print out (set_locations (<[loc := l']> (locations w)) w)
      | None => w
      end
  | EDo (Incr key) => set_stats (incr key (stats w)) w
  | EDo (AppendDead p) => set_dead_passengers (dead_passengers w ++ [p]) w
  | EDo (AppendStranded p) => set_stranded_passengers (stranded_passengers w ++ [p]) w
  | EDo (SetSignal sid ev) =>
      match ships w !! sid with
      | Some s => set_ships (<[sid := set_event ev s]> (ships w)) w
      | None => w
      end
  | EWait _ _ => w
  | EB (IsSet _ _) _ => w
  | EB (TryEnter loc pid) _ =>
      match locations w !! loc with
      | Some l =>
          let '(_, l', out) := try_enter l pid in
          safe_print out (set_locations (<[loc := l']> (locations w)) w)
      | None => w
      end
  | EF _ _ => w
  | EN _ _ => w
  end.

(** The answer the shared objects give to a read. *)
Definition read (w : World) (q : ask_bool) : bool :=
  match q with
  | IsSet sid ev => signal w sid ev
  | TryEnter loc pid =>
      match locations w !! loc with
      | Some l => fst (fst (try_enter l pid))
      | None => false
      end
  end.

(** One atomic step of a thread on the shared world: the event and the
    rest of the body.  A finished thread, and a thread waiting for a
    signal that is not set, do not move.  The clock and the random draws
    come from [a]. *)
Definition step {A : Type} (w : World) (a : Answer) (t : prog A)
  : option (event * prog A) :=
  match t with
  | Ret _ | OutOfFuel | Raise _ => None
  | Do s k => Some (EDo s, k)
  | Wait sid ev k => if signal w sid ev then Some (EWait sid ev, k) else None
  | AskB q k => let b := read w q in Some (EB q b, k b)
  | AskF q k => let x := a_float a in Some (EF q x, k x)
  | AskN q k => let n := pick q (a_nat a) in Some (EN q n, k n)
  end.

(** The island during the day: the shared world, one thread per
    passenger and one per ship. *)
Record System : Type := {
  world : World;
  passenger_threads : list (prog Passenger);
  ship_threads : list (prog unit)
}.

(** The scheduler's move: which thread takes its next step. *)
Inductive Turn : Type :=
| PassengerTurn (i : nat) (a : Answer)
| ShipTurn (j : nat) (a : Answer).

Definition sys_step (s : System) (t : Turn) : System :=
  match t with
  | PassengerTurn i a =>
      match passenger_threads s !! i with
      | Some th =>
          match step (world s) a th with
          | Some (e, th') =>
              {| world := perform e (world s);
                 passenger_threads := <[i := th']> (passenger_threads s);
                 ship_threads := ship_threads s |}
          | None => s
          end
      | None => s
      end
  | ShipTurn j a =>
      match ship_threads s !! j with
      | Some th =>
          match step (world s) a th with
          | Some (e, th') =>
              {| world := perform e (world s);
                 passenger_threads := passenger_threads s;
                 ship_threads := <[j := th']> (ship_threads s) |}
          | None => s
          end
      | None => s
      end
  end.

Definition sys_run (s : System) (sched : list Turn) : System :=
  fold_left sys_step sched s.

(** ** Island *)

(** [Island.__init__]: the eight attractions. *)
Definition Island_locations : list Location :=
  [ new_Location "mexican_restaurant" 40 1.0%float 1.0%float;
    new_Location "italian_restaurant" 40 1.0%float 1.2%float;
    new_Location "senor_frog_bar" 60 1.5%float 1.5%float;
    new_Location "irish_bar" 50 1.5%float 1.3%float;
    new_Location "shopping_street" 80 1.0%float 1.8%float;
    new_Location "hiking_excursion" 30 2.0%float 2.0%float;
    new_Location "snorkeling_excursion" 30 2.0%float 2.2%float;
    new_Location "paradise_beach" 100 2.0%float 1.0%float ].

(** The module-level globals before [main]. *)
Definition initial_world : World :=
  {| locations := Island_locations; ships := []; stats := initial_stats;
     stranded_passengers := []; dead_passengers := []; console := [] |}.

(** The random draws of the set-up: the arrival hour of each ship and the
    age group, gender and strength [PassengerFactory.create] picks. *)
Record Casting : Type := {
  arrival_hour : Z -> float;
  drawn_age_group : Z -> string;
  drawn_gender : Z -> string;
  drawn_strength : Z -> Z
}.

(** [PassengerFactory.create] *)
Definition PassengerFactory_create (c : Casting) (pid sid : Z) (w : World)
  : Passenger * World :=
  let age := drawn_age_group c pid in
  let gen := drawn_gender c pid in
  let str := drawn_strength c pid in
  (new_Passenger pid sid age gen str,
   set_stats (incr "total_passengers" (stats w)) w).

(** [Passenger.attach_to_ship], for the ship at [island.ships[idx]]. *)
Definition attach_to_ship (self : Passenger) (idx : nat) (w : World)
  : Passenger * World :=
  (set_ship (Some idx) self,
   match ships w !! idx with
   | Some s => set_ships (<[idx := attach (passenger_id self) s]> (ships w)) w
   | None => w
   end).

(** The inner loop of [setup_day]: the passengers [i, i+1, ..] of ship
    [sid]. *)
Fixpoint board_passengers (c : Casting) (sid : Z) (idx : nat) (n : nat) (i : Z)
    (w : World) : list Passenger * World :=
  match n with
  | O => ([], w)
  | S n' =>
      let pid := sid * 1000 + i in
      let '(p, w) := PassengerFactory_create c pid sid w in
      let '(p, w) := attach_to_ship p idx w in
      let '(ps, w) := board_passengers c sid idx n' (i + 1) w in
      (p :: ps, w)
  end.

(** The outer loop of [setup_day]: ships [sid, sid+1, ..]. *)
Fixpoint launch_ships (c : Casting) (n_ships n_passengers : nat) (sid : Z)
    (w : World) : list Passenger * World :=
  match n_ships with
  | O => ([], w)
  | S n' =>
      let s := new_CruiseShip sid (arrival_hour c sid) in
      let idx := length (ships w) in
      let w := set_ships (ships w ++ [s]) w in
      let '(ps, w) := board_passengers c sid idx n_passengers 0 w in
      let '(qs, w) := launch_ships c n' n_passengers (sid + 1) w in
      (ps ++ qs, w)
  end.

(** The threads of a day over a given world and roster: [Thread.start]
    on every ship and passenger.  The weather thread of [EventManager]
    only prints and is left out. *)
Definition start_day (fuel : nat) (w : World) (roster : list Passenger) : System :=
  {| world := w;
     passenger_threads := map (run fuel (locations w)) roster;
     ship_threads := imap ship_run (ships w) |}.

(** [Island.setup_day] with the constants of the source. *)
Definition setup_day (fuel : nat) (c : Casting) : System :=
  let '(roster, w) :=
    launch_ships c (Z.to_nat NUM_SHIPS_PER_DAY) (Z.to_nat PASSENGERS_PER_SHIP) 1
      initial_world in
  start_day fuel w roster.

(** The roster [setup_day] creates. *)
Definition day_roster (c : Casting) : list Passenger :=
  fst (launch_ships c (Z.to_nat NUM_SHIPS_PER_DAY) (Z.to_nat PASSENGERS_PER_SHIP) 1
         initial_world).

(** ** Reasoning about every run of a thread body *)

(** The world after the steps [tr] of one thread, nothing else moving. *)
Definition replay (tr : list event) (w : World) : World :=
  fold_left (fun w e => perform e w) tr w.

(** [all_runs t Q]: whatever the answers, the steps [tr] that [t] takes
    and the way [r] it ends satisfy [Q tr r]. *)
Fixpoint all_runs {A : Type} (t : prog A) (Q : list event -> result A -> Prop) : Prop :=
  match t with
  | Ret a => Q [] (Finished a)
  | OutOfFuel => Q [] Cut
  | Raise exn => Q [] (Failed exn)
  | Do s k => all_runs k (fun tr r => Q (EDo s :: tr) r)
  | Wait sid ev k => all_runs k (fun tr r => Q (EWait sid ev :: tr) r)
  | AskB q k => forall b, all_runs (k b) (fun tr r => Q (EB q b :: tr) r)
  | AskF q k => forall x, all_runs (k x) (fun tr r => Q (EF q x :: tr) r)
  | AskN q k =>
      forall n, all_runs (k (pick q n)) (fun tr r => Q (EN q (pick q n) :: tr) r)
  end.

(** [follows t tr t']: the steps [tr], taken from [t], leave [t']. *)
Inductive follows {A : Type} : prog A -> list event -> prog A -> Prop :=
| follows_nil t : follows t [] t
| follows_do s k tr t' :
    follows k tr t' -> follows (Do s k) (EDo s :: tr) t'
| follows_wait sid ev k tr t' :
    follows k tr t' -> follows (Wait sid ev k) (EWait sid ev :: tr) t'
| follows_b q k b tr t' :
    follows (k b) tr t' -> follows (AskB q k) (EB q b :: tr) t'
| follows_f q k x tr t' :
    follows (k x) tr t' -> follows (AskF q k) (EF q x :: tr) t'
| follows_n q k n tr t' :
    follows (k (pick q n)) tr t' -> follows (AskN q k) (EN q (pick q n) :: tr) t'.

(** The ship at position [sid] after the steps [tr]. *)
Definition ship_after (sid : nat) (tr : list event) (s : CruiseShip) : CruiseShip :=
  fold_left
    (fun s e =>
       match e with
       | EDo (SetSignal sid' ev) => if Nat.eqb sid' sid then set_event ev s else s
       | _ => s
       end) tr s.

(** What a trace adds to the registries and which signals it sets. *)
Definition appended_stranded (tr : list event) : list Passenger :=
  omap (fun e => match e with EDo (AppendStranded p) => Some p | _ => None end) tr.

Definition appended_dead (tr : list event) : list Passenger :=
  omap (fun e => match e with EDo (AppendDead p) => Some p | _ => None end) tr.

Definition signals_set (tr : list event) : list (nat * Signal) :=
  omap (fun e => match e with EDo (SetSignal sid ev) => Some (sid, ev) | _ => None end) tr.

(** The location calls of a trace on the location at position [loc]. *)
Definition calls_on (loc : nat) (tr : list event) : list LocCall :=
  omap (fun e =>
          match e with
          | EB (TryEnter l pid) _ => if Nat.eqb l loc then Some (CallTryEnter pid) else None
          | EDo (Leave l pid) => if Nat.eqb l loc then Some (CallLeave pid) else None
          | _ => None
          end) tr.

(** The sleeps of a trace, and the sleep that follows the [RETURN] line. *)
Definition is_print (t : string) (e : event) : bool :=
  match e with
  | EDo (Print l) => String.eqb (tag l) t
  | _ => false
  end.

Definition is_incr (key : string) (e : event) : bool :=
  match e with
  | EDo (Incr k) => String.eqb k key
  | _ => false
  end.

(** How often a trace runs [stats[key] += 1]. *)
Definition incr_count (key : string) (tr : list event) : nat :=
  length (List.filter (is_incr key) tr).

Definition no_return_line (tr : list event) : bool :=
  forallb (fun e => negb (is_print "[RETURN]" e)) tr.

Definition count_return_lines (tr : list event) : nat :=
  length (List.filter (is_print "[RETURN]") tr).

Fixpoint return_travel (tr : list event) : list float :=
  match tr with
  | e :: tr' =>
      match tr' with
      | EDo (Sleep d) :: _ =>
          if is_print "[RETURN]" e then d :: return_travel tr' else return_travel tr'
      | _ => return_travel tr'
      end
  | [] => []
  end.

(** ** The shape of a passenger's day *)

Definition mem (s : string) (l : list string) : bool := existsb (String.eqb s) l.

(** Steps of the time ashore that decide nothing: no registry, no
    boarding or death counter, no [RETURN], [BOARD], [MISS], [STRANDED]
    or [DEATH] line, no signal set. *)
Definition wander_event (e : event) : bool :=
  match e with
  | EDo (Print l) =>
      negb (mem (tag l) ["[RETURN]"; "[BOARD]"; "[MISS]"; "[STRANDED]"; "[DEATH]"])
  | EDo (Sleep _) => true
  | EDo (Leave _ _) => true
  | EDo (Incr key) =>
      negb (mem key ["boarded"; "stranded"; "died_cliff"; "died_shark";
                     "total_passengers"])
  | EDo (AppendDead _) => false
  | EDo (AppendStranded _) => false
  | EDo (SetSignal _ _) => false
  | EWait _ _ => true
  | EB _ _ => true
  | EF _ _ => true
  | EN _ _ => true
  end.

(** Steps of the waiting loop and of the fatal draws of a stay: clock,
    last-call checks, naps and random draws; no location call. *)
Definition stay_event (e : event) : bool :=
  match e with
  | EF _ _ => true
  | EB (IsSet _ _) _ => true
  | EDo (Sleep _) => true
  | _ => false
  end.

(** Reads answered [False] in a trace. *)
Definition refused (e : event) : bool :=
  match e with EB _ false => true | _ => false end.

Definition falses (tr : list event) : nat := length (List.filter refused tr).

(** The fields a day never changes. *)
Definition same_person (p q : Passenger) : Prop :=
  passenger_id q = passenger_id p /\ ship_id q = ship_id p /\
  age_group q = age_group p /\ gender q = gender p /\
  strength q = strength p /\ ship q = ship p.

Definition line (t : string) (p : Passenger) : event :=
  EDo (Print {| tag := t; who := passenger_id p |}).

(** The reaction delay at the start of the return. *)
Inductive reaction_delay (self : Passenger) : list event -> Prop :=
| sober :
    was_drunk self = false -> reaction_delay self []
| quick (r : float) :
    was_drunk self = true -> (r <? 0.05)%float = false ->
    reaction_delay self [EF Random r]
| late (r delay : float) :
    was_drunk self = true -> (r <? 0.05)%float = true ->
    reaction_delay self
      [EF Random r; EF (Uniform 1%float 2%float) delay;
       line "[DRUNK-DELAY]" self; EDo (Sleep delay)].

(** The return phase of a living passenger of ship [sid]: its steps and
    the passenger afterwards. *)
Inductive return_phase (self : Passenger) (sid : nat)
  : list event -> Passenger -> Prop :=
| return_boards (delay : list event) :
    reaction_delay self delay ->
    return_phase self sid
      (delay ++ [line "[RETURN]" self; EDo (Sleep 0.125%float);
                 EB (IsSet sid Departed) false;
                 EDo (Incr "boarded"); line "[BOARD]" self])
      (set_on_board true self)
| return_misses (delay : list event) :
    reaction_delay self delay ->
    return_phase self sid
      (delay ++ [line "[RETURN]" self; EDo (Sleep 0.125%float);
                 EB (IsSet sid Departed) true;
                 EDo (Incr "stranded"); line "[MISS]" self])
      self.

(** How a stay ends for a living passenger: alive, perhaps drunk; dead,
    after the fatal draw; or cut in the waiting loop. *)
Definition stay_outcome (fuel : nat) (self : Passenger)
    (tr : list event) (r : result Passenger) : Prop :=
  (forallb wander_event tr = true /\
   exists b : bool, r = Finished (if b then set_was_drunk true self else self)) \/
  (exists st key,
      forallb stay_event st = true /\
      (key = "died_cliff" \/ key = "died_shark") /\
      tr = st ++ [EDo (AppendDead (set_is_dead true self)); EDo (Incr key);
                  line "[DEATH]" (set_is_dead true self)] /\
      r = Finished (set_is_dead true self)) \/
  (r = Cut /\ forallb wander_event tr = true /\ (fuel <= falses tr)%nat).

(** The four ways the [run] of a passenger of ship [sid] ends, with the
    steps taken, and the way its unrolling is cut. *)
Inductive run_outcome (fuel : nat) (self : Passenger) (sid : nat)
  : list event -> result Passenger -> Prop :=
| day_cut (tr : list event) :
    forallb wander_event tr = true ->
    (fuel <= falses tr)%nat ->
    run_outcome fuel self sid tr Cut
| day_dies (pre st : list event) (li : nat) (key : string) (p : Passenger) :
    forallb wander_event pre = true ->
    forallb stay_event st = true ->
    same_person self p ->
    is_dead p = true -> on_board p = false -> current_location p = Some li ->
    key = "died_cliff" \/ key = "died_shark" ->
    run_outcome fuel self sid
      (pre ++ [EB (TryEnter li (passenger_id p)) true] ++ st ++
       [EDo (AppendDead p); EDo (Incr key); line "[DEATH]" p])
      (Finished p)
| day_overstays (pre : list event) (p : Passenger) :
    forallb wander_event pre = true ->
    same_person self p ->
    is_dead p = false -> on_board p = false ->
    run_outcome fuel self sid
      (pre ++ [EB (IsSet sid Departed) true;
               EDo (AppendStranded p); line "[STRANDED]" p])
      (Finished p)
| day_returns (pre rt : list event) (cur p : Passenger) :
    forallb wander_event pre = true ->
    same_person self cur ->
    is_dead cur = false -> on_board cur = false ->
    return_phase cur sid rt p ->
    run_outcome fuel self sid
      (pre ++ [EB (IsSet sid LastCall) true] ++ rt ++
       (if on_board p then [] else [EDo (AppendStranded p); line "[STRANDED]" p]))
      (Finished p).

(** ** The day as a whole *)

(** The value a thread has returned, if it has. *)
Definition final {A : Type} (t : prog A) : option A :=
  match t with
  | Ret a => Some a
  | _ => None
  end.

(** A passenger as [setup_day] starts it: attached to a ship, otherwise
    as the constructor left it. *)
Definition attached (p : Passenger) : bool :=
  match ship p, current_location p with
  | Some _, None => negb (is_dead p) && negb (on_board p)
  | _, _ => false
  end.

(** The three outcomes, read off a passenger's flags at the end. *)
Definition is_boarded (p : Passenger) : bool := on_board p.
Definition is_stranded (p : Passenger) : bool := negb (on_board p) && negb (is_dead p).


(** A thread that touches no registry, whatever it does. *)
Definition registers_nobody {A : Type} (t : prog A) : Prop :=
  all_runs t (fun tr _ => appended_stranded tr = [] /\ appended_dead tr = []).

(** What links the threads and the registries during the day: every
    passenger thread is its [run] after the steps [snd h] it has taken,
    and the registries hold what these steps appended. *)
Definition day_invariant (fuel : nat) (locs : list Location)
    (roster : list Passenger) (s : System) : Prop :=
  exists hist : list (Passenger * list event),
    map fst hist = roster /\
    Forall2 (fun h th => follows (run fuel locs (fst h)) (snd h) th)
      hist (passenger_threads s) /\
    Permutation (stranded_passengers (world s))
      (concat (map (fun h => appended_stranded (snd h)) hist)) /\
    Permutation (dead_passengers (world s))
      (concat (map (fun h => appended_dead (snd h)) hist)) /\
    Forall registers_nobody (ship_threads s).

(** ** A small day: one ship, two passengers *)

Definition small_casting : Casting :=
  {| arrival_hour := fun _ => 8%float;
     drawn_age_group := fun _ => "young";
     drawn_gender := fun _ => "female";
     drawn_strength := fun _ => 50 |}.

Definition small_world : World := snd (launch_ships small_casting 1 2 1 initial_world).
Definition small_roster : list Passenger :=
  fst (launch_ships small_casting 1 2 1 initial_world).
Definition small_day : System := start_day 3 small_world small_roster.

Definition answer (x : float) (n : nat) : Answer :=
  {| a_bool := false; a_float := x; a_nat := n |}.

(** Passenger [i] takes one step for each answer of the list. *)
Definition passenger_turns (i : nat) (answers : list Answer) : list Turn :=
  map (PassengerTurn i) answers.

Definition ship_turns (j : nat) (n : nat) : list Turn :=
  repeat (ShipTurn j idle_answer) n.

(** Passenger 0 walks to the hiking excursion (position 5), stays the
    full time and draws 0.01 for the cliff. *)
Definition hike_and_fall : list Answer :=
  [ idle_answer; idle_answer; idle_answer;      (* WAIT, wait(), ARRIVE *)
    idle_answer;                                (* departed? *)
    answer 0%float 5; answer 0%float 0;         (* hiking_excursion, walk *)
    idle_answer; idle_answer; idle_answer;      (* MOVE, sleep, try_enter *)
    answer 0%float 0; answer 100%float 0;       (* time.time() twice *)
    answer 0.01%float 0;                        (* random.random() < 0.02 *)
    idle_answer; idle_answer; idle_answer ].    (* append, counter, DEATH *)

(** Passenger 1 takes a taxi to the beach (position 7), up to the
    [try_enter]. *)
Definition to_the_beach : list Answer :=
  [ idle_answer; idle_answer; idle_answer;
    idle_answer;
    answer 0%float 7; answer 0%float 2;
    idle_answer; idle_answer; idle_answer ].

(** ... stays until last call, has no incident (draw 0.5), leaves and
    goes through the return phase. *)
Definition beach_and_back : list Answer :=
  [ answer 0%float 0; answer 1%float 0;         (* time.time() twice *)
    idle_answer;                                (* last call? *)
    answer 0.5%float 0;                         (* fell asleep? *)
    idle_answer;                                (* leave *)
    idle_answer;                                (* last call? *)
    idle_answer; idle_answer;                   (* RETURN, sleep *)
    idle_answer;                                (* departed? *)
    idle_answer; idle_answer;                   (* counter, BOARD or MISS *)
    idle_answer; idle_answer ].                 (* append, STRANDED *)

(** The ship arrives; passenger 0 dies hiking; passenger 1 goes to the
    beach; last call; passenger 1 returns before the departure. *)
Definition day_with_boarding : list Turn :=
  ship_turns 0 4 ++ passenger_turns 0 hike_and_fall ++
  passenger_turns 1 to_the_beach ++ ship_turns 0 3 ++
  passenger_turns 1 beach_and_back ++ ship_turns 0 3.

(** The same, but the ship departs while passenger 1 is on the way
    back. *)
Definition day_with_stranding : list Turn :=
  ship_turns 0 4 ++ passenger_turns 0 hike_and_fall ++
  passenger_turns 1 to_the_beach ++ ship_turns 0 3 ++
  passenger_turns 1 (take 8 beach_and_back) ++ ship_turns 0 3 ++
  passenger_turns 1 (drop 8 beach_and_back).

(** Passenger 1 stays at the beach the full time, leaves and finds last
    call not yet made; it is not scheduled again until the ship has
    departed. *)
Definition day_with_overstay : list Turn :=
  ship_turns 0 4 ++ passenger_turns 0 hike_and_fall ++
  passenger_turns 1 to_the_beach ++
  passenger_turns 1
    [ answer 0%float 0; answer 100%float 0;     (* time.time() twice *)
      answer 0.5%float 0;                       (* fell asleep? *)
      idle_answer;                              (* leave *)
      idle_answer ] ++                          (* last call? not yet *)
  ship_turns 0 6 ++
  passenger_turns 1 [ idle_answer; idle_answer; idle_answer ].

(** The passengers that have returned, in thread order. *)
Definition finals_of (s : System) : list Passenger :=
  omap final (passenger_threads s).

Definition counter (key : string) (s : System) : option Z := stats (world s) !! key.

Definition occupancy (loc : nat) (s : System) : option Z :=
  count <$> (locations (world s) !! loc).

(** A run of passenger 1000 on its own, told by an oracle: not departed
    at position 3, the beach at 4, a taxi at 5, last call during the
    stay, no incident, not departed at position 17. *)
Definition first_passenger : Passenger :=
  set_ship (Some 0%nat) (new_Passenger 1000 1 "young" "female" 50).

Definition boarding_oracle (i : nat) : Answer :=
  {| a_bool := negb (Nat.eqb i 3) && negb (Nat.eqb i 17);
     a_float := if Nat.eqb i 10 then 1%float
                else if Nat.eqb i 12 then 0.5%float else 0%float;
     a_nat := if Nat.eqb i 4 then 7%nat else if Nat.eqb i 5 then 2%nat else 0%nat |}.

Definition small_ship : CruiseShip :=
  nth 0 (ships small_world) (new_CruiseShip 1 8%float).

(** ** Further notions for the properties of single methods *)

(** Steps that call no location. *)
Definition loc_free (e : event) : bool :=
  match e with
  | EB (TryEnter _ _) _ => false
  | EDo (Leave _ _) => false
  | _ => true
  end.

(** The result and the steps of a run from position [pos]. *)
Definition outcome_at {A : Type} (o : nat -> Answer) (pos : nat) (t : prog A)
  : list event * result A :=
  fst (eval o pos t).

Definition excursion (loc_name : string) : bool :=
  String.eqb loc_name "hiking_excursion" || String.eqb loc_name "snorkeling_excursion".

(** What a stay does to a living passenger at a location called
    [loc_name]: no location call; the passenger keeps its place and its
    boarding flag; it dies only on an excursion, and is then the one
    entry added to the dead registry; it gets drunk only in a bar. *)
Definition stay_effects (loc_name : string) (self : Passenger)
    (tr : list event) (r : result Passenger) : Prop :=
  forallb loc_free tr = true /\
  match r with
  | Finished p =>
      current_location p = current_location self /\
      on_board p = on_board self /\
      same_person self p /\
      (if is_dead p
       then excursion loc_name = true /\ appended_dead tr = [p]
       else appended_dead tr = []) /\
      (was_drunk p = was_drunk self \/
       was_drunk p = true /\ contains "bar" loc_name = true)
  | Cut => True
  | Failed _ => False
  end.

(** Passenger 1000 at the beach, and an oracle that answers every read
    with [True], every clock and draw with 0. *)
Definition beach_goer : Passenger := set_current_location (Some 7%nat) first_passenger.

Definition calm_oracle (i : nat) : Answer := idle_answer.

Definition beach_stay_result : Passenger :=
  match snd (outcome_at calm_oracle 0 (stay_in_activity 3 Island_locations beach_goer)) with
  | Finished p => p
  | _ => beach_goer
  end.

(** The tournament told as a gauntlet: the champion meets the
    challengers one after the other, the winner of a match being the
    champion of the next; [k] numbers the draws. *)
Fixpoint gauntlet (draw : Z -> nat -> Z) (k : nat) (champion : Passenger)
    (challengers : list Passenger) : list Match * Passenger :=
  match challengers with
  | [] => ([], champion)
  | b :: rest =>
      let w := fight champion b (draw (strength champion + strength b) k) in
      let '(log, survivor) := gauntlet draw (S k) w rest in
      ({| fighter_a := champion; fighter_b := b; winner := w |} :: log, survivor)
  end.

(** ** Further notions for the day as a whole *)

(** The steps a schedule makes the system take, in order. *)
Fixpoint steps_of (s : System) (sched : list Turn) : list event :=
  match sched with
  | [] => []
  | t :: sched' =>
      let e :=
        match t with
        | PassengerTurn i a =>
            match passenger_threads s !! i with
            | Some th => fst <$> step (world s) a th
            | None => None
            end
        | ShipTurn j a =>
            match ship_threads s !! j with
            | Some th => fst <$> step (world s) a th
            | None => None
            end
        end in
      match e with
      | Some e => e :: steps_of (sys_step s t) sched'
      | None => steps_of (sys_step s t) sched'
      end
  end.

(** No location is over its capacity. *)
Definition within_capacity (w : World) : Prop :=
  Forall (fun l => count l <= max_capacity l) (locations w).

(** The location a passenger is inside after the steps [tr], having been
    inside [inside] before: a granted [try_enter] takes it in, a [leave]
    takes it out.  [None] if it enters while inside, or leaves a
    location it is not inside. *)
Fixpoint inside_after (inside : option nat) (tr : list event) : option (option nat) :=
  match tr with
  | [] => Some inside
  | EB (TryEnter l _) true :: tr' =>
      match inside with
      | None => inside_after (Some l) tr'
      | Some _ => None
      end
  | EDo (Leave l _) :: tr' =>
      match inside with
      | Some l' => if Nat.eqb l l' then inside_after None tr' else None
      | None => None
      end
  | _ :: tr' => inside_after inside tr'
  end.

(** What every run of a passenger's day does with the locations. *)
Definition visits (tr : list event) (r : result Passenger) : Prop :=
  match r with
  | Finished p =>
      inside_after None tr = Some (if is_dead p then current_location p else None)
  | Cut => exists i, inside_after None tr = Some i
  | Failed _ => False
  end.

Definition grants (loc : nat) (e : event) : bool :=
  match e with
  | EB (TryEnter l _) true => Nat.eqb l loc
  | _ => false
  end.

Definition leaves (loc : nat) (e : event) : bool :=
  match e with
  | EDo (Leave l _) => Nat.eqb l loc
  | _ => false
  end.

(** Granted entries minus leaves at [loc]. *)
Definition held (loc : nat) (tr : list event) : Z :=
  Z.of_nat (length (List.filter (grants loc) tr)) -
  Z.of_nat (length (List.filter (leaves loc) tr)).

Definition at_loc (loc : nat) (i : option nat) : nat :=
  match i with
  | Some l => if Nat.eqb l loc then 1 else 0
  | None => 0
  end.

(** A read recorded in a step has the answer the world gave. *)
Definition answered (w : World) (e : event) : Prop :=
  match e with
  | EB q b => b = read w q
  | _ => True
  end.

Fixpoint consistent (w : World) (g : list event) : Prop :=
  match g with
  | [] => True
  | e :: g' => answered w e /\ consistent (perform e w) g'
  end.

(** The passengers who died at [loc]. *)
Definition died_at (loc : nat) (p : Passenger) : bool :=
  is_dead p &&
  match current_location p with
  | Some l => Nat.eqb l loc
  | None => false
  end.

(** A ship as [setup_day] creates it: no signal set. *)
Definition unsignalled (s : CruiseShip) : bool :=
  negb (is_set s Arrived) && negb (is_set s LastCall) && negb (is_set s Departed).

(** A passenger of the roster is enrolled: its [ship] is a ship of the
    island that carries its [ship_id] and has it among its observers. *)
Definition enrolled (w : World) (p : Passenger) : Prop :=
  exists (idx : nat) (s : CruiseShip),
    ship p = Some idx /\ ships w !! idx = Some s /\
    cs_ship_id s = ship_id p /\ In (passenger_id p) (observers s).

(** The counters a trace increments, in order. *)
Definition incremented (tr : list event) : list string :=
  omap (fun e => match e with EDo (Incr key) => Some key | _ => None end) tr.

(** The counters that belong to the island's location at position [li]. *)
Definition incident_keys (li : nat) : list string :=
  match li with
  | 0 | 1 => ["intoxicated"]
  | 2 | 3 => ["drunk"]
  | 4 => ["popup_delay"]
  | 5 => ["died_cliff"; "lost_hiking"]
  | 6 => ["died_shark"; "snorkel_delay"]
  | 7 => ["fell_asleep"]
  | _ => []
  end%nat.

(** What a stay at the island's location [li] does to the counters and
    to the passenger. *)
Definition one_incident (li : nat) (self : Passenger)
    (tr : list event) (r : result Passenger) : Prop :=
  match r with
  | Finished p =>
      (incremented tr = [] /\ is_dead p = false /\ was_drunk p = was_drunk self) \/
      (exists key,
          incremented tr = [key] /\ In key (incident_keys li) /\
          is_dead p = (String.eqb key "died_cliff" || String.eqb key "died_shark") /\
          was_drunk p = (String.eqb key "drunk" || was_drunk self))
  | Cut => incremented tr = []
  | Failed _ => False
  end.

(** Both passengers take a taxi to the beach and stay until last call;
    the ship departs while they are on the way back. *)
Definition day_with_two_stranded : list Turn :=
  ship_turns 0 4 ++
  passenger_turns 0 to_the_beach ++ passenger_turns 1 to_the_beach ++
  ship_turns 0 3 ++
  passenger_turns 0 (take 8 beach_and_back) ++
  passenger_turns 1 (take 8 beach_and_back) ++
  ship_turns 0 3 ++
  passenger_turns 0 (drop 8 beach_and_back) ++
  passenger_turns 1 (drop 8 beach_and_back).

(** The passenger at the end of the run told by [boarding_oracle]. *)
Definition boarding_result : Passenger :=
  match result_of boarding_oracle (run 3 Island_locations first_passenger) with
  | Finished p => p
  | _ => first_passenger
  end.

(** Steps other than an append to the stranded registry. *)
Definition no_append (e : event) : bool :=
  match e with
  | EDo (AppendStranded _) => false
  | _ => true
  end.

(** Every append to the stranded registry in [tr] comes after a read of
    the departed signal of ship [sid] that answered [True]; [seen] tells
    whether such a read has come before [tr]. *)
Fixpoint stranded_after_departure (sid : nat) (seen : bool) (tr : list event) : bool :=
  match tr with
  | [] => true
  | EB (IsSet s Departed) true :: tr' =>
      stranded_after_departure sid (seen || Nat.eqb s sid) tr'
  | EDo (AppendStranded _) :: tr' => seen && stranded_after_departure sid seen tr'
  | _ :: tr' => stranded_after_departure sid seen tr'
  end.

(** ** The day ends while a passenger is still under way *)

















(** Whether a thread has returned. *)
Definition returned {A : Type} (t : prog A) : bool :=
  match final t with Some _ => true | None => false end.



(** * Properties *)

(** ** Location *)

Lemma try_enter_count (self : Location) (pid : Z) :
  count (snd (fst (try_enter self pid))) =
  count self + (if fst (fst (try_enter self pid)) then 1 else 0).
Proof.
  unfold try_enter. destruct (count self <? max_capacity self); simpl; lia.
Qed.

Lemma try_enter_capacity (self : Location) (pid : Z) :
  max_capacity (snd (fst (try_enter self pid))) = max_capacity self.
Proof.
  unfold try_enter. destruct (count self <? max_capacity self); reflexivity.
Qed.

(** C4. [try_enter] always returns (it never blocks); it answers [True]
    exactly when the occupancy is below the capacity at the call, and
    then the occupancy is one higher; otherwise it answers [False] and
    the location is unchanged. *)
Theorem try_enter_spec (self : Location) (pid : Z) :
  exists (ok : bool) (self' : Location) (out : list LogLine),
    try_enter self pid = (ok, self', out) /\
    (ok = true <-> count self < max_capacity self) /\
    (ok = true -> count self' = count self + 1 /\
                  max_capacity self' = max_capacity self /\
                  name self' = name self) /\
    (ok = false -> self' = self /\ out = []).
Proof.
  unfold try_enter. destruct (Z.ltb_spec (count self) (max_capacity self)).
  - eexists true, _, _. split; [reflexivity|]. simpl.
    repeat split; auto; try discriminate.
  - eexists false, _, _. split; [reflexivity|].
    repeat split; auto; try discriminate. lia.
Qed.

(** C10. [leave] takes one off the occupancy whatever it is: on an empty
    location it leaves -1, and a lone [leave] on a new location, which
    the protocol forbids, makes the occupancy negative. *)
Theorem leave_unguarded (self : Location) (pid : Z) :
  count (fst (leave self pid)) = count self - 1 /\
  (count self = 0 -> count (fst (leave self pid)) = -1) /\
  (forall nm cap h d,
      count (calls (new_Location nm cap h d) [CallLeave pid]) = -1 /\
      protocol (new_Location nm cap h d) 0 [CallLeave pid] = false).
Proof.
  split; [reflexivity|]. split.
  - intros H. simpl. lia.
  - intros. split; reflexivity.
Qed.

(** Under the protocol the occupancy is the number of open entries. *)
Lemma protocol_invariant (cs : list LocCall) :
  forall (self : Location) (n : nat),
    0 <= count self <= max_capacity self ->
    protocol self (count self) cs = true ->
    0 <= count (calls self (take n cs)) <= max_capacity (calls self (take n cs)).
Proof.
  induction cs as [|c cs IH]; intros self n Hb Hp.
  - rewrite take_nil. exact Hb.
  - destruct n as [|n]; [exact Hb|].
    change (take (S n) (c :: cs)) with (c :: take n cs).
    change (calls self (c :: take n cs)) with (calls (call self c) (take n cs)).
    destruct c as [pid|pid]; simpl in Hp.
    + pose proof (try_enter_count self pid) as Hc.
      pose proof (try_enter_capacity self pid) as Hm.
      destruct (try_enter self pid) as [[ok self'] out] eqn:E. simpl in Hc, Hm.
      assert (Hok : ok = (count self <? max_capacity self)).
      { unfold try_enter in E.
        destruct (count self <? max_capacity self); congruence. }
      apply IH; simpl; rewrite E; simpl.
      * rewrite Hc, Hm. destruct ok; [symmetry in Hok; apply Z.ltb_lt in Hok|]; lia.
      * rewrite Hc. destruct ok; [exact Hp | rewrite Z.add_0_r; exact Hp].
    + apply andb_prop in Hp as [Hh Hp]. apply Z.ltb_lt in Hh.
      apply IH; simpl; [lia|].
      exact Hp.
Qed.

Lemma calls_capacity (cs : list LocCall) (self : Location) :
  max_capacity (calls self cs) = max_capacity self.
Proof.
  revert self. induction cs as [|c cs IH]; intros self; [reflexivity|].
  change (calls self (c :: cs)) with (calls (call self c) cs). rewrite IH.
  destruct c; simpl; [apply try_enter_capacity | reflexivity].
Qed.

(** C3. On a location whose capacity is not negative, used under the
    protocol (each [leave] answers one open successful [try_enter]), the
    occupancy is between 0 and the capacity after every call. *)
Theorem occupancy_bounds (nm : string) (cap : Z) (h d : float)
    (cs : list LocCall) (n : nat) :
  0 <= cap ->
  protocol (new_Location nm cap h d) 0 cs = true ->
  0 <= count (calls (new_Location nm cap h d) (take n cs)) <= cap.
Proof.
  intros Hcap Hp.
  pose proof (protocol_invariant cs (new_Location nm cap h d) n) as H.
  rewrite calls_capacity in H. apply H; simpl; [lia | exact Hp].
Qed.

Lemma occupancy_bounds_witness :
  0 <= count (calls (new_Location "irish_bar" 2 1.5%float 1.3%float)
                (take 4 [CallTryEnter 1; CallTryEnter 2; CallTryEnter 3;
                         CallLeave 1; CallTryEnter 3; CallLeave 2])) <= 2.
Proof.
  apply (occupancy_bounds "irish_bar" 2 1.5%float 1.3%float
           [CallTryEnter 1; CallTryEnter 2; CallTryEnter 3;
            CallLeave 1; CallTryEnter 3; CallLeave 2] 4).
  - lia.
  - reflexivity.
Defined.

(** ** Transport *)

(** C8. For every mode and distance the strategy stored under the mode's
    key computes [distance / speed], with speeds 1, 3 and 4; it takes the
    distance and nothing else, and the dictionary has these three keys. *)
Theorem travel_time_by_speed (m : Mode) (d : float) :
  speed walk = 1%float /\ speed bus = 3%float /\ speed taxi = 4%float /\
  map fst TRANSPORT_STRATEGIES = map mode_key [walk; bus; taxi] /\
  exists s : MovementStrategy,
    strategy (mode_key m) = Some s /\
    travel_time s d = travel_time_spec m d /\
    travel_time s d = (d / speed m)%float.
Proof.
  repeat (split; [reflexivity|]).
  destruct m; eexists; repeat split; reflexivity.
Qed.

(** ** Every run of a thread body *)

Lemma all_runs_mono {A : Type} (t : prog A) :
  forall (Q Q' : list event -> result A -> Prop),
    (forall tr r, Q tr r -> Q' tr r) -> all_runs t Q -> all_runs t Q'.
Proof.
  induction t as [a| |exn|s k IH|sid ev k IH|q k IH|q k IH|q k IH];
    intros Q Q' HQ H; simpl in *; auto.
  - eapply IH; [|exact H]. intros; apply HQ; assumption.
  - eapply IH; [|exact H]. intros; apply HQ; assumption.
  - intros b. eapply IH; [|apply H]. intros; apply HQ; assumption.
  - intros x. eapply IH; [|apply H]. intros; apply HQ; assumption.
  - intros n. eapply IH; [|apply H]. intros; apply HQ; assumption.
Qed.

(** Sequencing: a property of [t] followed by a property of what comes
    after it. *)
Lemma all_runs_bind {A B : Type} (t : prog A) (f : A -> prog B) :
  forall (Q : list event -> result B -> Prop),
    all_runs t (fun tr r =>
      match r with
      | Finished a => all_runs (f a) (fun tr' r' => Q (tr ++ tr') r')
      | Cut => Q tr Cut
      | Failed exn => Q tr (Failed exn)
      end) ->
    all_runs (bind t f) Q.
Proof.
  induction t as [a| |exn|s k IH|sid ev k IH|q k IH|q k IH|q k IH];
    intros Q H; simpl in *; auto.
Qed.

(** A property of every run holds of the run against any oracle. *)
Lemma all_runs_eval {A : Type} (t : prog A) :
  forall (Q : list event -> result A -> Prop) (o : nat -> Answer) (pos : nat),
    all_runs t Q -> Q (fst (fst (eval o pos t))) (snd (fst (eval o pos t))).
Proof.
  induction t as [a| |exn|s k IH|sid ev k IH|q k IH|q k IH|q k IH];
    intros Q o pos H; simpl in *; auto.
  - specialize (IH _ o (S pos) H). destruct (eval o (S pos) k) as [[tr r] p]. exact IH.
  - specialize (IH _ o (S pos) H). destruct (eval o (S pos) k) as [[tr r] p]. exact IH.
  - specialize (IH _ _ o (S pos) (H (a_bool (o pos)))).
    destruct (eval o (S pos) (k (a_bool (o pos)))) as [[tr r] p]. exact IH.
  - specialize (IH _ _ o (S pos) (H (a_float (o pos)))).
    destruct (eval o (S pos) (k (a_float (o pos)))) as [[tr r] p]. exact IH.
  - specialize (IH _ _ o (S pos) (H (a_nat (o pos)))).
    destruct (eval o (S pos) (k (pick q (a_nat (o pos))))) as [[tr r] p]. exact IH.
Qed.

(** ... and of the steps a thread has taken when it has finished. *)
Lemma all_runs_follows {A : Type} (t : prog A) (tr : list event) (t' : prog A) :
  follows t tr t' ->
  forall (Q : list event -> result A -> Prop),
    all_runs t Q -> all_runs t' (fun tr' r => Q (tr ++ tr') r).
Proof.
  induction 1 as [t|s k tr t' _ IH|sid ev k tr t' _ IH|q k b tr t' _ IH
                 |q k x tr t' _ IH|q k n tr t' _ IH]; intros Q H; simpl in *.
  - exact H.
  - apply (IH _ H).
  - apply (IH _ H).
  - apply (IH _ (H b)).
  - apply (IH _ (H x)).
  - apply (IH _ (H n)).
Qed.

Lemma follows_app {A : Type} (t : prog A) (tr : list event) (t' : prog A) :
  follows t tr t' ->
  forall tr' t'', follows t' tr' t'' -> follows t (tr ++ tr') t''.
Proof.
  induction 1; intros tr' t'' H'; simpl; try constructor; auto.
Qed.

Lemma step_follows {A : Type} (w : World) (a : Answer) (t : prog A) e t' :
  step w a t = Some (e, t') -> follows t [e] t'.
Proof.
  destruct t; simpl; intros H; try discriminate.
  - injection H as <- <-. repeat constructor.
  - destruct (signal w sid ev); [|discriminate]. injection H as <- <-. repeat constructor.
  - injection H as <- <-. repeat constructor.
  - injection H as <- <-. repeat constructor.
  - injection H as <- <-. repeat constructor.
Qed.

(** ** The methods of a passenger, run by run *)

Arguments pick : simpl never.

Lemma stay_event_wander (tr : list event) :
  forallb stay_event tr = true -> forallb wander_event tr = true.
Proof.
  induction tr as [|e tr IH]; simpl; [reflexivity|].
  intros H. apply andb_prop in H as [He Htr]. rewrite (IH Htr), andb_true_r.
  destruct e as [[]| |[]| |]; simpl in *; try reflexivity; discriminate.
Qed.

Lemma falses_app (tr tr' : list event) :
  falses (tr ++ tr') = (falses tr + falses tr')%nat.
Proof. unfold falses. rewrite List.filter_app, length_app. reflexivity. Qed.

Lemma pick_transport (n : nat) :
  exists key s,
    nth (pick (Choice (length (map fst TRANSPORT_STRATEGIES))) n)
        (map fst TRANSPORT_STRATEGIES) "" = key /\
    strategy key = Some s.
Proof.
  unfold pick. change (length (map fst TRANSPORT_STRATEGIES)) with 3%nat.
  assert (H : (n mod 3 < 3)%nat) by (apply Nat.mod_upper_bound; lia).
  destruct (n mod 3)%nat as [|[|[|k]]]; try lia;
    do 2 eexists; split; reflexivity.
Qed.

Lemma choose_transport_runs (self : Passenger) :
  all_runs (choose_transport self) (fun tr r =>
    exists n key s,
      tr = [EN (Choice 3) n] /\
      r = Finished (key, set_transport_strategy s self)).
Proof.
  unfold choose_transport. simpl. intros n.
  destruct (pick_transport n) as (key & s & Hk & Hs).
  simpl in Hk. rewrite Hk, Hs. simpl. eauto.
Qed.

Lemma go_to_location_runs (self : Passenger) (li : nat) (loc : Location) :
  is_dead self = false ->
  all_runs (go_to_location self li loc) (fun tr r =>
    exists pre b s,
      forallb wander_event pre = true /\
      tr = pre ++ [EB (TryEnter li (passenger_id self)) b] /\
      r = Finished (if b then set_current_location (Some li)
                                (set_transport_strategy s self)
                    else set_transport_strategy s self)).
Proof.
  intros Hd. unfold go_to_location. rewrite Hd.
  apply all_runs_bind. eapply all_runs_mono; [|apply choose_transport_runs].
  intros tr r (n & key & s & -> & ->). simpl. intros b.
  destruct b; simpl;
    [ exists [EN (Choice 3) n;
              EDo (Print {| tag := "[MOVE]"; who := passenger_id self |});
              EDo (Sleep (travel_time s (distance loc)))], true, s
    | exists [EN (Choice 3) n;
              EDo (Print {| tag := "[MOVE]"; who := passenger_id self |});
              EDo (Sleep (travel_time s (distance loc)))], false, s ];
    auto.
Qed.

Lemma stay_wait_runs (sid : nat) (end_time : float) (self : Passenger) :
  ship self = Some sid -> is_dead self = false ->
  forall fuel : nat,
    all_runs (stay_wait fuel end_time self) (fun tr r =>
      forallb stay_event tr = true /\
      (r = Finished false \/ (r = Cut /\ (fuel <= falses tr)%nat))).
Proof.
  intros Hs Hd. induction fuel as [|fuel IH]; simpl.
  - split; [reflexivity|]. right. split; [reflexivity|]. unfold falses. simpl. lia.
  - intros now. destruct (now <? end_time)%float; simpl; [|auto].
    rewrite Hd, Hs. simpl. intros [|]; simpl; [auto|].
    eapply all_runs_mono; [|exact IH].
    intros tr r [Htr Hr]. split; [exact Htr|].
    destruct Hr as [->|[-> Hf]]; [auto|]. right. split; [reflexivity|].
    unfold falses in *. simpl. lia.
Qed.

Ltac incident_leaf :=
  split; [reflexivity | first [exists true; reflexivity | exists false; reflexivity]].

Lemma stay_incidents_runs (loc_name : string) (self : Passenger) :
  all_runs (stay_incidents loc_name self) (fun tr r =>
    forallb wander_event tr = true /\
    exists b : bool, r = Finished (if b then set_was_drunk true self else self)).
Proof.
  unfold stay_incidents, roll.
  destruct (contains "restaurant" loc_name), (contains "bar" loc_name),
    (String.eqb loc_name "shopping_street"),
    (String.eqb loc_name "hiking_excursion"),
    (String.eqb loc_name "snorkeling_excursion"),
    (String.eqb loc_name "paradise_beach");
    simpl;
    repeat first
      [ incident_leaf
      | match goal with
        | |- forall x : float, _ => intros ?
        | |- context [if (?r <? ?p)%float then _ else _] =>
            destruct (r <? p)%float; simpl
        end ].
Qed.

Lemma stay_in_activity_runs (fuel : nat) (locs : list Location) (self : Passenger)
    (sid li : nat) :
  is_dead self = false -> current_location self = Some li -> ship self = Some sid ->
  all_runs (stay_in_activity fuel locs self) (stay_outcome fuel self).
Proof.
  intros Hd Hl Hs. unfold stay_in_activity. rewrite Hd, Hl. simpl. intros t0.
  apply all_runs_bind. eapply all_runs_mono; [|apply (stay_wait_runs sid); assumption].
  intros tr r [Hst [->|[-> Hf]]];
    [|right; right; split; [reflexivity|]; split;
      [simpl; apply stay_event_wander; exact Hst | exact Hf]].
  assert (Hdead : forall (rs : list event) (key : string),
             forallb stay_event rs = true ->
             key = "died_cliff" \/ key = "died_shark" ->
             stay_outcome fuel self (EF Now t0 :: tr ++ rs ++
                  [EDo (AppendDead (set_is_dead true self)); EDo (Incr key);
                   line "[DEATH]" (set_is_dead true self)])
               (Finished (set_is_dead true self))).
  { intros rs key Hrs Hkey. right. left.
    exists (EF Now t0 :: tr ++ rs), key. repeat split; auto.
    - simpl. rewrite forallb_app, Hst, Hrs. reflexivity.
    - simpl. rewrite <- app_assoc. reflexivity. }
  assert (Hlive : forall rs : list event,
             forallb stay_event rs = true ->
             all_runs (stay_incidents (name (location_at locs li)) self)
               (fun tr' r' => stay_outcome fuel self (EF Now t0 :: tr ++ rs ++ tr') r')).
  { intros rs Hrs. eapply all_runs_mono; [|apply stay_incidents_runs].
    intros tr' r' [Htr' Hr']. left. split; [|exact Hr'].
    simpl. rewrite !forallb_app, Htr', !stay_event_wander by assumption.
    reflexivity. }
  unfold roll.
  destruct (String.eqb (name (location_at locs li)) "hiking_excursion"),
    (String.eqb (name (location_at locs li)) "snorkeling_excursion"); simpl.
  - intros r. destruct (r <? 0.02)%float; simpl.
    + apply (Hdead [EF Random r]); auto.
    + intros r'. destruct (r' <? 0.02)%float; simpl.
      * apply (Hdead [EF Random r; EF Random r']); auto.
      * apply (Hlive [EF Random r; EF Random r']). reflexivity.
  - intros r. destruct (r <? 0.02)%float; simpl.
    + apply (Hdead [EF Random r]); auto.
    + apply (Hlive [EF Random r]). reflexivity.
  - intros r. destruct (r <? 0.02)%float; simpl.
    + apply (Hdead [EF Random r]); auto.
    + apply (Hlive [EF Random r]). reflexivity.
  - apply (Hlive []). reflexivity.
Qed.

Lemma taxi_travel :
  exists taxi_strategy : MovementStrategy,
    strategy "taxi" = Some taxi_strategy /\
    travel_time taxi_strategy 0.5%float = 0.125%float.
Proof. eexists. split; reflexivity. Qed.

Lemma return_to_ship_runs (self : Passenger) (sid : nat) :
  is_dead self = false -> ship self = Some sid ->
  all_runs (return_to_ship self) (fun tr r =>
    exists p : Passenger, r = Finished p /\ return_phase self sid tr p).
Proof.
  intros Hd Hs. unfold return_to_ship, roll. rewrite Hd.
  destruct taxi_travel as (taxi_strategy & -> & Ht).
  assert (Hend : forall delay : list event,
             reaction_delay self delay ->
             all_runs
               (print "[RETURN]" (passenger_id self);;
                sleep (travel_time taxi_strategy 0.5%float);;
                match ship self with
                | None => Raise "AttributeError"
                | Some sid =>
                    departed ← ask_b (IsSet sid Departed);
                    if negb departed then
                      let self := set_on_board true self in
                      do (Incr "boarded");;
                      print "[BOARD]" (passenger_id self);;
                      Ret self
                    else
                      do (Incr "stranded");;
                      print "[MISS]" (passenger_id self);;
                      Ret self
                end)
               (fun tr r => exists p : Passenger,
                    r = Finished p /\ return_phase self sid (delay ++ tr) p)).
  { intros delay Hdelay. rewrite Hs, Ht. simpl. intros [|]; simpl.
    - exists self. split; [reflexivity|]. apply (return_misses self sid delay Hdelay).
    - exists (set_on_board true self). split; [reflexivity|].
      apply (return_boards self sid delay Hdelay). }
  destruct (was_drunk self) eqn:Hw; simpl.
  - intros r. destruct (r <? 0.05)%float eqn:Hr; simpl.
    + intros delay.
      apply (Hend [EF Random r; EF (Uniform 1%float 2%float) delay;
                   line "[DRUNK-DELAY]" self; EDo (Sleep delay)]).
      apply late; assumption.
    + apply (Hend [EF Random r]). apply quick; assumption.
  - apply (Hend []). apply sober; assumption.
Qed.

Lemma wander_prefix (fuel fuel' : nat) (self : Passenger) (sid : nat)
    (pre tr : list event) (r : result Passenger) :
  forallb wander_event pre = true ->
  (fuel' <= fuel + falses pre)%nat ->
  run_outcome fuel self sid tr r ->
  run_outcome fuel' self sid (pre ++ tr) r.
Proof.
  intros Hpre Hf H. destruct H as [tr Hwc Hc|pre' st li key p Hw Hst Hp Hd Hb Hl Hk
                                  |pre' p Hw Hp Hd Hb|pre' rt cur p Hw Hc Hd Hb Hr].
  - apply day_cut; [rewrite forallb_app, Hpre; assumption|]. rewrite falses_app. lia.
  - rewrite app_assoc. apply day_dies; auto. rewrite forallb_app, Hpre, Hw. reflexivity.
  - rewrite app_assoc. apply day_overstays; auto.
    rewrite forallb_app, Hpre, Hw. reflexivity.
  - rewrite app_assoc. eapply day_returns; eauto.
    rewrite forallb_app, Hpre, Hw. reflexivity.
Qed.

Lemma same_person_refl (p : Passenger) : same_person p p.
Proof. repeat split. Qed.

Lemma run_epilogue_runs (fuel : nat) (self cur p : Passenger) (sid : nat)
    (pre rt : list event) :
  forallb wander_event pre = true ->
  same_person self cur -> is_dead cur = false -> on_board cur = false ->
  return_phase cur sid rt p ->
  all_runs (run_epilogue p) (fun tr r =>
    run_outcome fuel self sid (pre ++ [EB (IsSet sid LastCall) true] ++ rt ++ tr) r).
Proof.
  intros Hpre Hc Hd Hb Hr. unfold run_epilogue.
  pose proof (day_returns fuel self sid pre rt cur p Hpre Hc Hd Hb Hr) as H.
  destruct Hr as [delay Hdelay|delay Hdelay]; simpl in *.
  - exact H.
  - rewrite Hb, Hd in *. simpl. exact H.
Qed.

Lemma run_loop_runs (locs : list Location) (self : Passenger) (sid : nat) :
  ship self = Some sid ->
  forall (fuel : nat) (cur : Passenger),
    same_person self cur -> is_dead cur = false -> on_board cur = false ->
    current_location cur = None ->
    all_runs (run_loop fuel locs sid cur) (run_outcome fuel self sid).
Proof.
  intros Hs. induction fuel as [|fuel IH]; intros cur Hc Hd Hb Hl.
  - simpl. apply day_cut; [reflexivity|]. unfold falses. simpl. lia.
  - assert (Htail : forall (pre : list event) (cur' : Passenger),
               forallb wander_event pre = true -> (1 <= falses pre)%nat ->
               same_person self cur' -> is_dead cur' = false ->
               on_board cur' = false -> current_location cur' = None ->
               all_runs
                 (last_call ← ask_b (IsSet sid LastCall);
                  if last_call then
                    self ← return_to_ship cur';
                    run_epilogue self
                  else run_loop fuel locs sid cur')
                 (fun tr r => run_outcome (S fuel) self sid (pre ++ tr) r)).
    { intros pre cur' Hpre Hf Hc' Hd' Hb' Hl'. simpl. intros [|].
      - apply all_runs_bind.
        eapply all_runs_mono;
          [|apply (return_to_ship_runs cur' sid);
            [exact Hd' | destruct Hc' as (_ & _ & _ & _ & _ & ->); exact Hs]].
        intros rt r (p & -> & Hr).
        apply (run_epilogue_runs (S fuel) self cur' p sid pre rt); assumption.
      - eapply all_runs_mono; [|apply (IH cur'); assumption].
        intros tr r H.
        change (pre ++ EB (IsSet sid LastCall) false :: tr)
          with (pre ++ [EB (IsSet sid LastCall) false] ++ tr).
        rewrite app_assoc. apply (wander_prefix fuel); auto.
        + rewrite forallb_app, Hpre. reflexivity.
        + rewrite falses_app. lia. }
    cbn [run_loop bind ask_b all_runs]. intros [|].
    + unfold run_epilogue. rewrite Hb, Hd. simpl.
      apply (day_overstays (S fuel) self sid [] cur); auto.
    + rewrite Hd. unfold choose_activity, ask_n. cbn [bind all_runs]. intros n.
      apply all_runs_bind.
      eapply all_runs_mono; [|apply go_to_location_runs; exact Hd].
      intros tr r (pre & b & s & Hpre & -> & ->).
      set (li := pick (Choices (map (activity_weight cur) locs)) n).
      assert (Hc1 : same_person self (set_transport_strategy s cur))
        by (destruct Hc as (? & ? & ? & ? & ? & ?); repeat split; assumption).
      destruct b.
      * cbn [current_location set_current_location].
        set (cur1 := set_current_location (Some li) (set_transport_strategy s cur)).
        assert (Hs1 : ship cur1 = Some sid)
          by (destruct Hc as (_ & _ & _ & _ & _ & Hx); simpl; rewrite Hx; exact Hs).
        apply all_runs_bind. apply all_runs_bind.
        eapply all_runs_mono;
          [|apply (stay_in_activity_runs fuel locs cur1 sid li);
            [exact Hd | reflexivity | exact Hs1]].
        intros tr r [[Htr [w ->]]|[(st & key & Hst & Hkey & -> & ->)|(-> & Htr & Hf)]].
        -- assert (Hd2 : is_dead (if w then set_was_drunk true cur1 else cur1) = false)
             by (destruct w; exact Hd).
           rewrite Hd2.
           assert (Hl2 : current_location (if w then set_was_drunk true cur1 else cur1)
                         = Some li) by (destruct w; reflexivity).
           rewrite Hl2. simpl. intros last_call. simpl in Htail.
           eapply all_runs_mono;
             [|apply (Htail
                 ((EB (IsSet sid Departed) false
                   :: EN (Choices (map (activity_weight cur) locs)) li
                   :: pre ++ [EB (TryEnter li (passenger_id cur)) true]) ++
                  tr ++ [EDo (Leave li (passenger_id
                           (if w then set_was_drunk true cur1 else cur1)))])
                 (set_current_location None
                    (if w then set_was_drunk true cur1 else cur1)))].
           ++ intros tr' r' H. simpl in H.
              rewrite <- ?app_assoc in H. simpl in H. rewrite <- ?app_assoc in H.
              rewrite <- ?app_assoc. simpl. rewrite <- ?app_assoc. exact H.
           ++ simpl. rewrite !forallb_app, Hpre, Htr. reflexivity.
           ++ unfold falses. simpl. lia.
           ++ destruct Hc as (? & ? & ? & ? & ? & ?).
              destruct w; repeat split; assumption.
           ++ destruct w; exact Hd.
           ++ destruct w; exact Hb.
           ++ reflexivity.
        -- simpl. rewrite !app_nil_r, <- app_assoc.
           apply (day_dies (S fuel) self sid
                    (EB (IsSet sid Departed) false
                     :: EN (Choices (map (activity_weight cur) locs)) li :: pre)
                    st li key (set_is_dead true cur1)); auto.
        -- apply day_cut.
           ++ simpl. rewrite !forallb_app, Hpre, Htr. reflexivity.
           ++ unfold falses in *. simpl.
              rewrite List.filter_app, length_app. lia.
      * cbn [current_location set_transport_strategy]. rewrite Hl. simpl.
        intros last_call. simpl in Htail.
        eapply all_runs_mono;
          [|apply (Htail
              (EB (IsSet sid Departed) false
               :: EN (Choices (map (activity_weight cur) locs)) li
               :: pre ++ [EB (TryEnter li (passenger_id cur)) false])
              (set_transport_strategy s cur))]; auto.
        -- simpl. rewrite forallb_app, Hpre. reflexivity.
        -- unfold falses. simpl. lia.
Qed.

(** Every run of [run], for a passenger attached to ship [sid] and as
    the constructor left it, ends in one of the ways of [run_outcome]. *)
Lemma run_runs (fuel : nat) (locs : list Location) (self : Passenger) (sid : nat) :
  ship self = Some sid -> is_dead self = false -> on_board self = false ->
  current_location self = None ->
  all_runs (run fuel locs self) (run_outcome fuel self sid).
Proof.
  intros Hs Hd Hb Hl. unfold run. rewrite Hd, Hs. simpl.
  eapply all_runs_mono;
    [|apply (run_loop_runs locs self sid Hs fuel self (same_person_refl self) Hd Hb Hl)].
  intros tr r H.
  apply (wander_prefix fuel fuel self sid
           [line "[WAIT]" self; EWait sid Arrived; line "[ARRIVE]" self] tr r);
    [reflexivity | lia | exact H].
Qed.

(** Against an oracle whose reads all answer [True] from position [K]
    on, a run sees fewer than [K] answers [False]. *)
Lemma eval_falses {A : Type} (o : nat -> Answer) (K : nat) (t : prog A) :
  (forall i, (K <= i)%nat -> a_bool (o i) = true) ->
  forall pos : nat, (falses (fst (fst (eval o pos t))) <= K - pos)%nat.
Proof.
  intros Ho.
  induction t as [a| |exn|s k IH|sid ev k IH|q k IH|q k IH|q k IH];
    intros pos; simpl; try (unfold falses; simpl; lia).
  - specialize (IH (S pos)). destruct (eval o (S pos) k) as [[tr r] p].
    unfold falses in *. simpl in *. lia.
  - specialize (IH (S pos)). destruct (eval o (S pos) k) as [[tr r] p].
    unfold falses in *. simpl in *. lia.
  - specialize (IH (a_bool (o pos)) (S pos)).
    destruct (eval o (S pos) (k (a_bool (o pos)))) as [[tr r] p].
    unfold falses in *. simpl in *.
    destruct (a_bool (o pos)) eqn:E; simpl; [lia|].
    assert (pos < K)%nat; [|lia].
    destruct (le_lt_dec K pos) as [Hle|]; [|assumption].
    rewrite (Ho pos Hle) in E. discriminate.
  - specialize (IH (a_float (o pos)) (S pos)).
    destruct (eval o (S pos) (k (a_float (o pos)))) as [[tr r] p].
    unfold falses in *. simpl in *. lia.
  - specialize (IH (pick q (a_nat (o pos))) (S pos)).
    destruct (eval o (S pos) (k (pick q (a_nat (o pos))))) as [[tr r] p].
    unfold falses in *. simpl in *. lia.
Qed.

(** ** What a finished day leaves in the registries *)

Lemma appended_stranded_app (tr tr' : list event) :
  appended_stranded (tr ++ tr') = appended_stranded tr ++ appended_stranded tr'.
Proof. apply omap_app. Qed.

Lemma appended_dead_app (tr tr' : list event) :
  appended_dead (tr ++ tr') = appended_dead tr ++ appended_dead tr'.
Proof. apply omap_app. Qed.

Lemma wander_appends (tr : list event) :
  forallb wander_event tr = true ->
  appended_stranded tr = [] /\ appended_dead tr = [].
Proof.
  induction tr as [|e tr IH]; simpl; [auto|].
  intros H. apply andb_prop in H as [He Htr]. destruct (IH Htr) as [IHs IHd].
  unfold appended_stranded, appended_dead in *. simpl. rewrite IHs, IHd.
  destruct e as [[]| | | |]; simpl in *; try discriminate; auto.
Qed.

Lemma return_phase_appends (cur : Passenger) (sid : nat) (rt : list event)
    (p : Passenger) :
  return_phase cur sid rt p ->
  appended_stranded rt = [] /\ appended_dead rt = [] /\
  same_person cur p /\ is_dead p = is_dead cur.
Proof.
  intros [delay Hdelay|delay Hdelay];
    rewrite appended_stranded_app, appended_dead_app;
    destruct Hdelay; simpl; repeat split; reflexivity.
Qed.

Lemma same_person_trans (p q r : Passenger) :
  same_person p q -> same_person q r -> same_person p r.
Proof.
  intros (? & ? & ? & ? & ? & ?) (? & ? & ? & ? & ? & ?).
  repeat split; congruence.
Qed.

(** A finished passenger is boarded, dead, or neither, and is in the
    stranded registry exactly in the last case, in the dead registry
    exactly in the second. *)
Lemma run_outcome_finished (fuel : nat) (self : Passenger) (sid : nat)
    (tr : list event) (p : Passenger) :
  run_outcome fuel self sid tr (Finished p) ->
  same_person self p /\
  on_board p && is_dead p = false /\
  appended_stranded tr =
    (if negb (on_board p) && negb (is_dead p) then [p] else []) /\
  appended_dead tr = (if is_dead p then [p] else []).
Proof.
  intros H. inversion H as [|pre st li key q Hw Hst Hp Hd Hb Hl Hk
                           |pre q Hw Hp Hd Hb|pre rt cur q Hw Hc Hd Hb Hr]; subst.
  - destruct (wander_appends pre Hw) as [Es Ed].
    destruct (wander_appends st (stay_event_wander st Hst)) as [Es' Ed'].
    rewrite !appended_stranded_app, !appended_dead_app, Es, Ed, Es', Ed', Hd, Hb.
    split; [exact Hp|]. repeat split.
  - destruct (wander_appends pre Hw) as [Es Ed].
    rewrite !appended_stranded_app, !appended_dead_app, Es, Ed, Hd, Hb.
    split; [exact Hp|]. repeat split.
  - destruct (wander_appends pre Hw) as [Es Ed].
    destruct (return_phase_appends cur sid rt p Hr) as (Es' & Ed' & Hp & Hd').
    rewrite !appended_stranded_app, !appended_dead_app, Es, Ed, Es', Ed'.
    rewrite Hd', Hd. split; [eapply same_person_trans; eassumption|].
    destruct (on_board p); simpl; repeat split; reflexivity.
Qed.

(** ** The return to the ship *)

Lemma wander_no_return (e : event) :
  wander_event e = true -> is_print "[RETURN]" e = false.
Proof.
  destruct e as [[l| | | | | |]| | | |]; simpl; try reflexivity.
  intros H. destruct (String.eqb_spec (tag l) "[RETURN]") as [E|]; [|reflexivity].
  rewrite E in H. discriminate.
Qed.

Lemma wander_no_return_line (tr : list event) :
  forallb wander_event tr = true -> no_return_line tr = true.
Proof.
  unfold no_return_line. induction tr as [|e tr IH]; simpl; [reflexivity|].
  intros H. apply andb_prop in H as [He Htr].
  rewrite (wander_no_return e He), (IH Htr). reflexivity.
Qed.

Lemma return_travel_skip (pre tr : list event) :
  no_return_line pre = true ->
  return_travel (pre ++ tr) = return_travel tr.
Proof.
  unfold no_return_line.
  induction pre as [|e pre IH]; intros H; [reflexivity|].
  simpl in H. apply andb_prop in H as [He Hpre]. apply negb_true_iff in He.
  change ((e :: pre) ++ tr) with (e :: (pre ++ tr)).
  simpl. rewrite He, (IH Hpre).
  destruct (pre ++ tr) as [|[[]| | | |] ?]; reflexivity.
Qed.

Lemma return_phase_travel (cur : Passenger) (sid : nat) (rt : list event)
    (p : Passenger) (post : list event) :
  no_return_line post = true ->
  return_phase cur sid rt p ->
  return_travel (rt ++ post) = [0.125%float].
Proof.
  intros Hpost.
  assert (Htail : forall c d e : event,
             no_return_line [c; d; e] = true ->
             return_travel
               ([line "[RETURN]" cur; EDo (Sleep 0.125%float); c; d; e] ++ post)
             = [0.125%float]).
  { intros c d e Hc.
    change (return_travel ([line "[RETURN]" cur; EDo (Sleep 0.125%float); c; d; e]
                             ++ post))
      with (0.125%float
            :: return_travel ([EDo (Sleep 0.125%float); c; d; e] ++ post)).
    rewrite (return_travel_skip [EDo (Sleep 0.125%float); c; d; e] post)
      by exact Hc.
    rewrite <- (app_nil_r post), return_travel_skip by assumption. reflexivity. }
  intros [delay Hdelay|delay Hdelay]; rewrite <- app_assoc;
    (rewrite return_travel_skip; [|destruct Hdelay; reflexivity]);
    apply Htail; reflexivity.
Qed.

(** C9. The sleep after the [RETURN] line is [0.5 / 4.0 = 0.125]: for
    any living passenger [cur] whatever its fields, and in every run of
    a passenger's day over any table of locations, the return travel is
    absent or this constant. *)
Theorem return_travel_constant (fuel : nat) (locs : list Location)
    (self cur : Passenger) (sid : nat) (o : nat -> Answer) :
  ship self = Some sid -> is_dead self = false -> on_board self = false ->
  current_location self = None ->
  ship cur = Some sid -> is_dead cur = false ->
  return_travel (trace_of o (return_to_ship cur)) = [0.125%float] /\
  (return_travel (trace_of o (run fuel locs self)) = [] \/
   return_travel (trace_of o (run fuel locs self)) = [0.125%float]).
Proof.
  intros Hs Hd Hb Hl Hs' Hd'. split.
  - pose proof (all_runs_eval _ _ o 0%nat (return_to_ship_runs cur sid Hd' Hs')) as H.
    destruct H as (p & _ & Hr). unfold trace_of.
    rewrite <- (app_nil_r (fst (fst _))).
    apply (return_phase_travel cur sid _ p []); [reflexivity | exact Hr].
  - pose proof (all_runs_eval _ _ o 0%nat (run_runs fuel locs self sid Hs Hd Hb Hl)) as H.
    unfold trace_of.
    destruct H as [tr Hw Hc|pre st li key p Hw Hst Hp Hdp Hbp Hlp Hk
                  |pre p Hw Hp Hdp Hbp|pre rt c p Hw Hc Hdc Hbc Hr].
    + left. rewrite <- (app_nil_r tr). apply return_travel_skip.
      apply wander_no_return_line. exact Hw.
    + left. rewrite return_travel_skip by (apply wander_no_return_line; exact Hw).
      rewrite (return_travel_skip [_] _) by reflexivity.
      rewrite return_travel_skip
        by (apply wander_no_return_line, stay_event_wander; exact Hst).
      reflexivity.
    + left. rewrite return_travel_skip by (apply wander_no_return_line; exact Hw).
      reflexivity.
    + right. rewrite return_travel_skip by (apply wander_no_return_line; exact Hw).
      rewrite (return_travel_skip [_] _) by reflexivity.
      apply (return_phase_travel c sid rt p); [|exact Hr].
      destruct (on_board p); reflexivity.
Qed.

(** *** Replaying a trace on the world *)

Lemma replay_app (tr tr' : list event) (w : World) :
  replay (tr ++ tr') w = replay tr' (replay tr w).
Proof. unfold replay. apply fold_left_app. Qed.

Lemma perform_stranded (e : event) (w : World) :
  stranded_passengers (perform e w) = stranded_passengers w ++ appended_stranded [e].
Proof.
  destruct e as [[l|d|loc pid|key|p|p|sid ev]|sid ev|[sid ev|loc pid] b|q x|q n];
    simpl; rewrite ?app_nil_r; try reflexivity.
  - destruct (locations w !! loc); reflexivity.
  - destruct (ships w !! sid); reflexivity.
  - destruct (locations w !! loc) as [l|]; [|reflexivity].
    destruct (try_enter l pid) as [[? ?] ?]. reflexivity.
Qed.

Lemma perform_dead (e : event) (w : World) :
  dead_passengers (perform e w) = dead_passengers w ++ appended_dead [e].
Proof.
  destruct e as [[l|d|loc pid|key|p|p|sid ev]|sid ev|[sid ev|loc pid] b|q x|q n];
    simpl; rewrite ?app_nil_r; try reflexivity.
  - destruct (locations w !! loc); reflexivity.
  - destruct (ships w !! sid); reflexivity.
  - destruct (locations w !! loc) as [l|]; [|reflexivity].
    destruct (try_enter l pid) as [[? ?] ?]. reflexivity.
Qed.

Lemma perform_stats (e : event) (w : World) (key : string) :
  stats (perform e w) !! key =
  (fun v => v + Z.of_nat (incr_count key [e])) <$> (stats w !! key).
Proof.
  assert (Hid : forall o : option Z, o = (fun v => v + Z.of_nat 0) <$> o).
  { intros [v|]; simpl; [f_equal; lia | reflexivity]. }
  destruct e as [[l|d|loc pid|k|p|p|sid ev]|sid ev|[sid ev|loc pid] b|q x|q n];
    unfold incr_count; simpl; try apply Hid.
  - destruct (locations w !! loc); apply Hid.
  - unfold incr. destruct (String.eqb_spec k key) as [->|Hne]; simpl.
    + rewrite lookup_alter_eq. reflexivity.
    + rewrite lookup_alter_ne by exact Hne. apply Hid.
  - destruct (ships w !! sid); apply Hid.
  - destruct (locations w !! loc) as [l|]; [|apply Hid].
    destruct (try_enter l pid) as [[? ?] ?]. apply Hid.
Qed.

Lemma replay_stranded (tr : list event) :
  forall w : World,
    stranded_passengers (replay tr w) = stranded_passengers w ++ appended_stranded tr.
Proof.
  induction tr as [|e tr IH]; intros w; [simpl; rewrite app_nil_r; reflexivity|].
  change (replay (e :: tr) w) with (replay tr (perform e w)).
  rewrite IH, perform_stranded, <- app_assoc.
  change (e :: tr) with ([e] ++ tr). rewrite (appended_stranded_app [e] tr).
  reflexivity.
Qed.

Lemma replay_dead (tr : list event) :
  forall w : World,
    dead_passengers (replay tr w) = dead_passengers w ++ appended_dead tr.
Proof.
  induction tr as [|e tr IH]; intros w; [simpl; rewrite app_nil_r; reflexivity|].
  change (replay (e :: tr) w) with (replay tr (perform e w)).
  rewrite IH, perform_dead, <- app_assoc.
  change (e :: tr) with ([e] ++ tr). rewrite (appended_dead_app [e] tr).
  reflexivity.
Qed.

Lemma incr_count_app (key : string) (tr tr' : list event) :
  incr_count key (tr ++ tr') = (incr_count key tr + incr_count key tr')%nat.
Proof. unfold incr_count. rewrite List.filter_app, length_app. reflexivity. Qed.

Lemma replay_stats (key : string) (tr : list event) :
  forall w : World,
    stats (replay tr w) !! key =
    (fun v => v + Z.of_nat (incr_count key tr)) <$> (stats w !! key).
Proof.
  induction tr as [|e tr IH]; intros w.
  - unfold incr_count. simpl.
    destruct (stats w !! key); simpl; [f_equal; lia | reflexivity].
  - change (replay (e :: tr) w) with (replay tr (perform e w)).
    rewrite IH, perform_stats.
    change (e :: tr) with ([e] ++ tr). rewrite (incr_count_app key [e] tr).
    destruct (stats w !! key); simpl; [f_equal; lia | reflexivity].
Qed.

Lemma count_return_lines_app (tr tr' : list event) :
  count_return_lines (tr ++ tr') =
  (count_return_lines tr + count_return_lines tr')%nat.
Proof. unfold count_return_lines. rewrite List.filter_app, length_app. reflexivity. Qed.

Lemma wander_count_return (tr : list event) :
  forallb wander_event tr = true -> count_return_lines tr = 0%nat.
Proof.
  unfold count_return_lines. induction tr as [|e tr IH]; simpl; [reflexivity|].
  intros H. apply andb_prop in H as [He Htr].
  rewrite (wander_no_return e He). exact (IH Htr).
Qed.

Lemma wander_incr (key : string) (tr : list event) :
  mem key ["boarded"; "stranded"; "died_cliff"; "died_shark"; "total_passengers"]
  = true ->
  forallb wander_event tr = true -> incr_count key tr = 0%nat.
Proof.
  intros Hk. unfold incr_count. induction tr as [|e tr IH]; simpl; [reflexivity|].
  intros H. apply andb_prop in H as [He Htr].
  replace (is_incr key e) with false; [exact (IH Htr)|].
  destruct e as [[l|d|loc pid|k|p|p|s ev]| | | |]; simpl in *; try reflexivity.
  destruct (String.eqb_spec k key) as [->|]; [|reflexivity].
  rewrite Hk in He. discriminate.
Qed.

Lemma fmap_add_0 (o : option Z) : (fun v => v + Z.of_nat 0) <$> o = o.
Proof. destruct o; simpl; [f_equal; lia | reflexivity]. Qed.

(** The return phase occurs at most once in a run, and when it occurs
    it has the order and the effects of [return_to_ship]. *)
Lemma return_phase_shape (fuel : nat) (locs : list Location) (self : Passenger)
    (sid : nat) (o : nat -> Answer) (w : World) :
  ship self = Some sid -> is_dead self = false -> on_board self = false ->
  current_location self = None ->
  let tr := trace_of o (run fuel locs self) in
  let r := result_of o (run fuel locs self) in
  (count_return_lines tr <= 1)%nat /\
  (count_return_lines tr = 1%nat ->
   exists (pre delay post : list event) (cur p : Passenger) (departed : bool),
     tr = pre ++ delay ++
          [line "[RETURN]" cur; EDo (Sleep 0.125%float);
           EB (IsSet sid Departed) departed] ++ post /\
     no_return_line pre = true /\
     reaction_delay cur delay /\ (delay = [] \/ was_drunk cur = true) /\
     r = Finished p /\
     if departed then
       on_board p = false /\
       post = [EDo (Incr "stranded"); line "[MISS]" p;
               EDo (AppendStranded p); line "[STRANDED]" p] /\
       stats (replay tr w) !! "stranded" = (fun v => v + 1) <$> (stats w !! "stranded") /\
       stats (replay tr w) !! "boarded" = stats w !! "boarded" /\
       stranded_passengers (replay tr w) = stranded_passengers w ++ [p]
     else
       on_board p = true /\
       post = [EDo (Incr "boarded"); line "[BOARD]" p] /\
       stats (replay tr w) !! "boarded" = (fun v => v + 1) <$> (stats w !! "boarded") /\
       stats (replay tr w) !! "stranded" = stats w !! "stranded" /\
       stranded_passengers (replay tr w) = stranded_passengers w).
Proof.
  intros Hs Hd Hb Hl tr r. subst tr r. unfold trace_of, result_of.
  pose proof (all_runs_eval _ _ o 0%nat (run_runs fuel locs self sid Hs Hd Hb Hl)) as H.
  destruct H as [tr Hw Hc|pre st li key p Hw Hst Hp Hdp Hbp Hlp Hk
                |pre p Hw Hp Hdp Hbp|pre rt c p Hw Hc Hdc Hbc Hr].
  - rewrite (wander_count_return tr Hw). split; [lia | discriminate].
  - rewrite !count_return_lines_app, (wander_count_return pre Hw),
      (wander_count_return st (stay_event_wander st Hst)).
    unfold count_return_lines. simpl. split; [lia | discriminate].
  - rewrite !count_return_lines_app, (wander_count_return pre Hw).
    unfold count_return_lines. simpl. split; [lia | discriminate].
  - assert (Hpre : forallb wander_event (pre ++ [EB (IsSet sid LastCall) true]) = true)
      by (rewrite forallb_app, Hw; reflexivity).
    rewrite (app_assoc pre [_]).
    set (pre' := pre ++ [EB (IsSet sid LastCall) true]) in *.
    pose proof (replay_stats "boarded" (pre' ++ rt ++
      (if on_board p then [] else [EDo (AppendStranded p); line "[STRANDED]" p])) w)
      as Eb.
    pose proof (replay_stats "stranded" (pre' ++ rt ++
      (if on_board p then [] else [EDo (AppendStranded p); line "[STRANDED]" p])) w)
      as Es.
    rewrite replay_stranded.
    rewrite !incr_count_app in Eb, Es.
    rewrite (wander_incr "boarded" pre' eq_refl Hpre) in Eb.
    rewrite (wander_incr "stranded" pre' eq_refl Hpre) in Es.
    rewrite !appended_stranded_app, (proj1 (wander_appends pre' Hpre)).
    rewrite !count_return_lines_app, (wander_count_return pre' Hpre).
    destruct Hr as [delay Hdelay|delay Hdelay].
    + (* boards *)
      assert (Hcount : count_return_lines delay = 0%nat)
        by (destruct Hdelay; reflexivity).
      rewrite !count_return_lines_app, Hcount.
      split; [unfold count_return_lines; simpl; lia|]. intros _.
      exists pre', delay, [EDo (Incr "boarded"); line "[BOARD]" c], c,
        (set_on_board true c), false.
      split; [simpl; rewrite <- !app_assoc; reflexivity|].
      split; [apply wander_no_return_line; exact Hpre|].
      split; [exact Hdelay|].
      split; [destruct Hdelay; auto|].
      split; [reflexivity|]. split; [reflexivity|]. split; [reflexivity|].
      rewrite Eb, Es. simpl.
      rewrite !incr_count_app, !appended_stranded_app.
      destruct Hdelay; simpl; rewrite ?app_nil_r;
        (split; [reflexivity|]); (split; [apply fmap_add_0 | reflexivity]).
    + (* misses *)
      assert (Hcount : count_return_lines delay = 0%nat)
        by (destruct Hdelay; reflexivity).
      rewrite !count_return_lines_app, Hcount, Hbc.
      split; [unfold count_return_lines; simpl; lia|]. intros _.
      exists pre', delay,
        [EDo (Incr "stranded"); line "[MISS]" c;
         EDo (AppendStranded c); line "[STRANDED]" c], c, c, true.
      split; [simpl; rewrite <- !app_assoc; reflexivity|].
      split; [apply wander_no_return_line; exact Hpre|].
      split; [exact Hdelay|].
      split; [destruct Hdelay; auto|].
      split; [reflexivity|]. split; [exact Hbc|]. split; [reflexivity|].
      rewrite Hbc in *. rewrite Eb, Es. simpl.
      rewrite !incr_count_app, !appended_stranded_app.
      destruct Hdelay; simpl; rewrite ?app_nil_r;
        (split; [reflexivity|]); (split; [apply fmap_add_0 | reflexivity]).
Qed.

(** ** Ship *)

Lemma perform_ships (sid : nat) (e : event) (w : World) :
  ships (perform e w) !! sid = ship_after sid [e] <$> (ships w !! sid).
Proof.
  assert (Hid : forall o : option CruiseShip, o = (fun s => s) <$> o)
    by (intros [s|]; reflexivity).
  destruct e as [[l|d|loc pid|k|p|p|sid' ev]|sid' ev|[sid' ev|loc pid] b|q x|q n];
    simpl; try apply Hid.
  - destruct (locations w !! loc); apply Hid.
  - unfold ship_after. simpl.
    destruct (ships w !! sid') as [s'|] eqn:E; simpl.
    + destruct (Nat.eqb_spec sid' sid) as [->|Hne].
      * rewrite list_lookup_insert_eq by (eapply lookup_lt_Some; exact E).
        rewrite E. reflexivity.
      * rewrite list_lookup_insert_ne by exact Hne. apply Hid.
    + destruct (Nat.eqb_spec sid' sid) as [->|Hne]; [|apply Hid].
      rewrite E. reflexivity.
  - destruct (locations w !! loc) as [l|]; [|apply Hid].
    destruct (try_enter l pid) as [[? ?] ?]. apply Hid.
Qed.

Lemma replay_ships (sid : nat) (tr : list event) :
  forall w : World,
    ships (replay tr w) !! sid = ship_after sid tr <$> (ships w !! sid).
Proof.
  induction tr as [|e tr IH]; intros w.
  - simpl. destruct (ships w !! sid); reflexivity.
  - change (replay (e :: tr) w) with (replay tr (perform e w)).
    rewrite IH, perform_ships. destruct (ships w !! sid); reflexivity.
Qed.

Lemma ship_run_trace (sid : nat) (self : CruiseShip) (o : nat -> Answer) :
  trace_of o (ship_run sid self) =
  [ EDo (Print {| tag := "[SHIP] Scheduled"; who := cs_ship_id self |});
    EDo (Sleep (arrival_offset self));
    EDo (Print {| tag := "[SHIP] Arrived"; who := cs_ship_id self |});
    EDo (SetSignal sid Arrived);
    EDo (Sleep (SHIP_STAY_SECONDS - LAST_CALL_SECONDS)%float);
    EDo (Print {| tag := "[SHIP] Last call"; who := cs_ship_id self |});
    EDo (SetSignal sid LastCall);
    EDo (Sleep LAST_CALL_SECONDS);
    EDo (Print {| tag := "[SHIP] Departing"; who := cs_ship_id self |});
    EDo (SetSignal sid Departed) ] /\
  result_of o (ship_run sid self) = Finished tt.
Proof. split; reflexivity. Qed.

(** C6. The run of a ship, started with its three signals unset, sets
    [arrived] at its 4th step, [last_call] at its 7th and [departed] at
    its 10th and last step, each once: after [n] steps the signals read
    [4 <= n], [7 <= n] and [10 <= n]. *)
Theorem ship_signals_in_order (sid : nat) (self : CruiseShip) (w : World)
    (o : nat -> Answer) (n : nat) :
  ships w !! sid = Some self ->
  is_set self Arrived = false -> is_set self LastCall = false ->
  is_set self Departed = false ->
  let tr := trace_of o (ship_run sid self) in
  let w' := replay (take n tr) w in
  result_of o (ship_run sid self) = Finished tt /\
  length tr = 10%nat /\
  signals_set tr = [(sid, Arrived); (sid, LastCall); (sid, Departed)] /\
  signal w' sid Arrived = (4 <=? n)%nat /\
  signal w' sid LastCall = (7 <=? n)%nat /\
  signal w' sid Departed = (10 <=? n)%nat.
Proof.
  intros Hw Ha Hl Hd tr w'. subst tr w'.
  destruct (ship_run_trace sid self o) as [-> ->].
  split; [reflexivity|]. split; [reflexivity|]. split; [reflexivity|].
  unfold signal. rewrite !replay_ships, Hw. unfold ship_after.
  destruct self as [id offset arrived last_call departed obs].
  simpl in Ha, Hl, Hd. subst arrived last_call departed.
  do 10 (destruct n as [|n];
         [cbn; destruct (Nat.eqb_spec sid sid);
          [repeat split; reflexivity | congruence]|]).
  cbn. rewrite take_nil. cbn.
  destruct (Nat.eqb_spec sid sid); [repeat split; reflexivity | congruence].
Qed.

(** ** Hunger games *)

Lemma pop_app {A : Type} (l : list A) (x : A) : pop (l ++ [x]) = Some (x, l).
Proof. unfold pop. rewrite rev_app_distr. simpl. rewrite rev_involutive. reflexivity. Qed.

Lemma pop_last {A : Type} (l : list A) :
  l <> [] -> exists x l', l = l' ++ [x] /\ pop l = Some (x, l').
Proof.
  intros H. destruct (exists_last H) as (l' & x & ->).
  exists x, l'. split; [reflexivity | apply pop_app].
Qed.

(** With fuel for every fighter, the loop plays one match per fighter
    but one and leaves one fighter of the pool, or none if the pool is
    empty. *)
Lemma tournament_rounds (draw : Z -> nat -> Z) (fuel : nat) :
  forall (k : nat) (fighters : list Passenger) (log : list Match),
    (length fighters <= fuel)%nat ->
    length (fst (tournament fuel draw k fighters log)) =
      Nat.min 1 (length fighters) /\
    length (snd (tournament fuel draw k fighters log)) =
      (length log + (length fighters - 1))%nat /\
    (forall p, In p (fst (tournament fuel draw k fighters log)) -> In p fighters) /\
    (forall m, In m (snd (tournament fuel draw k fighters log)) ->
               In m log \/
               In (fighter_a m) fighters /\ In (fighter_b m) fighters /\
               exists r : Z, winner m = fight (fighter_a m) (fighter_b m) r).
Proof.
  induction fuel as [|fuel IH]; intros k fighters log Hlen.
  - destruct fighters; [|simpl in Hlen; lia]. simpl. repeat split; auto; lia.
  - cbn [tournament].
    destruct (Z.ltb_spec 1 (Z.of_nat (length fighters))) as [Hgt|Hle].
    + destruct (pop_last fighters) as (a & l1 & -> & ->);
        [intros ->; simpl in Hgt; lia|].
      rewrite length_app in Hgt, Hlen. simpl in Hgt, Hlen.
      destruct (pop_last l1) as (b & l2 & -> & ->);
        [intros ->; simpl in Hgt; lia|].
      rewrite length_app in Hgt, Hlen. simpl in Hlen.
      set (w := fight a b (draw (strength a + strength b) k)).
      set (m := {| fighter_a := a; fighter_b := b; winner := w |}).
      destruct (IH (S k) (l2 ++ [w]) (log ++ [m])) as (H1 & H2 & H3 & H4);
        [rewrite length_app; simpl; lia|].
      rewrite H1, H2. rewrite !length_app. simpl length.
      split; [lia|]. split; [lia|]. split.
      * intros p Hp. apply H3 in Hp. apply in_app_or in Hp as [Hp|[<-|[]]].
        -- apply in_or_app. left. apply in_or_app. left. exact Hp.
        -- unfold w, fight. destruct (a_wins a _); apply in_or_app.
           ++ right. left. reflexivity.
           ++ left. apply in_or_app. right. left. reflexivity.
      * intros m' Hm. apply H4 in Hm as [Hm|(Ha & Hb & Hr)].
        -- apply in_app_or in Hm as [Hm|[<-|[]]]; [left; exact Hm|]. right.
           simpl. split; [apply in_or_app; right; left; reflexivity|].
           split; [apply in_or_app; left; apply in_or_app; right; left; reflexivity|].
           exists (draw (strength a + strength b) k). reflexivity.
        -- right.
           assert (Hin : forall p, In p (l2 ++ [w]) -> In p ((l2 ++ [b]) ++ [a])).
           { intros p Hp. apply in_app_or in Hp as [Hp|[<-|[]]].
             - apply in_or_app. left. apply in_or_app. left. exact Hp.
             - unfold w, fight. destruct (a_wins a _); apply in_or_app.
               + right. left. reflexivity.
               + left. apply in_or_app. right. left. reflexivity. }
           split; [apply Hin; exact Ha|]. split; [apply Hin; exact Hb|]. exact Hr.
    + simpl. repeat split; auto; try lia.
      destruct fighters as [|p [|q l]]; simpl in *; lia.
Qed.

Lemma randint_wins (a : Z) (n : nat) :
  0 <= a ->
  length (List.filter (fun r => r <=? a) (map (fun i => Z.of_nat i + 1) (seq 0 n)))
  = Nat.min n (Z.to_nat a).
Proof.
  intros Ha. induction n as [|n IH]; [reflexivity|].
  rewrite seq_S, map_app, List.filter_app, length_app, IH.
  cbn [Nat.add map List.filter].
  destruct (Z.leb_spec (Z.of_nat n + 1) a); cbn [length]; lia.
Qed.

(** The match at position [i] of the log is decided by the [i]-th draw,
    taken between 1 and the sum of the two strengths. *)
Lemma tournament_draws (draw : Z -> nat -> Z) (fuel : nat) :
  forall (k : nat) (fighters : list Passenger) (log : list Match) (i : nat) (m : Match),
    snd (tournament fuel draw k fighters log) !! i = Some m ->
    log !! i = Some m \/
    ((length log <= i)%nat /\
     winner m = fight (fighter_a m) (fighter_b m)
                  (draw (strength (fighter_a m) + strength (fighter_b m))
                     (k + (i - length log))%nat)).
Proof.
  induction fuel as [|fuel IH]; intros k fighters log i m H.
  - left. exact H.
  - cbn [tournament] in H.
    destruct (1 <? Z.of_nat (length fighters)); [|left; exact H].
    destruct (pop fighters) as [[a f1]|]; [|left; exact H].
    destruct (pop f1) as [[b f2]|]; [|left; exact H].
    cbv zeta in H.
    apply IH in H as [H|[Hle H]].
    + destruct (Nat.lt_ge_cases i (length log)) as [Hlt|Hge].
      * left. rewrite lookup_app_l in H by exact Hlt. exact H.
      * right. split; [exact Hge|].
        rewrite lookup_app_r in H by exact Hge.
        destruct (i - length log)%nat as [|d] eqn:E; [|destruct d; discriminate].
        simpl in H. injection H as <-. simpl. rewrite Nat.add_0_r. reflexivity.
    + rewrite length_app in Hle. simpl in Hle. right. split; [lia|].
      rewrite H. do 2 f_equal. rewrite length_app. simpl. lia.
Qed.

(** C7. For a pool of [N] stranded passengers, shuffled by any
    permutation: no match and no survivor when [N = 0]; otherwise
    [N - 1] matches and one survivor, a member of the pool.  The match
    at position [k] of the log is fought by two members [a] and [b] of
    the pool and is decided by the [k]-th draw, which the code takes
    from [randint(1, a.strength + b.strength)]: [a] wins if the draw is
    at most [a.strength], and [b] otherwise.  Of the
    [a.strength + b.strength] values this draw can return, exactly
    [a.strength] make [a] the winner. *)
Theorem hunger_games_reduction (shuffle : list Passenger -> list Passenger)
    (draw : Z -> nat -> Z) (stranded : list Passenger) :
  Permutation stranded (shuffle stranded) ->
  Forall (fun p => 0 < strength p) stranded ->
  let log := fst (HungerGames_run shuffle draw stranded) in
  let survivor := snd (HungerGames_run shuffle draw stranded) in
  let remaining :=
    fst (tournament (length (shuffle stranded)) draw 0 (shuffle stranded) []) in
  (stranded = [] -> log = [] /\ survivor = None /\ remaining = []) /\
  (stranded <> [] ->
   length log = (length stranded - 1)%nat /\
   exists p, survivor = Some p /\ remaining = [p] /\ In p stranded) /\
  (forall (k : nat) (m : Match),
      log !! k = Some m ->
      let a := fighter_a m in
      let b := fighter_b m in
      let total := strength a + strength b in
      In a stranded /\ In b stranded /\
      winner m = fight a b (draw total k) /\
      (forall r, r <= strength a -> fight a b r = a) /\
      (forall r, strength a < r -> fight a b r = b) /\
      Z.of_nat (length (randint_range total)) = total /\
      Forall (fun r => 1 <= r <= total) (randint_range total) /\
      Z.of_nat (length (List.filter (fun r => r <=? strength a) (randint_range total))) =
        strength a).
Proof.
  intros Hperm Hpos log survivor remaining.
  assert (Hrun : HungerGames_run shuffle draw stranded =
                 (snd (tournament (length (shuffle stranded)) draw 0
                         (shuffle stranded) []),
                  head remaining)).
  { unfold HungerGames_run, remaining.
    destruct (tournament _ draw 0 (shuffle stranded) []); reflexivity. }
  subst log survivor. rewrite Hrun. simpl fst. simpl snd.
  destruct (tournament_rounds draw (length (shuffle stranded)) 0 (shuffle stranded) [])
    as (H1 & H2 & H3 & H4); [lia|].
  fold remaining in H1, H3.
  pose proof (Permutation_length Hperm) as Hlen.
  assert (Hin : forall p, In p (shuffle stranded) -> In p stranded)
    by (intros p Hp; eapply Permutation_in; [symmetry; exact Hperm | exact Hp]).
  split; [|split].
  - intros ->. simpl in Hlen.
    assert (E1 : length remaining = 0%nat) by lia.
    assert (E2 : length (snd (tournament (length (shuffle [])) draw 0
                                (shuffle []) [])) = 0%nat)
      by (rewrite H2; simpl; lia).
    apply length_zero_iff_nil in E1, E2. rewrite E1, E2. auto.
  - intros Hne. rewrite H2, <- Hlen. split; [reflexivity|].
    assert (length stranded <> 0)%nat by (destruct stranded; [congruence|discriminate]).
    destruct remaining as [|p [|q l]] eqn:E; cbn [length] in H1; try lia.
    exists p. repeat split. apply Hin, H3. left. reflexivity.
  - intros k m Hm a b total.
    assert (Hmem : In m (snd (tournament (length (shuffle stranded)) draw 0
                                (shuffle stranded) [])))
      by (apply list_elem_of_In; eapply list_elem_of_lookup_2; exact Hm).
    destruct (H4 m Hmem) as [[]|(Hma & Hmb & _)].
    apply Hin in Hma, Hmb.
    rewrite List.Forall_forall in Hpos.
    pose proof (Hpos _ Hma) as Ha. pose proof (Hpos _ Hmb) as Hb.
    fold a in Ha. fold b in Hb.
    split; [exact Hma|]. split; [exact Hmb|]. split; [|split; [|split; [|split; [|split]]]].
    + destruct (tournament_draws draw _ 0 (shuffle stranded) [] k m Hm)
        as [Habs|[_ Hw]]; [discriminate|].
      rewrite Nat.sub_0_r in Hw. exact Hw.
    + intros r Hr. unfold fight, a_wins.
      destruct (Z.leb_spec r (strength a)); [reflexivity | lia].
    + intros r Hr. unfold fight, a_wins.
      destruct (Z.leb_spec r (strength a)); [lia | reflexivity].
    + unfold randint_range. rewrite length_map, length_seq. lia.
    + unfold randint_range. apply List.Forall_forall. intros r Hr.
      apply in_map_iff in Hr as (i & <- & Hi). apply in_seq in Hi. lia.
    + unfold randint_range. rewrite randint_wins by lia. lia.
Qed.

(** ** The day as a whole *)

Lemma all_runs_inhabited {A : Type} (t : prog A) (Q : list event -> result A -> Prop) :
  all_runs t Q -> exists tr r, Q tr r.
Proof.
  intros H. pose proof (all_runs_eval t Q (fun _ => idle_answer) 0%nat H). eauto.
Qed.

Lemma ship_run_registers_nobody (sid : nat) (self : CruiseShip) :
  registers_nobody (ship_run sid self).
Proof. unfold registers_nobody. simpl. auto. Qed.

Lemma registers_nobody_step {A : Type} (w : World) (a : Answer) (t t' : prog A)
    (e : event) :
  registers_nobody t -> step w a t = Some (e, t') ->
  appended_stranded [e] = [] /\ appended_dead [e] = [] /\ registers_nobody t'.
Proof.
  unfold registers_nobody. intros H Hstep.
  pose proof (all_runs_follows t [e] t' (step_follows w a t e t' Hstep) _ H) as H'.
  assert (Hsplit : forall tr,
             appended_stranded ([e] ++ tr) = [] /\ appended_dead ([e] ++ tr) = [] ->
             (appended_stranded [e] = [] /\ appended_dead [e] = []) /\
             (appended_stranded tr = [] /\ appended_dead tr = [])).
  { intros tr. rewrite appended_stranded_app, appended_dead_app.
    intros [Hs Hd]. apply app_eq_nil in Hs as [? ?]. apply app_eq_nil in Hd as [? ?].
    auto. }
  destruct (all_runs_inhabited _ _ H') as (tr & r & Htr).
  destruct (Hsplit tr Htr) as [[Hs Hd] _].
  split; [exact Hs|]. split; [exact Hd|].
  eapply all_runs_mono; [|exact H']. intros tr' r' Htr'. apply (Hsplit tr' Htr').
Qed.

Lemma concat_insert_snoc {A B : Type} (f : A -> list B) (l : list A) (i : nat)
    (x y : A) (extra : list B) :
  l !! i = Some x -> f y = f x ++ extra ->
  Permutation (concat (map f (<[i := y]> l))) (concat (map f l) ++ extra).
Proof.
  intros Hi Hf.
  rewrite insert_take_drop by (eapply lookup_lt_Some; exact Hi).
  rewrite <- (take_drop_middle l i x Hi) at 3.
  rewrite !map_app, !concat_app. simpl. rewrite Hf, <- !app_assoc.
  apply Permutation_app_head. apply Permutation_app_head.
  apply Permutation_app_comm.
Qed.

Lemma day_invariant_start (fuel : nat) (w0 : World) (roster : list Passenger) :
  stranded_passengers w0 = [] -> dead_passengers w0 = [] ->
  day_invariant fuel (locations w0) roster (start_day fuel w0 roster).
Proof.
  intros Hs Hd. exists (map (fun p => (p, [])) roster). simpl.
  split; [|split; [|split; [|split]]].
  - rewrite map_map. simpl. apply map_id.
  - induction roster as [|p roster IH]; simpl; constructor; [constructor | exact IH].
  - rewrite Hs, map_map. simpl.
    induction roster as [|p roster IH]; simpl; [constructor | exact IH].
  - rewrite Hd, map_map. simpl.
    induction roster as [|p roster IH]; simpl; [constructor | exact IH].
  - apply Forall_lookup. intros j th Hj.
    apply list_lookup_imap_Some in Hj as (s & _ & ->).
    apply ship_run_registers_nobody.
Qed.

Lemma day_invariant_step (fuel : nat) (locs : list Location)
    (roster : list Passenger) (s : System) (t : Turn) :
  day_invariant fuel locs roster s -> day_invariant fuel locs roster (sys_step s t).
Proof.
  intros (hist & Hroster & Hthreads & Hstr & Hdead & Hships).
  destruct t as [i a|j a]; simpl.
  - destruct (passenger_threads s !! i) as [th|] eqn:Hi;
      [|exists hist; auto].
    destruct (step (world s) a th) as [[e th']|] eqn:Hstep;
      [|exists hist; auto].
    destruct (Forall2_lookup_r _ _ _ _ _ Hthreads Hi) as ([p tr] & Hh & Hfol).
    simpl in Hfol.
    exists (<[i := (p, tr ++ [e])]> hist). simpl.
    split; [|split; [|split; [|split]]].
    + rewrite list_fmap_insert. simpl. rewrite <- Hroster.
      apply list_insert_id. rewrite list_lookup_fmap, Hh. reflexivity.
    + apply Forall2_insert; [exact Hthreads|]. simpl.
      eapply follows_app; [exact Hfol|]. eapply step_follows. exact Hstep.
    + rewrite perform_stranded, Hstr. symmetry.
      apply (concat_insert_snoc (fun h => appended_stranded (snd h)) hist i (p, tr));
        [exact Hh|]. simpl. apply appended_stranded_app.
    + rewrite perform_dead, Hdead. symmetry.
      apply (concat_insert_snoc (fun h => appended_dead (snd h)) hist i (p, tr));
        [exact Hh|]. simpl. apply appended_dead_app.
    + exact Hships.
  - destruct (ship_threads s !! j) as [th|] eqn:Hj;
      [|exists hist; auto].
    destruct (step (world s) a th) as [[e th']|] eqn:Hstep;
      [|exists hist; auto].
    pose proof (Forall_lookup_1 _ _ _ _ Hships Hj) as Hth.
    destruct (registers_nobody_step _ _ _ _ _ Hth Hstep) as (Es & Ed & Hth').
    exists hist. simpl.
    split; [exact Hroster|]. split; [exact Hthreads|].
    split; [rewrite perform_stranded, Es, app_nil_r; exact Hstr|].
    split; [rewrite perform_dead, Ed, app_nil_r; exact Hdead|].
    apply Forall_insert; assumption.
Qed.

Lemma day_invariant_run (fuel : nat) (locs : list Location)
    (roster : list Passenger) (sched : list Turn) :
  forall s : System,
    day_invariant fuel locs roster s ->
    day_invariant fuel locs roster (sys_run s sched).
Proof.
  induction sched as [|t sched IH]; intros s H; [exact H|].
  apply IH, day_invariant_step, H.
Qed.

Lemma attached_spec (p : Passenger) :
  attached p = true ->
  exists sid : nat,
    ship p = Some sid /\ is_dead p = false /\ on_board p = false /\
    current_location p = None.
Proof.
  unfold attached. destruct (ship p) as [sid|]; [|discriminate].
  destruct (current_location p); [discriminate|].
  destruct (is_dead p), (on_board p); try discriminate. eauto.
Qed.

(** A passenger's thread returns, with fuel beyond the point from which
    every signal reads as set. *)
Lemma run_finishes (fuel : nat) (locs : list Location) (self : Passenger)
    (o : nat -> Answer) (K : nat) :
  attached self = true ->
  (forall i, (K <= i)%nat -> a_bool (o i) = true) -> (K < fuel)%nat ->
  exists p : Passenger, result_of o (run fuel locs self) = Finished p.
Proof.
  intros Hatt Ho Hfuel.
  destruct (attached_spec self Hatt) as (sid & Hs & Hd & Hb & Hl).
  pose proof (all_runs_eval _ _ o 0%nat (run_runs fuel locs self sid Hs Hd Hb Hl)) as H.
  pose proof (eval_falses o K (run fuel locs self) Ho 0%nat) as Hf.
  unfold result_of.
  destruct H as [tr Hw Hc| | |]; eauto. lia.
Qed.

Lemma finals_returned {A : Type} (threads : list (prog A)) :
  forall finals : list A,
    map final threads = map Some finals ->
    Forall2 (fun th f => th = Ret f) threads finals.
Proof.
  induction threads as [|th threads IH]; intros [|f finals] H;
    try discriminate; constructor.
  - simpl in H. injection H as H _. destruct th; try discriminate.
    simpl in H. congruence.
  - apply IH. simpl in H. injection H as _ H. exact H.
Qed.

Lemma finished_partition (fuel : nat) (locs : list Location)
    (hist : list (Passenger * list event)) :
  forall finals : list Passenger,
    forallb attached (map fst hist) = true ->
    Forall2 (fun h f => follows (run fuel locs (fst h)) (snd h) (Ret f)) hist finals ->
    Forall2 same_person (map fst hist) finals /\
    Forall (fun f => on_board f && is_dead f = false) finals /\
    concat (map (fun h => appended_stranded (snd h)) hist) =
      List.filter is_stranded finals /\
    concat (map (fun h => appended_dead (snd h)) hist) = List.filter is_dead finals.
Proof.
  induction hist as [|[p tr] hist IH]; intros finals Hatt H.
  - inversion H; subst. repeat split; constructor.
  - inversion H as [|h f hs fs Hfol Hrest]; subst. simpl in Hatt, Hfol.
    apply andb_prop in Hatt as [Hp Hatt].
    destruct (IH fs Hatt Hrest) as (I1 & I2 & I3 & I4).
    destruct (attached_spec p Hp) as (sid & Hs & Hd & Hb & Hl).
    pose proof (all_runs_follows _ _ _ Hfol _ (run_runs fuel locs p sid Hs Hd Hb Hl))
      as Hout.
    simpl in Hout. rewrite app_nil_r in Hout.
    destruct (run_outcome_finished fuel p sid tr f Hout) as (O1 & O2 & O3 & O4).
    simpl. rewrite O3, O4, I3, I4. unfold is_stranded.
    split; [constructor; assumption|]. split; [constructor; assumption|].
    split.
    + destruct (negb (on_board f) && negb (is_dead f)); reflexivity.
    + destruct (is_dead f); reflexivity.
Qed.

Lemma outcome_partition (l : list Passenger) :
  Forall (fun f => on_board f && is_dead f = false) l ->
  Permutation
    (List.filter is_boarded l ++ List.filter is_stranded l ++ List.filter is_dead l) l.
Proof.
  induction 1 as [|f l Hf _ IH]; [constructor|].
  simpl. unfold is_boarded, is_stranded in *.
  destruct (on_board f), (is_dead f); simpl in *; try discriminate.
  - constructor. exact IH.
  - etransitivity; [|apply perm_skip; exact IH].
    rewrite app_assoc. symmetry. rewrite app_assoc. apply Permutation_middle.
  - etransitivity; [|apply perm_skip; exact IH].
    symmetry. apply Permutation_middle.
Qed.

Lemma filter_permutation {A : Type} (f : A -> bool) (l l' : list A) :
  Permutation l l' -> Permutation (List.filter f l) (List.filter f l').
Proof.
  induction 1 as [|x l l' _ IH|x y l|l l' l'' _ IH1 _ IH2]; simpl.
  - constructor.
  - destruct (f x); [constructor|]; exact IH.
  - destruct (f x), (f y); try reflexivity. apply perm_swap.
  - etransitivity; eassumption.
Qed.


(** ** Death during a stay *)

Lemma quiet_calls_on (loc : nat) (tr : list event) :
  forallb stay_event tr = true -> calls_on loc tr = [].
Proof.
  induction tr as [|e tr IH]; [reflexivity|]. simpl. intros H.
  apply andb_prop in H as [He Htr]. unfold calls_on in *. simpl.
  rewrite (IH Htr). destruct e as [[]| |[]| |]; simpl in *; try discriminate; reflexivity.
Qed.

(** In every run in which the passenger dies, its last call on the
    location it died in is the successful [try_enter]: no [leave]
    follows. *)
Lemma death_skips_leave (fuel : nat) (locs : list Location) (self : Passenger)
    (sid : nat) (o : nat -> Answer) (p : Passenger) :
  ship self = Some sid -> is_dead self = false -> on_board self = false ->
  current_location self = None ->
  result_of o (run fuel locs self) = Finished p -> is_dead p = true ->
  exists (li : nat) (pre post : list event),
    current_location p = Some li /\
    trace_of o (run fuel locs self) =
      pre ++ [EB (TryEnter li (passenger_id p)) true] ++ post /\
    calls_on li post = [].
Proof.
  intros Hs Hd Hb Hl Hres Hdead. unfold result_of, trace_of in *.
  pose proof (all_runs_eval _ _ o 0%nat (run_runs fuel locs self sid Hs Hd Hb Hl)) as H.
  rewrite Hres in H.
  inversion H as [|pre st li key q Hw Hst Hp Hdq Hbq Hlq Hk Htr
                 |pre q Hw Hp Hdq Hbq|pre rt cur q Hw Hc Hdc Hbc Hr]; subst.
  - exists li, pre, (st ++ [EDo (AppendDead p); EDo (Incr key); line "[DEATH]" p]).
    split; [exact Hlq|]. split; [reflexivity|].
    unfold calls_on. rewrite omap_app. fold (calls_on li st).
    rewrite (quiet_calls_on li st Hst). reflexivity.
  - congruence.
  - destruct (return_phase_appends cur sid rt p Hr) as (_ & _ & _ & E). congruence.
Qed.

(** C2. On the small day passenger 1000 enters the hiking excursion and
    dies there; passenger 1001 visits the beach and boards.  When both
    threads have returned the beach is empty again, but the hiking
    excursion still counts one visitor: [run] returns on [is_dead]
    before it reaches [leave]. *)
Theorem death_keeps_the_slot :
  let s := sys_run small_day day_with_boarding in
  map final (ship_threads s) = [Some tt] /\
  map (fun p => (passenger_id p, is_dead p, current_location p)) (finals_of s) =
    [(1000, true, Some 5%nat); (1001, false, None)] /\
  name <$> (locations (world s) !! 5%nat) = Some "hiking_excursion" /\
  occupancy 5 small_day = Some 0 /\ occupancy 5 s = Some 1 /\
  occupancy 7 small_day = Some 0 /\ occupancy 7 s = Some 0 /\
  map passenger_id (dead_passengers (world s)) = [1000] /\
  counter "died_cliff" s = Some 1.
Proof. vm_compute. repeat split; reflexivity. Qed.

(** ** Instances *)

Lemma occupancy_bounds_instance :
  map (fun n => count (calls (new_Location "irish_bar" 2 1.5%float 1.3%float)
                         (take n [CallTryEnter 1; CallTryEnter 2; CallTryEnter 3;
                                  CallLeave 1; CallTryEnter 3; CallLeave 2])))
      (seq 0 7) = [0; 1; 2; 2; 1; 2; 1].
Proof. reflexivity. Qed.

Lemma return_travel_constant_witness :
  return_travel (trace_of boarding_oracle (return_to_ship first_passenger))
  = [0.125%float].
Proof.
  apply (return_travel_constant 3 Island_locations first_passenger first_passenger 0
           boarding_oracle); reflexivity.
Defined.

Lemma ship_signals_in_order_witness :
  signal (replay (take 5 (trace_of boarding_oracle (ship_run 0 small_ship)))
            small_world) 0 LastCall = (7 <=? 5)%nat.
Proof.
  apply (ship_signals_in_order 0 small_ship small_world boarding_oracle 5);
    reflexivity.
Defined.

Lemma hunger_games_reduction_witness :
  match fst (HungerGames_run (fun l => l) (fun total _ => total) small_roster) !! 0%nat with
  | Some m =>
      passenger_id (fighter_a m) = 1001 /\ passenger_id (fighter_b m) = 1000 /\
      winner m = fighter_b m /\
      Z.of_nat (length (List.filter (fun r => r <=? strength (fighter_a m))
                          (randint_range (strength (fighter_a m) +
                                          strength (fighter_b m))))) =
        strength (fighter_a m)
  | None => False
  end.
Proof.
  pose proof (hunger_games_reduction (fun l => l) (fun total _ => total) small_roster
                (Permutation_refl _) ltac:(repeat constructor)) as (_ & _ & Hm).
  destruct (fst (HungerGames_run (fun l => l) (fun total _ => total) small_roster)
              !! 0%nat) as [m|] eqn:E.
  - destruct (Hm 0%nat m E) as (_ & _ & Hw & _ & _ & _ & _ & Hc).
    vm_compute in E. injection E as <-.
    split; [reflexivity|]. split; [reflexivity|]. split; [exact Hw | exact Hc].
  - vm_compute in E. discriminate E.
Defined.

Example boarding_run :
  let tr := trace_of boarding_oracle (run 3 Island_locations first_passenger) in
  count_return_lines tr = 1%nat /\ length tr = 20%nat /\
  incr_count "boarded" tr = 1%nat /\ appended_stranded tr = [] /\
  return_travel tr = [0.125%float].
Proof. vm_compute. repeat split; reflexivity. Qed.

(** The stranded counter can lag the registry: a passenger that finds
    the ship departed at the top of the loop is registered as stranded
    without [stats["stranded"]] being touched. *)
Example overstay_is_not_counted :
  let s := sys_run small_day day_with_overstay in
  map passenger_id (stranded_passengers (world s)) = [1001] /\
  counter "stranded" s = Some 0 /\ counter "boarded" s = Some 0 /\
  map final (ship_threads s) = [Some tt] /\
  length (finals_of s) = 2%nat.
Proof. vm_compute. repeat split; reflexivity. Qed.

Example stranding_is_counted :
  let s := sys_run small_day day_with_stranding in
  map passenger_id (stranded_passengers (world s)) = [1001] /\
  counter "stranded" s = Some 1 /\ counter "boarded" s = Some 0.
Proof. vm_compute. repeat split; reflexivity. Qed.

(** * Further properties *)

(** ** Location: how the two calls compose *)

(** X1. A [leave] after a successful [try_enter] gives the location back as
    it was. *)
Theorem leave_undoes_try_enter (self : Location) (pid pid' : Z) :
  count self < max_capacity self ->
  fst (fst (try_enter self pid)) = true /\
  fst (leave (snd (fst (try_enter self pid))) pid') = self.
Proof.
  intros H. unfold try_enter. apply Z.ltb_lt in H. rewrite H. simpl.
  split; [reflexivity|]. destruct self as [nm cap bd dist c].
  unfold set_count. simpl. f_equal. lia.
Qed.

Lemma leave_undoes_try_enter_witness :
  fst (leave (snd (fst (try_enter (new_Location "irish_bar" 50 1.5%float 1.3%float) 7)))
         7) = new_Location "irish_bar" 50 1.5%float 1.3%float.
Proof.
  apply (leave_undoes_try_enter (new_Location "irish_bar" 50 1.5%float 1.3%float) 7 7).
  reflexivity.
Defined.

Lemma call_count_le (self : Location) (c : LocCall) :
  count self <= max_capacity self ->
  count (call self c) <= max_capacity (call self c).
Proof.
  intros H. destruct c as [pid|pid]; simpl.
  - rewrite try_enter_count, try_enter_capacity. unfold try_enter.
    destruct (Z.ltb_spec (count self) (max_capacity self)); simpl; lia.
  - lia.
Qed.

(** X2. Whatever the callers do, protocol or not, the occupancy never
    exceeds the capacity. *)
Theorem occupancy_never_exceeds (self : Location) (cs : list LocCall) :
  count self <= max_capacity self ->
  count (calls self cs) <= max_capacity self /\
  max_capacity (calls self cs) = max_capacity self /\
  name (calls self cs) = name self.
Proof.
  revert self. induction cs as [|c cs IH]; intros self H; [auto with zarith|].
  change (calls self (c :: cs)) with (calls (call self c) cs).
  destruct (IH (call self c) (call_count_le self c H)) as (I1 & I2 & I3).
  assert (E : max_capacity (call self c) = max_capacity self /\
              name (call self c) = name self).
  { destruct c; simpl; [|auto]. unfold try_enter.
    destruct (count self <? max_capacity self); auto. }
  destruct E as [E1 E2]. rewrite I2, I3, E1, E2 in *. auto.
Qed.

Lemma occupancy_never_exceeds_witness :
  count (calls (new_Location "irish_bar" 2 1.5%float 1.3%float)
           [CallLeave 1; CallTryEnter 1; CallTryEnter 2; CallTryEnter 3;
            CallTryEnter 4]) <= 2.
Proof.
  apply (occupancy_never_exceeds (new_Location "irish_bar" 2 1.5%float 1.3%float)).
  simpl. lia.
Defined.

Lemma try_enter_run (pids : list Z) :
  forall self : Location,
    count self <= max_capacity self ->
    count (calls self (map CallTryEnter pids)) =
    Z.min (count self + Z.of_nat (length pids)) (max_capacity self).
Proof.
  induction pids as [|pid pids IH]; intros self H.
  - simpl. lia.
  - change (calls self (map CallTryEnter (pid :: pids)))
      with (calls (call self (CallTryEnter pid)) (map CallTryEnter pids)).
    rewrite IH by (apply call_count_le; exact H).
    simpl call. rewrite try_enter_count, try_enter_capacity. unfold try_enter.
    destruct (Z.ltb_spec (count self) (max_capacity self)); simpl length; simpl fst; lia.
Qed.

(** X3. A new location admits visitors until it is full: after [n] calls of
    [try_enter] and no [leave] it holds [min n capacity] of them. *)
Theorem try_enter_fills (nm : string) (cap : Z) (h d : float) (pids : list Z) :
  0 <= cap ->
  count (calls (new_Location nm cap h d) (map CallTryEnter pids)) =
  Z.min (Z.of_nat (length pids)) cap.
Proof.
  intros H. rewrite try_enter_run by (simpl; lia). reflexivity.
Qed.

Lemma try_enter_fills_witness :
  count (calls (new_Location "hiking_excursion" 3 2%float 2%float)
           (map CallTryEnter [1; 2; 3; 4; 5])) = Z.min 5 3.
Proof.
  apply (try_enter_fills "hiking_excursion" 3 2%float 2%float [1; 2; 3; 4; 5]). lia.
Defined.

(** ** Passenger: the methods one by one *)

Lemma all_runs_at {A : Type} (t : prog A) (Q : list event -> result A -> Prop)
    (o : nat -> Answer) (pos : nat) :
  all_runs t Q -> Q (fst (outcome_at o pos t)) (snd (outcome_at o pos t)).
Proof. apply all_runs_eval. Qed.

(** X4. [choose_transport] never raises: it draws one of the three keys and
    gives the passenger the strategy stored under it, touching nothing
    else. *)
Theorem choose_transport_total (self : Passenger) (o : nat -> Answer) (pos : nat) :
  exists (n : nat) (key : string) (s : MovementStrategy),
    outcome_at o pos (choose_transport self) =
      ([EN (Choice 3) n], Finished (key, set_transport_strategy s self)) /\
    (n < 3)%nat /\
    nth_error ["walk"; "bus"; "taxi"] n = Some key /\
    strategy key = Some s.
Proof.
  unfold outcome_at, choose_transport. simpl.
  set (n := pick (Choice 3) (a_nat (o pos))).
  assert (Hn : (n < 3)%nat) by (apply Nat.mod_upper_bound; lia).
  exists n. destruct n as [|[|[|n]]]; try lia; simpl;
    do 2 eexists; repeat split; lia.
Qed.

(** X5. The weight of an attraction is 1, 2 or 3: 3 for a bar if the
    passenger is young and 2 if not, 3 for a beach that is no bar, 1 for
    the rest; so [random.choices] always has a positive total weight. *)
Theorem activity_weight_cases (self : Passenger) (loc : Location) :
  1 <= activity_weight self loc <= 3 /\
  (contains "bar" (name loc) = true ->
   activity_weight self loc = if String.eqb (age_group self) "young" then 3 else 2) /\
  (contains "bar" (name loc) = false -> contains "beach" (name loc) = true ->
   activity_weight self loc = 3) /\
  (contains "bar" (name loc) = false -> contains "beach" (name loc) = false ->
   activity_weight self loc = 1) /\
  map (activity_weight self) Island_locations =
    if String.eqb (age_group self) "young"
    then [1; 1; 3; 3; 1; 1; 1; 3] else [1; 1; 2; 2; 1; 1; 1; 3].
Proof.
  unfold activity_weight. split; [|split; [|split; [|split]]].
  - destruct (contains "bar" (name loc)), (String.eqb (age_group self) "young"),
      (contains "beach" (name loc)); lia.
  - intros ->. reflexivity.
  - intros -> ->. reflexivity.
  - intros -> ->. reflexivity.
  - simpl. destruct (String.eqb (age_group self) "young"); reflexivity.
Qed.

Lemma activity_weight_cases_witness :
  activity_weight first_passenger (location_at Island_locations 2) = 3 /\
  activity_weight first_passenger (location_at Island_locations 0) = 1.
Proof.
  split.
  - exact (proj1 (proj2 (activity_weight_cases first_passenger
                           (location_at Island_locations 2))) eq_refl).
  - exact (proj1 (proj2 (proj2 (proj2 (activity_weight_cases first_passenger
                                         (location_at Island_locations 0)))))
             eq_refl eq_refl).
Defined.

(** X6. [choose_activity] on a table that is not empty returns a position
    of the table. *)
Theorem choose_activity_in_range (self : Passenger) (locs : list Location)
    (o : nat -> Answer) (pos : nat) :
  locs <> [] ->
  exists li : nat,
    outcome_at o pos (choose_activity self locs) =
      ([EN (Choices (map (activity_weight self) locs)) li], Finished li) /\
    (li < length locs)%nat /\
    exists loc, locs !! li = Some loc /\ location_at locs li = loc.
Proof.
  intros Hne. unfold outcome_at, choose_activity. simpl.
  set (li := pick _ _).
  assert (Hli : (li < length locs)%nat).
  { unfold li, pick. rewrite length_map. apply Nat.mod_upper_bound.
    destruct locs; [congruence | simpl; lia]. }
  exists li. split; [reflexivity|]. split; [exact Hli|].
  destruct (lookup_lt_is_Some_2 locs li Hli) as [loc Hloc].
  exists loc. split; [exact Hloc|]. unfold location_at.
  apply nth_lookup_Some with (d := no_location) in Hloc.
  rewrite <- Hloc. reflexivity.
Qed.

Lemma choose_activity_in_range_witness :
  exists li : nat,
    outcome_at boarding_oracle 4 (choose_activity first_passenger Island_locations) =
      ([EN (Choices (map (activity_weight first_passenger) Island_locations)) li],
       Finished li) /\
    (li < length Island_locations)%nat /\
    exists loc, Island_locations !! li = Some loc /\
                location_at Island_locations li = loc.
Proof.
  apply (choose_activity_in_range first_passenger Island_locations boarding_oracle 4).
  discriminate.
Defined.

Lemma choose_transport_keyed (self : Passenger) :
  all_runs (choose_transport self) (fun tr r =>
    exists n key s,
      strategy key = Some s /\
      tr = [EN (Choice 3) n] /\
      r = Finished (key, set_transport_strategy s self)).
Proof.
  unfold choose_transport. simpl. intros n.
  destruct (pick_transport n) as (key & s & Hk & Hs).
  simpl in Hk. rewrite Hk, Hs. simpl. eauto 10.
Qed.

(** X7. [go_to_location]: a dead passenger does not move.  A living one
    draws a position [n] among walk, bus and taxi, prints the [MOVE]
    line, sleeps the travel time of the strategy stored under the key at
    position [n] over the location's distance, and then calls
    [try_enter] once; it is at the location afterwards exactly if the
    call was granted, and it never calls [leave]. *)
Theorem go_to_location_steps (self : Passenger) (li : nat) (loc : Location)
    (o : nat -> Answer) (pos : nat) :
  (is_dead self = true ->
   outcome_at o pos (go_to_location self li loc) = ([], Finished self)) /\
  (is_dead self = false ->
   let n := pick (Choice 3) (a_nat (o pos)) in
   let granted := a_bool (o (pos + 3)%nat) in
   exists (key : string) (s : MovementStrategy),
     nth_error ["walk"; "bus"; "taxi"] n = Some key /\
     strategy key = Some s /\
     outcome_at o pos (go_to_location self li loc) =
       ([EN (Choice 3) n; line "[MOVE]" self;
         EDo (Sleep (travel_time s (distance loc)));
         EB (TryEnter li (passenger_id self)) granted],
        Finished (if granted
                  then set_current_location (Some li) (set_transport_strategy s self)
                  else set_transport_strategy s self))).
Proof.
  split; intros Hd.
  - unfold outcome_at, go_to_location. rewrite Hd. reflexivity.
  - intros n granted. subst granted.
    replace (pos + 3)%nat with (S (S (S pos))) by lia.
    unfold outcome_at, go_to_location, choose_transport. rewrite Hd.
    change (length (map fst TRANSPORT_STRATEGIES)) with 3%nat.
    cbn [bind ask_n eval]. fold n.
    assert (Hn : (n < 3)%nat) by (apply Nat.mod_upper_bound; lia).
    destruct n as [|[|[|n]]]; try lia;
      [exists "walk", WalkStrategy | exists "bus", BusStrategy
      | exists "taxi", TaxiStrategy];
      (split; [reflexivity|]); (split; [reflexivity|]);
      cbn; destruct (a_bool (o (S (S (S pos))))); reflexivity.
Qed.

Lemma go_to_location_steps_witness :
  outcome_at boarding_oracle 5 (go_to_location first_passenger 7
                                  (location_at Island_locations 7)) =
    ([EN (Choice 3) 2; line "[MOVE]" first_passenger;
      EDo (Sleep 0.25%float);
      EB (TryEnter 7 (passenger_id first_passenger)) true],
     Finished (set_current_location (Some 7%nat)
                 (set_transport_strategy TaxiStrategy first_passenger))).
Proof.
  destruct (proj2 (go_to_location_steps first_passenger 7
                     (location_at Island_locations 7) boarding_oracle 5) eq_refl)
    as (key & s & Hk & Hs & H).
  injection Hk as <-. injection Hs as <-. exact H.
Defined.

Lemma stay_event_loc_free (tr : list event) :
  forallb stay_event tr = true -> forallb loc_free tr = true.
Proof.
  induction tr as [|e tr IH]; simpl; [reflexivity|].
  intros H. apply andb_prop in H as [He Htr]. rewrite (IH Htr), andb_true_r.
  destruct e as [[]| |[]| |]; simpl in *; try reflexivity; discriminate.
Qed.

Ltac bar_leaf :=
  split; [split; reflexivity|];
  first [ exists false; split; [reflexivity | discriminate]
        | exists true; split; [reflexivity | reflexivity] ].

Lemma stay_incidents_quiet (loc_name : string) (self : Passenger) :
  all_runs (stay_incidents loc_name self) (fun tr r =>
    (forallb loc_free tr = true /\ appended_dead tr = []) /\
    exists b : bool,
      r = Finished (if b then set_was_drunk true self else self) /\
      (b = true -> contains "bar" loc_name = true)).
Proof.
  unfold stay_incidents, roll.
  destruct (contains "restaurant" loc_name), (contains "bar" loc_name),
    (String.eqb loc_name "shopping_street"),
    (String.eqb loc_name "hiking_excursion"),
    (String.eqb loc_name "snorkeling_excursion"),
    (String.eqb loc_name "paradise_beach");
    simpl;
    repeat first
      [ bar_leaf
      | match goal with
        | |- forall x : float, _ => intros ?
        | |- context [if (?r <? ?p)%float then _ else _] =>
            destruct (r <? p)%float; simpl
        end ].
Qed.

Lemma stay_in_activity_effects (fuel : nat) (locs : list Location)
    (self : Passenger) (sid li : nat) :
  is_dead self = false -> current_location self = Some li -> ship self = Some sid ->
  all_runs (stay_in_activity fuel locs self)
    (stay_effects (name (location_at locs li)) self).
Proof.
  intros Hd Hl Hs. unfold stay_in_activity. rewrite Hd, Hl. simpl. intros t0.
  apply all_runs_bind. eapply all_runs_mono; [|apply (stay_wait_runs sid); assumption].
  set (loc_name := name (location_at locs li)).
  intros tr r [Hst [->|[-> Hf]]];
    [|split; [simpl; apply stay_event_loc_free; exact Hst | exact I]].
  pose proof (stay_event_loc_free tr Hst) as Hfree.
  destruct (wander_appends tr (stay_event_wander tr Hst)) as [_ Hnone].
  assert (Hdead : forall (rs : list event) (key : string),
             forallb stay_event rs = true -> excursion loc_name = true ->
             stay_effects loc_name self
               (EF Now t0 :: tr ++ rs ++
                  [EDo (AppendDead (set_is_dead true self)); EDo (Incr key);
                   line "[DEATH]" (set_is_dead true self)])
               (Finished (set_is_dead true self))).
  { intros rs key Hrs Hex.
    destruct (wander_appends rs (stay_event_wander rs Hrs)) as [_ Hnone'].
    split.
    - simpl. rewrite !forallb_app, Hfree, (stay_event_loc_free rs Hrs). reflexivity.
    - simpl. repeat split; auto.
      change (EF Now t0 :: tr ++ rs ++ ?l) with ([EF Now t0] ++ tr ++ rs ++ l).
      rewrite !appended_dead_app, Hnone, Hnone'. reflexivity. }
  assert (Hlive : forall rs : list event,
             forallb stay_event rs = true ->
             all_runs (stay_incidents loc_name self)
               (fun tr' r' =>
                  stay_effects loc_name self (EF Now t0 :: tr ++ rs ++ tr') r')).
  { intros rs Hrs.
    destruct (wander_appends rs (stay_event_wander rs Hrs)) as [_ Hnone'].
    eapply all_runs_mono; [|apply stay_incidents_quiet].
    intros tr' r' [[Hfree' Hnone''] (b & -> & Hb)]. split.
    - simpl. rewrite !forallb_app, Hfree, Hfree', (stay_event_loc_free rs Hrs).
      reflexivity.
    - assert (E : is_dead (if b then set_was_drunk true self else self) = false)
        by (destruct b; exact Hd).
      rewrite E.
      change (EF Now t0 :: tr ++ rs ++ tr') with ([EF Now t0] ++ tr ++ rs ++ tr').
      rewrite !appended_dead_app, Hnone, Hnone', Hnone''.
      destruct b; simpl; repeat split; auto. }
  unfold roll, excursion in *.
  destruct (String.eqb loc_name "hiking_excursion"),
    (String.eqb loc_name "snorkeling_excursion"); simpl.
  - intros r. destruct (r <? 0.02)%float; simpl.
    + apply (Hdead [EF Random r]); auto.
    + intros r'. destruct (r' <? 0.02)%float; simpl.
      * apply (Hdead [EF Random r; EF Random r']); auto.
      * apply (Hlive [EF Random r; EF Random r']). reflexivity.
  - intros r. destruct (r <? 0.02)%float; simpl.
    + apply (Hdead [EF Random r]); auto.
    + apply (Hlive [EF Random r]). reflexivity.
  - intros r. destruct (r <? 0.02)%float; simpl.
    + apply (Hdead [EF Random r]); auto.
    + apply (Hlive [EF Random r]). reflexivity.
  - apply (Hlive []). reflexivity.
Qed.

Lemma loc_free_calls_on (loc : nat) (tr : list event) :
  forallb loc_free tr = true -> calls_on loc tr = [].
Proof.
  induction tr as [|e tr IH]; [reflexivity|]. simpl. intros H.
  apply andb_prop in H as [He Htr]. unfold calls_on in *. simpl.
  rewrite (IH Htr). destruct e as [[]| |[]| |]; simpl in *; try discriminate; reflexivity.
Qed.

(** X8. A stay never calls a location and never moves the passenger.  It
    is fatal only at the two excursions, and then the passenger is the
    one entry the stay adds to the dead registry; anywhere else the
    passenger survives.  A passenger that was sober before is drunk
    afterwards only if the location is a bar. *)
Theorem stay_is_fatal_only_on_excursions (fuel : nat) (locs : list Location)
    (self : Passenger) (sid li : nat) (o : nat -> Answer) (pos : nat)
    (p : Passenger) :
  is_dead self = false -> current_location self = Some li -> ship self = Some sid ->
  snd (outcome_at o pos (stay_in_activity fuel locs self)) = Finished p ->
  let tr := fst (outcome_at o pos (stay_in_activity fuel locs self)) in
  let loc_name := name (location_at locs li) in
  calls_on li tr = [] /\ forallb loc_free tr = true /\
  current_location p = Some li /\ on_board p = on_board self /\
  same_person self p /\
  (excursion loc_name = false -> is_dead p = false) /\
  (is_dead p = true -> appended_dead tr = [p]) /\
  (is_dead p = false -> appended_dead tr = []) /\
  (was_drunk self = false -> was_drunk p = true -> contains "bar" loc_name = true).
Proof.
  intros Hd Hl Hs Hres tr loc_name. subst tr loc_name.
  pose proof (all_runs_at _ _ o pos (stay_in_activity_effects fuel locs self sid li
                                       Hd Hl Hs)) as [Hfree H].
  rewrite Hres in H. destruct H as (H1 & H2 & H3 & H4 & H5).
  split; [|split; [exact Hfree|]].
  { apply loc_free_calls_on. exact Hfree. }
  split; [congruence|]. split; [exact H2|]. split; [exact H3|].
  split; [|split; [|split]].
  - intros Hex. destruct (is_dead p); [|reflexivity].
    destruct H4 as [H4 _]. congruence.
  - intros E. rewrite E in H4. apply H4.
  - intros E. rewrite E in H4. exact H4.
  - intros Hw Hp. destruct H5 as [E|[_ E]]; [congruence | exact E].
Qed.

Lemma stay_is_fatal_only_on_excursions_witness :
  current_location beach_stay_result = Some 7%nat /\
  is_dead beach_stay_result = false.
Proof.
  pose proof (stay_is_fatal_only_on_excursions 3 Island_locations beach_goer 0 7
                calm_oracle 0 beach_stay_result eq_refl eq_refl eq_refl eq_refl)
    as (_ & _ & Hl & _ & _ & Hd & _).
  split; [exact Hl | apply Hd; reflexivity].
Defined.

(** X9. A passenger marked dead is inert: none of its methods takes a step.
    So is, in [run], a passenger that was never attached to a ship: its
    thread returns at once and leaves it neither boarded, nor dead, nor
    in the stranded registry. *)
Theorem dead_or_unattached_is_inert (fuel : nat) (locs : list Location)
    (self : Passenger) (li : nat) (loc : Location) (o : nat -> Answer) (pos : nat) :
  is_dead self = true \/ ship self = None ->
  outcome_at o pos (run fuel locs self) = ([], Finished self) /\
  (is_dead self = true ->
   outcome_at o pos (go_to_location self li loc) = ([], Finished self) /\
   outcome_at o pos (stay_in_activity fuel locs self) = ([], Finished self) /\
   outcome_at o pos (return_to_ship self) = ([], Finished self)) /\
  (is_dead self = false ->
   on_board self = false ->
   is_boarded self = false /\ is_dead self = false /\
   appended_stranded (fst (outcome_at o pos (run fuel locs self))) = []).
Proof.
  intros H. assert (Hrun : outcome_at o pos (run fuel locs self) = ([], Finished self)).
  { unfold outcome_at, run. destruct H as [-> | ->]; [reflexivity|].
    destruct (is_dead self); reflexivity. }
  split; [exact Hrun|]. split.
  - intros Hd. unfold outcome_at, go_to_location, stay_in_activity, return_to_ship.
    rewrite Hd. repeat split.
  - intros Hd Hb. rewrite Hrun. unfold is_boarded. auto.
Qed.

Lemma dead_or_unattached_is_inert_witness :
  outcome_at calm_oracle 0
    (run 3 Island_locations (new_Passenger 1000 1 "young" "female" 50))
  = ([], Finished (new_Passenger 1000 1 "young" "female" 50)).
Proof.
  exact (proj1 (dead_or_unattached_is_inert 3 Island_locations
                  (new_Passenger 1000 1 "young" "female" 50) 0 no_location
                  calm_oracle 0 (or_intror eq_refl))).
Defined.

(** ** Hunger games: the shape of the tournament *)

Lemma tournament_gauntlet (draw : Z -> nat -> Z) (fuel : nat) :
  forall (k : nat) (l : list Passenger) (x : Passenger) (log : list Match),
    (length (l ++ [x]) <= fuel)%nat ->
    tournament fuel draw k (l ++ [x]) log =
    ([snd (gauntlet draw k x (rev l))], log ++ fst (gauntlet draw k x (rev l))).
Proof.
  induction fuel as [|fuel IH]; intros k l x log Hlen.
  - rewrite length_app in Hlen. simpl in Hlen. lia.
  - cbn [tournament].
    destruct (Z.ltb_spec 1 (Z.of_nat (length (l ++ [x])))) as [Hgt|Hle].
    + rewrite pop_app.
      destruct (exists_last (l := l)) as (l' & b & ->).
      { intros ->. simpl in Hgt. lia. }
      rewrite pop_app, rev_app_distr. cbn [rev app gauntlet].
      rewrite IH
        by (rewrite !length_app in *; simpl in *; lia).
      destruct (gauntlet draw (S k) _ (rev l')) as [glog survivor]. simpl.
      rewrite <- app_assoc. reflexivity.
    + destruct l as [|c l]; [simpl; rewrite app_nil_r; reflexivity|].
      rewrite length_app in Hle. simpl in Hle. lia.
Qed.

Lemma gauntlet_last (draw : Z -> nat -> Z) (cs : list Passenger) :
  forall (k : nat) (champion c : Passenger),
    exists m : Match,
      last (fst (gauntlet draw k champion (cs ++ [c]))) = Some m /\
      fighter_b m = c /\
      winner m = snd (gauntlet draw k champion (cs ++ [c])) /\
      length (fst (gauntlet draw k champion (cs ++ [c]))) = S (length cs).
Proof.
  induction cs as [|b cs IH]; intros k champion c.
  - simpl. eexists. repeat split.
  - cbn [app gauntlet].
    destruct (IH (S k) (fight champion b (draw (strength champion + strength b) k)) c)
      as (m & Hm & Hb & Hw & Hlen).
    destruct (gauntlet draw (S k) _ (cs ++ [c])) as [glog survivor].
    simpl in *. exists m. destruct glog as [|m' glog]; [discriminate|].
    repeat split; auto.
Qed.

(** X10. [HungerGames.run] is a gauntlet, not a bracket: the fighter at the
    end of the shuffled list is the first champion and meets the others
    from the back of the list to the front; whoever wins a match fights
    the next one.  The fighter at the front of the list fights only the
    last match, and the survivor is the winner of that match. *)
Theorem hunger_games_is_a_gauntlet (shuffle : list Passenger -> list Passenger)
    (draw : Z -> nat -> Z) (stranded l : list Passenger) (front x : Passenger) :
  shuffle stranded = front :: l ++ [x] ->
  let log := fst (HungerGames_run shuffle draw stranded) in
  let survivor := snd (HungerGames_run shuffle draw stranded) in
  HungerGames_run shuffle draw stranded =
    (fst (gauntlet draw 0 x (rev (front :: l))),
     Some (snd (gauntlet draw 0 x (rev (front :: l))))) /\
  length log = S (length l) /\
  (exists m1, head log = Some m1 /\ fighter_a m1 = x) /\
  (exists m, last log = Some m /\ fighter_b m = front /\ survivor = Some (winner m)).
Proof.
  intros Hsh log survivor.
  assert (Hrun : HungerGames_run shuffle draw stranded =
                 (fst (gauntlet draw 0 x (rev (front :: l))),
                  Some (snd (gauntlet draw 0 x (rev (front :: l)))))).
  { unfold HungerGames_run. rewrite Hsh.
    change (front :: l ++ [x]) with ((front :: l) ++ [x]).
    rewrite tournament_gauntlet by reflexivity. reflexivity. }
  subst log survivor. rewrite Hrun. cbn [fst snd]. split; [reflexivity|].
  cbn [rev].
  destruct (gauntlet_last draw (rev l) 0 x front) as (m & Hm & Hb & Hw & Hlen).
  split; [rewrite Hlen, length_rev; reflexivity|]. split.
  - destruct (rev l ++ [front]) as [|b rest] eqn:E.
    + destruct (rev l); discriminate.
    + cbn [gauntlet]. destruct (gauntlet draw 1 _ rest). simpl. eauto.
  - exists m. split; [exact Hm|]. split; [exact Hb | rewrite Hw; reflexivity].
Qed.

Lemma hunger_games_is_a_gauntlet_witness :
  length (fst (HungerGames_run (fun l => l) (fun _ _ => 1)
                 [first_passenger; beach_goer; first_passenger])) = 2%nat.
Proof.
  apply (hunger_games_is_a_gauntlet (fun l => l) (fun _ _ => 1)
           [first_passenger; beach_goer; first_passenger] [beach_goer]
           first_passenger first_passenger).
  reflexivity.
Defined.

(** ** The day as a whole: what no schedule can do *)

Lemma sys_step_replay (s : System) (t : Turn) :
  world (sys_step s t) = replay (steps_of s [t]) (world s).
Proof.
  destruct t as [i a|j a]; simpl.
  - destruct (passenger_threads s !! i) as [th|]; [|reflexivity].
    destruct (step (world s) a th) as [[e th']|]; reflexivity.
  - destruct (ship_threads s !! j) as [th|]; [|reflexivity].
    destruct (step (world s) a th) as [[e th']|]; reflexivity.
Qed.

Lemma steps_of_cons (s : System) (t : Turn) (sched : list Turn) :
  steps_of s (t :: sched) = steps_of s [t] ++ steps_of (sys_step s t) sched.
Proof.
  simpl. destruct t as [i a|j a].
  - destruct (passenger_threads s !! i) as [th|]; [|reflexivity].
    destruct (step (world s) a th) as [[e th']|]; reflexivity.
  - destruct (ship_threads s !! j) as [th|]; [|reflexivity].
    destruct (step (world s) a th) as [[e th']|]; reflexivity.
Qed.

(** The world a schedule leads to is the replay of the steps taken. *)
Lemma sys_run_replay (sched : list Turn) :
  forall s : System,
    world (sys_run s sched) = replay (steps_of s sched) (world s).
Proof.
  induction sched as [|t sched IH]; intros s; [reflexivity|].
  change (sys_run s (t :: sched)) with (sys_run (sys_step s t) sched).
  rewrite IH, steps_of_cons, replay_app, sys_step_replay. reflexivity.
Qed.

Lemma perform_within_capacity (e : event) (w : World) :
  within_capacity w -> within_capacity (perform e w).
Proof.
  unfold within_capacity. intros H.
  destruct e as [[l|d|loc pid|key|p|p|sid ev]|sid ev|[sid ev|loc pid] b|q x|q n];
    simpl; try exact H.
  - destruct (locations w !! loc) as [l|] eqn:E; [|exact H]. simpl.
    apply Forall_insert; [exact H|].
    pose proof (Forall_lookup_1 _ _ _ _ H E) as Hl. simpl in Hl |- *. lia.
  - destruct (ships w !! sid); exact H.
  - destruct (locations w !! loc) as [l|] eqn:E; [|exact H].
    pose proof (Forall_lookup_1 _ _ _ _ H E) as Hl.
    pose proof (call_count_le l (CallTryEnter pid) Hl) as Hc. simpl in Hc.
    destruct (try_enter l pid) as [[ok l'] out]. simpl in *.
    apply Forall_insert; assumption.
Qed.

Lemma perform_locations_static (e : event) (w : World) :
  map (fun l => (name l, max_capacity l, base_duration l, distance l))
      (locations (perform e w)) =
  map (fun l => (name l, max_capacity l, base_duration l, distance l)) (locations w).
Proof.
  assert (Hins : forall loc l l',
             locations w !! loc = Some l ->
             (name l', max_capacity l', base_duration l', distance l') =
             (name l, max_capacity l, base_duration l, distance l) ->
             map (fun l => (name l, max_capacity l, base_duration l, distance l))
                 (<[loc := l']> (locations w)) =
             map (fun l => (name l, max_capacity l, base_duration l, distance l))
                 (locations w)).
  { intros loc l l' Hl E. rewrite list_fmap_insert, E.
    apply list_insert_id. rewrite list_lookup_fmap, Hl. reflexivity. }
  destruct e as [[l|d|loc pid|key|p|p|sid ev]|sid ev|[sid ev|loc pid] b|q x|q n];
    simpl; try reflexivity.
  - destruct (locations w !! loc) as [l|] eqn:E; [|reflexivity]. simpl.
    apply (Hins loc l); [exact E | reflexivity].
  - destruct (ships w !! sid); reflexivity.
  - destruct (locations w !! loc) as [l|] eqn:E; [|reflexivity].
    unfold try_enter. destruct (count l <? max_capacity l); simpl.
    + apply (Hins loc l); [exact E | reflexivity].
    + apply (Hins loc l); [exact E | reflexivity].
Qed.

Lemma sys_run_within_capacity (s : System) (sched : list Turn) :
  within_capacity (world s) ->
  within_capacity (world (sys_run s sched)) /\
  map (fun l => (name l, max_capacity l, base_duration l, distance l))
      (locations (world (sys_run s sched))) =
  map (fun l => (name l, max_capacity l, base_duration l, distance l))
      (locations (world s)).
Proof.
  rewrite sys_run_replay. generalize (steps_of s sched) (world s).
  intros g. induction g as [|e g IH]; intros w H; [auto|].
  change (replay (e :: g) w) with (replay g (perform e w)).
  destruct (IH (perform e w) (perform_within_capacity e w H)) as [I1 I2].
  split; [exact I1|]. rewrite I2. apply perform_locations_static.
Qed.

(** X11. Whatever the threads and the schedule: no location ever exceeds its
    capacity, and the names, capacities, durations and distances of the
    locations never change. *)
Theorem no_schedule_overfills (s : System) (sched : list Turn) :
  within_capacity (world s) ->
  within_capacity (world (sys_run s sched)) /\
  map (fun l => (name l, max_capacity l, base_duration l, distance l))
      (locations (world (sys_run s sched))) =
  map (fun l => (name l, max_capacity l, base_duration l, distance l))
      (locations (world s)).
Proof. exact (sys_run_within_capacity s sched). Qed.

Lemma no_schedule_overfills_witness :
  within_capacity (world (sys_run small_day day_with_boarding)).
Proof.
  apply (no_schedule_overfills small_day day_with_boarding).
  unfold within_capacity. vm_compute. repeat constructor; discriminate.
Defined.

(** ** The steps of a schedule, thread by thread *)

Lemma Forall3_ahead {A B C : Type} (P : A -> B -> C -> Prop) (f : B -> B) (x' : A) :
  forall (l : list A) (k : list B) (k' : list C) (i : nat) (x : A),
    l !! i = Some x ->
    Forall3 P (<[i := x']> l) k k' ->
    (forall y z, P x' y z -> P x (f y) z) ->
    Forall3 P l (alter f i k) k'.
Proof.
  induction l as [|a l IH]; intros k k' i x Hi H Hf; [discriminate|].
  destruct i as [|i]; simpl in *.
  - injection Hi as ->. inversion H; subst. constructor; auto.
  - inversion H; subst. constructor; [assumption|]. eapply IH; eauto.
Qed.

Lemma Forall3_start {A : Type} (l : list (prog A)) :
  Forall3 follows l (map (fun _ => []) l) l.
Proof. induction l; simpl; constructor; [constructor | assumption]. Qed.

Lemma concat_nils {A B : Type} (l : list A) :
  concat (map (fun _ => @nil B) l) = [].
Proof. induction l; simpl; auto. Qed.

Lemma concat_alter_cons {A : Type} (e : A) :
  forall (l : list (list A)) (i : nat),
    (i < length l)%nat ->
    Permutation (concat (alter (cons e) i l)) (e :: concat l).
Proof.
  induction l as [|h l IH]; intros i Hi; simpl in *; [lia|].
  destruct i as [|i]; simpl; [reflexivity|].
  rewrite (IH i) by lia. symmetry. apply Permutation_middle.
Qed.

Lemma follows_step {A : Type} (w : World) (a : Answer) (t t' : prog A) (e : event) :
  step w a t = Some (e, t') ->
  forall tr t'', follows t' tr t'' -> follows t (e :: tr) t''.
Proof.
  intros H tr t'' H'.
  apply (follows_app t [e] t' (step_follows w a t e t' H) tr t'' H').
Qed.

(** Every thread of the system is where its own steps have led it, and
    the steps of the schedule are those of the threads, interleaved. *)
Lemma sys_run_ledger (sched : list Turn) :
  forall s : System,
  exists hp hs : list (list event),
    Forall3 follows (passenger_threads s) hp (passenger_threads (sys_run s sched)) /\
    Forall3 follows (ship_threads s) hs (ship_threads (sys_run s sched)) /\
    Permutation (steps_of s sched) (concat hp ++ concat hs).
Proof.
  induction sched as [|t sched IH]; intros s.
  - exists (map (fun _ => []) (passenger_threads s)),
      (map (fun _ => []) (ship_threads s)).
    split; [apply Forall3_start|]. split; [apply Forall3_start|].
    rewrite !concat_nils. constructor.
  - change (sys_run s (t :: sched)) with (sys_run (sys_step s t) sched).
    destruct (IH (sys_step s t)) as (hp & hs & Hp & Hs & Hg).
    rewrite steps_of_cons.
    destruct t as [i a|j a]; cbn [steps_of sys_step] in *.
    + destruct (passenger_threads s !! i) as [th|] eqn:Hi;
        [|exists hp, hs; auto].
      destruct (step (world s) a th) as [[e th']|] eqn:Hstep;
        [|exists hp, hs; auto].
      cbn in Hp, Hs, Hg |- *.
      exists (alter (cons e) i hp), hs.
      split; [|split; [exact Hs|]].
      * eapply Forall3_ahead; [exact Hi | exact Hp |].
        intros y z. apply (follows_step _ _ _ _ _ Hstep).
      * rewrite concat_alter_cons.
        -- simpl. constructor. exact Hg.
        -- rewrite <- (Forall3_length_lm _ _ _ _ Hp), length_insert.
           eapply lookup_lt_Some; exact Hi.
    + destruct (ship_threads s !! j) as [th|] eqn:Hj;
        [|exists hp, hs; auto].
      destruct (step (world s) a th) as [[e th']|] eqn:Hstep;
        [|exists hp, hs; auto].
      cbn in Hp, Hs, Hg |- *.
      exists hp, (alter (cons e) j hs).
      split; [exact Hp|]. split.
      * eapply Forall3_ahead; [exact Hj | exact Hs |].
        intros y z. apply (follows_step _ _ _ _ _ Hstep).
      * rewrite concat_alter_cons.
        -- etransitivity; [|apply Permutation_middle]. constructor. exact Hg.
        -- rewrite <- (Forall3_length_lm _ _ _ _ Hs), length_insert.
           eapply lookup_lt_Some; exact Hj.
Qed.

Lemma follows_prefix {A : Type} (t : prog A) (tr : list event) (t' : prog A)
    (Q : list event -> result A -> Prop) :
  follows t tr t' -> all_runs t Q -> exists tr' r, Q (tr ++ tr') r.
Proof.
  intros Hf H. apply (all_runs_inhabited t').
  apply (all_runs_follows t tr t' Hf Q H).
Qed.

Lemma incr_count_permutation (key : string) (g g' : list event) :
  Permutation g g' -> incr_count key g = incr_count key g'.
Proof.
  intros H. unfold incr_count. apply Permutation_length, filter_permutation, H.
Qed.

Lemma incr_count_concat_zero (key : string) (h : list (list event)) :
  Forall (fun tr => incr_count key tr = 0%nat) h -> incr_count key (concat h) = 0%nat.
Proof.
  induction 1 as [|tr h Htr _ IH]; [reflexivity|].
  simpl. rewrite incr_count_app. lia.
Qed.

(** A ship's thread touches no counter. *)
Lemma ship_threads_count_nothing (key : string) (ships : list CruiseShip)
    (hs : list (list event)) (threads : list (prog unit)) :
  Forall3 follows (imap ship_run ships) hs threads ->
  incr_count key (concat hs) = 0%nat.
Proof.
  intros H. apply incr_count_concat_zero, Forall_lookup. intros j tr Hj.
  destruct (Forall3_lookup_m _ _ _ _ _ _ H Hj) as (t & t' & Ht & _ & Hf).
  rewrite list_lookup_imap in Ht.
  destruct (ships !! j) as [s|]; [|discriminate]. injection Ht as <-.
  destruct (follows_prefix _ _ _
              (fun tr _ => incr_count key tr = 0%nat) Hf) as (tr' & _ & E).
  - simpl. reflexivity.
  - rewrite incr_count_app in E. lia.
Qed.

(** What a finished run has counted, by its outcome. *)
Lemma run_outcome_counts (fuel : nat) (self : Passenger) (sid : nat)
    (tr : list event) (p : Passenger) :
  run_outcome fuel self sid tr (Finished p) ->
  incr_count "boarded" tr = (if is_boarded p then 1 else 0)%nat /\
  (incr_count "died_cliff" tr + incr_count "died_shark" tr =
     if is_dead p then 1 else 0)%nat /\
  (incr_count "stranded" tr <= if is_stranded p then 1 else 0)%nat /\
  incr_count "total_passengers" tr = 0%nat.
Proof.
  intros H.
  assert (Hw : forall key pre,
             mem key ["boarded"; "stranded"; "died_cliff"; "died_shark";
                      "total_passengers"] = true ->
             forallb wander_event pre = true -> incr_count key pre = 0%nat)
    by (intros; apply wander_incr; assumption).
  assert (Hdelay : forall cur delay key,
             reaction_delay cur delay -> incr_count key delay = 0%nat)
    by (intros cur delay key Hd; destruct Hd; reflexivity).
  unfold is_boarded, is_stranded.
  inversion H as [|pre st li key q Hpre Hst Hp Hd Hb Hl Hk
                 |pre q Hpre Hp Hd Hb|pre rt cur q Hpre Hc Hd Hb Hr]; subst.
  - pose proof (stay_event_wander st Hst) as Hst'.
    rewrite Hd, Hb. rewrite !incr_count_app.
    rewrite !(Hw _ pre), !(Hw _ st) by (assumption || reflexivity).
    destruct Hk as [-> | ->]; cbn; repeat split; lia.
  - rewrite Hd, Hb. rewrite !incr_count_app.
    rewrite !(Hw _ pre) by (assumption || reflexivity).
    cbn; repeat split; lia.
  - rewrite !incr_count_app. rewrite !(Hw _ pre) by (assumption || reflexivity).
    inversion Hr as [delay Hdl|delay Hdl]; subst;
      rewrite !incr_count_app, !(Hdelay _ delay _ Hdl);
      cbn; rewrite ?Hd, ?Hb; cbn; repeat split; lia.
Qed.

Lemma finished_counts (fuel : nat) (locs : list Location) :
  forall (roster : list Passenger) (hp : list (list event))
         (threads : list (prog Passenger)) (finals : list Passenger),
    forallb attached roster = true ->
    Forall3 follows (map (run fuel locs) roster) hp threads ->
    map final threads = map Some finals ->
    incr_count "boarded" (concat hp) = length (List.filter is_boarded finals) /\
    (incr_count "died_cliff" (concat hp) + incr_count "died_shark" (concat hp))%nat =
      length (List.filter is_dead finals) /\
    (incr_count "stranded" (concat hp) <= length (List.filter is_stranded finals))%nat /\
    incr_count "total_passengers" (concat hp) = 0%nat.
Proof.
  induction roster as [|p roster IH]; intros hp threads finals Hatt H Hfin.
  - inversion H; subst. destruct finals; [|discriminate]. simpl. auto with arith.
  - simpl in Hatt. apply andb_prop in Hatt as [Hp Hatt].
    inversion H as [|t h th ts hp' ths Hf Hrest]; subst.
    destruct finals as [|f finals]; [discriminate|].
    simpl in Hfin. injection Hfin as Hth Hfin.
    destruct th; try discriminate. simpl in Hth. injection Hth as ->.
    destruct (IH hp' ths finals Hatt Hrest Hfin) as (I1 & I2 & I3 & I4).
    destruct (attached_spec p Hp) as (sid & Hs & Hd & Hb & Hl).
    pose proof (all_runs_follows _ _ _ Hf _ (run_runs fuel locs p sid Hs Hd Hb Hl))
      as Hout.
    simpl in Hout. rewrite app_nil_r in Hout.
    destruct (run_outcome_counts fuel p sid h f Hout) as (C1 & C2 & C3 & C4).
    simpl concat. rewrite !incr_count_app. cbn [List.filter].
    destruct (is_boarded f), (is_dead f), (is_stranded f); simpl length; lia.
Qed.

(** X13. How often the threads of a day run each [stats[key] += 1], whatever
    the schedule, once every passenger thread has returned: the one on
    [boarded] once for every passenger who ended on board; those on
    [died_cliff] and [died_shark] together once for every passenger who
    ended dead; the one on [stranded] at most once for every passenger
    who ended stranded (a passenger who overstays the departure is
    registered without it); the one on [total_passengers] never. *)
Theorem end_of_day_statistics (fuel : nat) (w : World) (roster : list Passenger)
    (sched : list Turn) (finals : list Passenger) :
  forallb attached roster = true ->
  map final (passenger_threads (sys_run (start_day fuel w roster) sched)) =
    map Some finals ->
  let g := steps_of (start_day fuel w roster) sched in
  incr_count "boarded" g = length (List.filter is_boarded finals) /\
  (incr_count "died_cliff" g + incr_count "died_shark" g)%nat =
    length (List.filter is_dead finals) /\
  (incr_count "stranded" g <= length (List.filter is_stranded finals))%nat /\
  incr_count "total_passengers" g = 0%nat.
Proof.
  intros Hatt Hfin g.
  destruct (sys_run_ledger sched (start_day fuel w roster)) as (hp & hs & Hp & Hs & Hg).
  cbn [start_day passenger_threads ship_threads] in Hp, Hs.
  destruct (finished_counts fuel (locations w) roster hp _ finals Hatt Hp Hfin)
    as (C1 & C2 & C3 & C4).
  assert (Hcount : forall key, incr_count key g = incr_count key (concat hp)).
  { intros key. unfold g.
    rewrite (incr_count_permutation key _ _ Hg), incr_count_app.
    rewrite (ship_threads_count_nothing key _ _ _ Hs). lia. }
  rewrite !Hcount. auto.
Qed.

Lemma end_of_day_statistics_witness :
  incr_count "boarded" (steps_of small_day day_with_boarding) = 1%nat /\
  (incr_count "stranded" (steps_of small_day day_with_overstay) <= 1)%nat.
Proof.
  split.
  - exact (proj1 (end_of_day_statistics 3 small_world small_roster day_with_boarding
                    (finals_of (sys_run small_day day_with_boarding))
                    eq_refl eq_refl)).
  - exact (proj1 (proj2 (proj2
             (end_of_day_statistics 3 small_world small_roster day_with_overstay
                (finals_of (sys_run small_day day_with_overstay))
                eq_refl eq_refl)))).
Defined.

(** ** Who is inside a location *)

Lemma inside_after_app (tr tr' : list event) :
  forall i : option nat,
    inside_after i (tr ++ tr') =
    match inside_after i tr with
    | Some k => inside_after k tr'
    | None => None
    end.
Proof.
  induction tr as [|e tr IH]; intros i; [reflexivity|].
  destruct e as [[l|d|loc pid|key|p|p|sid ev]|sid ev|[sid ev|loc pid] [|]|q x|q n];
    cbn [app inside_after]; try apply IH.
  - destruct i as [l'|]; [|reflexivity]. destruct (Nat.eqb loc l'); [apply IH | reflexivity].
  - destruct i as [l'|]; [reflexivity | apply IH].
Qed.

Lemma inside_after_free (tr : list event) :
  forallb loc_free tr = true -> forall i, inside_after i tr = Some i.
Proof.
  induction tr as [|e tr IH]; intros H i; [reflexivity|].
  simpl in H. apply andb_prop in H as [He Htr].
  destruct e as [[l|d|loc pid|key|p|p|sid ev]|sid ev|[sid ev|loc pid] [|]|q x|q n];
    try discriminate; cbn [inside_after]; apply IH; exact Htr.
Qed.

Lemma visits_resume (pre tr : list event) (r : result Passenger) :
  inside_after None pre = Some None -> visits tr r -> visits (pre ++ tr) r.
Proof.
  intros Hpre. destruct r as [p| |exn]; unfold visits.
  - rewrite inside_after_app, Hpre. auto.
  - intros [i Hi]. exists i. rewrite inside_after_app, Hpre. exact Hi.
  - auto.
Qed.

Lemma visits_resume_eq (pre tr : list event) (r : result Passenger)
    (full : list event) :
  inside_after None pre = Some None -> visits tr r -> full = pre ++ tr ->
  visits full r.
Proof. intros Hpre H ->. apply visits_resume; assumption. Qed.

Lemma go_to_location_trace (self : Passenger) (li : nat) (loc : Location) :
  is_dead self = false ->
  all_runs (go_to_location self li loc) (fun tr r =>
    exists n b s,
      tr = [EN (Choice 3) n; line "[MOVE]" self;
            EDo (Sleep (travel_time s (distance loc)));
            EB (TryEnter li (passenger_id self)) b] /\
      r = Finished (if b then set_current_location (Some li)
                                (set_transport_strategy s self)
                    else set_transport_strategy s self)).
Proof.
  intros Hd. unfold go_to_location. rewrite Hd.
  apply all_runs_bind. eapply all_runs_mono; [|apply choose_transport_runs].
  intros tr r (n & key & s & -> & ->). simpl. intros b.
  destruct b; simpl; [exists n, true, s | exists n, false, s]; auto.
Qed.

Lemma return_phase_free (cur : Passenger) (sid : nat) (rt : list event) (p : Passenger) :
  return_phase cur sid rt p ->
  forallb loc_free rt = true /\ is_dead p = is_dead cur.
Proof.
  intros H. destruct H as [delay Hdl|delay Hdl]; destruct Hdl;
    split; reflexivity.
Qed.

Lemma run_loop_visits (locs : list Location) (sid : nat) :
  forall (fuel : nat) (cur : Passenger),
    ship cur = Some sid -> is_dead cur = false -> current_location cur = None ->
    all_runs (run_loop fuel locs sid cur) visits.
Proof.
  induction fuel as [|fuel IH]; intros cur Hs Hd Hl.
  - simpl. exists None. reflexivity.
  - assert (Htail : forall cur' : Passenger,
               ship cur' = Some sid -> is_dead cur' = false ->
               current_location cur' = None ->
               all_runs
                 (last_call ← ask_b (IsSet sid LastCall);
                  if last_call then
                    self ← return_to_ship cur';
                    run_epilogue self
                  else run_loop fuel locs sid cur')
                 visits).
    { intros cur' Hs' Hd' Hl'. cbn [bind ask_b all_runs]. intros [|].
      - apply all_runs_bind.
        eapply all_runs_mono; [|apply (return_to_ship_runs cur' sid Hd' Hs')].
        intros rt r (p & -> & Hr).
        destruct (return_phase_free cur' sid rt p Hr) as [Hfree Hdp].
        rewrite Hd' in Hdp. unfold run_epilogue.
        destruct (negb (on_board p) && negb (is_dead p)); cbn [bind do print all_runs];
          unfold visits; rewrite Hdp; cbn [inside_after];
          rewrite inside_after_app, (inside_after_free rt Hfree); reflexivity.
      - eapply all_runs_mono; [|apply (IH cur' Hs' Hd' Hl')].
        intros tr r H. apply (visits_resume [EB (IsSet sid LastCall) false] tr r);
          [reflexivity | exact H]. }
    cbn [run_loop bind ask_b all_runs]. intros [|].
    + unfold run_epilogue.
      destruct (negb (on_board cur) && negb (is_dead cur)); cbn [bind do print all_runs];
        unfold visits; rewrite Hd; reflexivity.
    + rewrite Hd. unfold choose_activity, ask_n. cbn [bind all_runs]. intros n.
      apply all_runs_bind.
      eapply all_runs_mono; [|apply go_to_location_trace; exact Hd].
      intros tr r (m & b & s & -> & ->).
      set (li := pick (Choices (map (activity_weight cur) locs)) n).
      destruct b.
      * cbn [current_location set_current_location].
        set (cur1 := set_current_location (Some li) (set_transport_strategy s cur)).
        apply all_runs_bind. apply all_runs_bind.
        eapply all_runs_mono;
          [|apply (stay_in_activity_effects fuel locs cur1 sid li);
            [exact Hd | reflexivity | exact Hs]].
        intros tr [p| |exn] [Hfree Hp]; [| |destruct Hp].
        -- destruct Hp as (Hlp & _ & Hsame & _ & _).
           change (current_location cur1) with (Some li) in Hlp.
           destruct (is_dead p) eqn:Hdp.
           ++ cbn [all_runs fst snd]. unfold visits. rewrite Hdp, Hlp.
              cbn [app]. rewrite app_nil_r, app_nil_r.
              cbn [inside_after line]. apply (inside_after_free tr Hfree).
           ++ rewrite Hlp. cbn [bind do all_runs fst snd]. intros b.
              assert (Hs2 : ship (set_current_location None p) = Some sid)
                by (destruct Hsame as (_ & _ & _ & _ & _ & Hx); cbn; rewrite Hx; exact Hs).
              pose proof (Htail (set_current_location None p) Hs2 Hdp eq_refl) as Ht.
              cbn [bind ask_b all_runs] in Ht.
              eapply all_runs_mono; [|exact (Ht b)].
              intros tr' r' H.
              refine (visits_resume_eq
                        ([EB (IsSet sid Departed) false;
                          EN (Choices (map (activity_weight cur) locs)) li;
                          EN (Choice 3) m; line "[MOVE]" cur;
                          EDo (Sleep (travel_time s (distance (location_at locs li))));
                          EB (TryEnter li (passenger_id cur)) true] ++
                         tr ++ [EDo (Leave li (passenger_id p))])
                        _ r' _ _ H _).
              ** cbn [app inside_after line].
                 rewrite inside_after_app, (inside_after_free tr Hfree).
                 cbn [inside_after]. rewrite Nat.eqb_refl. reflexivity.
              ** cbn [app]. rewrite <- !app_assoc. reflexivity.
        -- exists (Some li). cbn [app inside_after line].
           apply (inside_after_free tr Hfree).
      * cbn [current_location set_transport_strategy]. rewrite Hl.
        cbn [bind all_runs fst snd]. intros b.
        pose proof (Htail (set_transport_strategy s cur) Hs Hd Hl) as Ht.
        cbn [bind ask_b all_runs] in Ht.
        eapply all_runs_mono; [|exact (Ht b)].
        intros tr' r' H.
        refine (visits_resume_eq
                  [EB (IsSet sid Departed) false;
                   EN (Choices (map (activity_weight cur) locs)) li;
                   EN (Choice 3) m; line "[MOVE]" cur;
                   EDo (Sleep (travel_time s (distance (location_at locs li))));
                   EB (TryEnter li (passenger_id cur)) false]
                  _ r' _ _ H _); reflexivity.
Qed.

Lemma run_visits (fuel : nat) (locs : list Location) (self : Passenger) :
  attached self = true -> all_runs (run fuel locs self) visits.
Proof.
  intros Hatt. destruct (attached_spec self Hatt) as (sid & Hs & Hd & _ & Hl).
  unfold run. rewrite Hd, Hs. cbn [bind print do all_runs].
  eapply all_runs_mono; [|apply (run_loop_visits locs sid fuel self Hs Hd Hl)].
  intros tr r H.
  apply (visits_resume [line "[WAIT]" self; EWait sid Arrived; line "[ARRIVE]" self] tr r);
    [reflexivity | exact H].
Qed.

Lemma inside_after_prefix (tr tr' : list event) (i j : option nat) :
  inside_after i (tr ++ tr') = Some j -> exists k, inside_after i tr = Some k.
Proof.
  rewrite inside_after_app. destruct (inside_after i tr) as [k|]; [eauto | discriminate].
Qed.

(** Whatever steps a passenger's thread has taken so far, it has entered
    and left in turns. *)
Lemma thread_visits (fuel : nat) (locs : list Location) (self : Passenger)
    (tr : list event) (th : prog Passenger) :
  attached self = true -> follows (run fuel locs self) tr th ->
  exists k, inside_after None tr = Some k /\
            forall f, th = Ret f -> k = if is_dead f then current_location f else None.
Proof.
  intros Hatt Hf.
  pose proof (all_runs_follows _ _ _ Hf _ (run_visits fuel locs self Hatt)) as H.
  destruct (all_runs_inhabited _ _ H) as (tr' & r & Hv).
  assert (Hk : exists k, inside_after None tr = Some k).
  { destruct r as [p| |exn]; [| |destruct Hv].
    - apply (inside_after_prefix tr tr' None _ Hv).
    - destruct Hv as [i Hi]. apply (inside_after_prefix tr tr' None _ Hi). }
  destruct Hk as [k Hk]. exists k. split; [exact Hk|].
  intros f ->. simpl in H. rewrite app_nil_r in H. congruence.
Qed.

Lemma held_cons (loc : nat) (e : event) (tr : list event) :
  held loc (e :: tr) = held loc [e] + held loc tr.
Proof.
  unfold held. simpl. destruct (grants loc e), (leaves loc e); simpl length; lia.
Qed.

Lemma held_app (loc : nat) (tr tr' : list event) :
  held loc (tr ++ tr') = held loc tr + held loc tr'.
Proof.
  unfold held. rewrite !List.filter_app, !length_app. lia.
Qed.

Lemma held_permutation (loc : nat) (g g' : list event) :
  Permutation g g' -> held loc g = held loc g'.
Proof.
  intros H. unfold held.
  rewrite (Permutation_length (filter_permutation (grants loc) g g' H)).
  rewrite (Permutation_length (filter_permutation (leaves loc) g g' H)).
  reflexivity.
Qed.

Lemma inside_held (loc : nat) (tr : list event) :
  forall i j : option nat,
    inside_after i tr = Some j ->
    held loc tr = Z.of_nat (at_loc loc j) - Z.of_nat (at_loc loc i).
Proof.
  induction tr as [|e tr IH]; intros i j H.
  - simpl in H. injection H as ->. unfold held. simpl. lia.
  - rewrite held_cons.
    destruct e as [[l|d|l pid|key|p|p|sid ev]|sid ev|[sid ev|l pid] [|]|q x|q n];
      cbn [inside_after] in H;
      try (rewrite (IH i j H); unfold held; simpl; lia).
    + destruct i as [l'|]; [|discriminate].
      destruct (Nat.eqb_spec l l') as [->|]; [|discriminate].
      rewrite (IH None j H). unfold held. cbn [at_loc List.filter grants leaves].
      destruct (Nat.eqb l' loc); simpl; lia.
    + destruct i as [l'|]; [discriminate|].
      rewrite (IH (Some l) j H). unfold held. cbn [at_loc List.filter grants leaves].
      destruct (Nat.eqb l loc); simpl; lia.
Qed.

Lemma step_answered {A : Type} (w : World) (a : Answer) (t t' : prog A) (e : event) :
  step w a t = Some (e, t') -> answered w e.
Proof.
  destruct t; simpl; intros H; try discriminate.
  - injection H as <- _. exact I.
  - destruct (signal w sid ev); [|discriminate]. injection H as <- _. exact I.
  - injection H as <- _. reflexivity.
  - injection H as <- _. exact I.
  - injection H as <- _. exact I.
Qed.

Lemma steps_consistent (sched : list Turn) :
  forall s : System, consistent (world s) (steps_of s sched).
Proof.
  induction sched as [|t sched IH]; intros s; [exact I|].
  specialize (IH (sys_step s t)).
  destruct t as [i a|j a]; cbn [steps_of sys_step] in *.
  - destruct (passenger_threads s !! i) as [th|]; [|exact IH].
    destruct (step (world s) a th) as [[e th']|] eqn:Hstep; [|exact IH].
    split; [exact (step_answered _ _ _ _ _ Hstep) | exact IH].
  - destruct (ship_threads s !! j) as [th|]; [|exact IH].
    destruct (step (world s) a th) as [[e th']|] eqn:Hstep; [|exact IH].
    split; [exact (step_answered _ _ _ _ _ Hstep) | exact IH].
Qed.

Lemma perform_count (loc : nat) (e : event) (w : World) :
  answered w e ->
  count <$> (locations (perform e w) !! loc) =
  (fun c => c + held loc [e]) <$> (count <$> (locations w !! loc)).
Proof.
  intros Ha.
  assert (Hid : forall x : option Z, x = (fun c => c + 0) <$> x)
    by (intros [c|]; simpl; [f_equal; lia | reflexivity]).
  destruct e as [[l|d|l pid|key|p|p|sid ev]|sid ev|[sid ev|l pid] b|q x|q n];
    try (apply Hid).
  - cbn [perform]. destruct (locations w !! l) as [x|] eqn:E.
    + cbn. destruct (Nat.eqb_spec l loc) as [->|Hne].
      * rewrite list_lookup_insert_eq by (eapply lookup_lt_Some; exact E).
        rewrite E. unfold held. cbn. rewrite Nat.eqb_refl. simpl; f_equal; lia.
      * rewrite list_lookup_insert_ne by exact Hne.
        unfold held. cbn. destruct (Nat.eqb_spec l loc); [contradiction|]. apply Hid.
    + destruct (Nat.eqb_spec l loc) as [->|Hne].
      * rewrite E. reflexivity.
      * unfold held. cbn. destruct (Nat.eqb_spec l loc); [contradiction|]. apply Hid.
  - cbn [perform]. destruct (ships w !! sid); apply Hid.
  - cbn [perform answered read] in *. destruct (locations w !! l) as [x|] eqn:E.
    + unfold try_enter in *. destruct (count x <? max_capacity x); cbn in Ha; subst b; cbn.
      * destruct (Nat.eqb_spec l loc) as [->|Hne].
        -- rewrite list_lookup_insert_eq by (eapply lookup_lt_Some; exact E).
           rewrite E. unfold held. cbn. rewrite Nat.eqb_refl. simpl; f_equal; lia.
        -- rewrite list_lookup_insert_ne by exact Hne.
           unfold held. cbn. destruct (Nat.eqb_spec l loc); [contradiction|]. apply Hid.
      * destruct (Nat.eqb_spec l loc) as [->|Hne].
        -- rewrite list_lookup_insert_eq by (eapply lookup_lt_Some; exact E).
           rewrite E. unfold held. cbn; f_equal; lia.
        -- rewrite list_lookup_insert_ne by exact Hne. apply Hid.
    + subst b. apply Hid.
Qed.

(** The occupancy of a location after consistent steps: what it was,
    plus the entries granted, minus the leaves. *)
Lemma replay_count (loc : nat) (g : list event) :
  forall w : World,
    consistent w g ->
    count <$> (locations (replay g w) !! loc) =
    (fun c => c + held loc g) <$> (count <$> (locations w !! loc)).
Proof.
  induction g as [|e g IH]; intros w H.
  - simpl. destruct (locations w !! loc); simpl; [f_equal; unfold held; simpl; lia|].
    reflexivity.
  - destruct H as [Ha Hg]. change (replay (e :: g) w) with (replay g (perform e w)).
    rewrite (IH _ Hg), (perform_count loc e w Ha), (held_cons loc e g).
    destruct (locations w !! loc); simpl; [f_equal; lia | reflexivity].
Qed.

Lemma free_held (loc : nat) (tr : list event) :
  forallb loc_free tr = true -> held loc tr = 0.
Proof.
  intros H. rewrite (inside_held loc tr None None (inside_after_free tr H None)). lia.
Qed.

Lemma ship_threads_hold_nothing (loc : nat) (ships : list CruiseShip)
    (hs : list (list event)) (threads : list (prog unit)) :
  Forall3 follows (imap ship_run ships) hs threads -> held loc (concat hs) = 0.
Proof.
  intros H.
  assert (Hall : Forall (fun tr => held loc tr = 0) hs).
  { apply Forall_lookup. intros j tr Hj.
    destruct (Forall3_lookup_m _ _ _ _ _ _ H Hj) as (t & t' & Ht & _ & Hf).
    rewrite list_lookup_imap in Ht.
    destruct (ships !! j) as [s|]; [|discriminate]. injection Ht as <-.
    destruct (follows_prefix _ _ _
                (fun tr _ => forallb loc_free tr = true) Hf) as (tr' & _ & E).
    - simpl. reflexivity.
    - rewrite forallb_app in E. apply andb_prop in E as [E _].
      apply free_held, E. }
  clear H. induction Hall as [|tr h Htr _ IH]; [reflexivity|].
  simpl. rewrite held_app, Htr, IH. reflexivity.
Qed.

Lemma passenger_threads_hold (fuel : nat) (locs : list Location) (loc : nat) :
  forall (roster : list Passenger) (hp : list (list event))
         (threads : list (prog Passenger)),
    forallb attached roster = true ->
    Forall3 follows (map (run fuel locs) roster) hp threads ->
    exists n : nat,
      held loc (concat hp) = Z.of_nat n /\ (n <= length roster)%nat /\
      forall finals : list Passenger,
        map final threads = map Some finals ->
        n = length (List.filter (died_at loc) finals).
Proof.
  induction roster as [|p roster IH]; intros hp threads Hatt H.
  - inversion H; subst. exists 0%nat. split; [reflexivity|]. split; [lia|].
    intros [|f finals] Hfin; [reflexivity | discriminate].
  - simpl in Hatt. apply andb_prop in Hatt as [Hp Hatt].
    inversion H as [|t h th ts hp' ths Hf Hrest]; subst.
    destruct (IH hp' ths Hatt Hrest) as (n & Hn & Hle & Hfin).
    destruct (thread_visits fuel locs p h th Hp Hf) as (k & Hk & Hend).
    exists (at_loc loc k + n)%nat.
    split; [|split].
    + simpl concat. rewrite held_app, Hn, (inside_held loc h None k Hk). simpl. lia.
    + assert (at_loc loc k <= 1)%nat
        by (destruct k as [l|]; simpl; [destruct (Nat.eqb l loc)|]; lia).
      simpl. lia.
    + intros [|f finals] Hfs; [discriminate|].
      simpl in Hfs. injection Hfs as Hth Hfs.
      destruct th; try discriminate. simpl in Hth. injection Hth as ->.
      rewrite (Hend f eq_refl), (Hfin finals Hfs).
      cbn [List.filter]. unfold died_at at 2.
      destruct (is_dead f); simpl; [|reflexivity].
      destruct (current_location f) as [l|]; simpl; [|reflexivity].
      destruct (Nat.eqb l loc); reflexivity.
Qed.

Lemma day_occupancy (fuel : nat) (w : World) (roster : list Passenger)
    (sched : list Turn) (loc : nat) (l : Location) :
  forallb attached roster = true -> locations w !! loc = Some l ->
  exists n : nat,
    occupancy loc (sys_run (start_day fuel w roster) sched) =
      Some (count l + Z.of_nat n) /\
    (n <= length roster)%nat /\
    forall finals : list Passenger,
      map final (passenger_threads (sys_run (start_day fuel w roster) sched)) =
        map Some finals ->
      n = length (List.filter (died_at loc) finals).
Proof.
  intros Hatt Hl.
  destruct (sys_run_ledger sched (start_day fuel w roster)) as (hp & hs & Hp & Hs & Hg).
  cbn [start_day passenger_threads ship_threads] in Hp, Hs.
  destruct (passenger_threads_hold fuel (locations w) loc roster hp _ Hatt Hp)
    as (n & Hn & Hle & Hfin).
  exists n. split; [|split; [exact Hle | exact Hfin]].
  unfold occupancy. rewrite sys_run_replay.
  rewrite (replay_count loc _ _ (steps_consistent sched (start_day fuel w roster))).
  rewrite (held_permutation loc _ _ Hg), held_app, Hn.
  rewrite (ship_threads_hold_nothing loc _ _ _ Hs).
  cbn [start_day world]. rewrite Hl. simpl. f_equal. lia.
Qed.

(** X14. At every moment of a day, whatever the schedule: the occupancy of a
    location is what it was at the start plus the number of passengers
    inside, which is at most the number of passengers.  [leave] has no
    guard, yet the count never falls below where it started, because a
    passenger leaves only the location it has entered. *)
Theorem occupancy_never_falls (fuel : nat) (w : World) (roster : list Passenger)
    (sched : list Turn) (loc : nat) (l : Location) :
  forallb attached roster = true -> locations w !! loc = Some l ->
  exists inside : nat,
    occupancy loc (sys_run (start_day fuel w roster) sched) =
      Some (count l + Z.of_nat inside) /\
    (inside <= length roster)%nat.
Proof.
  intros Hatt Hl.
  destruct (day_occupancy fuel w roster sched loc l Hatt Hl) as (n & Ho & Hle & _).
  exists n. split; assumption.
Qed.

Lemma occupancy_never_falls_witness :
  exists inside : nat,
    occupancy 5 (sys_run small_day day_with_boarding) = Some (0 + Z.of_nat inside) /\
    (inside <= 2)%nat.
Proof.
  apply (occupancy_never_falls 3 small_world small_roster day_with_boarding 5
           (location_at Island_locations 5)); reflexivity.
Defined.

(** X15. Once every passenger thread has returned, whatever the schedule:
    the occupancy of a location is what it was at the start plus the
    number of passengers who died there.  Everybody else has given the
    slot back; the slot of a passenger who died is never released. *)
Theorem only_the_dead_keep_their_slot (fuel : nat) (w : World)
    (roster : list Passenger) (sched : list Turn) (finals : list Passenger)
    (loc : nat) (l : Location) :
  forallb attached roster = true -> locations w !! loc = Some l ->
  map final (passenger_threads (sys_run (start_day fuel w roster) sched)) =
    map Some finals ->
  occupancy loc (sys_run (start_day fuel w roster) sched) =
    Some (count l + Z.of_nat (length (List.filter (died_at loc) finals))).
Proof.
  intros Hatt Hl Hfin.
  destruct (day_occupancy fuel w roster sched loc l Hatt Hl) as (n & Ho & _ & Hn).
  rewrite Ho, (Hn finals Hfin). reflexivity.
Qed.

Lemma only_the_dead_keep_their_slot_witness :
  occupancy 5 (sys_run small_day day_with_boarding) = Some 1 /\
  occupancy 7 (sys_run small_day day_with_boarding) = Some 0.
Proof.
  split.
  - exact (only_the_dead_keep_their_slot 3 small_world small_roster day_with_boarding
             (finals_of (sys_run small_day day_with_boarding)) 5
             (location_at Island_locations 5) eq_refl eq_refl eq_refl).
  - exact (only_the_dead_keep_their_slot 3 small_world small_roster day_with_boarding
             (finals_of (sys_run small_day day_with_boarding)) 7
             (location_at Island_locations 7) eq_refl eq_refl eq_refl).
Defined.

(** ** The signals of a ship, seen by everybody *)

Lemma signals_set_app (tr tr' : list event) :
  signals_set (tr ++ tr') = signals_set tr ++ signals_set tr'.
Proof. apply omap_app. Qed.

Lemma signals_set_permutation (g g' : list event) :
  Permutation g g' -> Permutation (signals_set g) (signals_set g').
Proof.
  unfold signals_set.
  induction 1 as [|x l l' _ IH|x y l|l l' l'' _ IH1 _ IH2]; simpl.
  - constructor.
  - destruct x as [[]| | | |]; try exact IH. constructor. exact IH.
  - destruct x as [[]| | | |], y as [[]| | | |]; try reflexivity. apply perm_swap.
  - etransitivity; eassumption.
Qed.

Lemma signals_set_concat (x : nat * Signal) (h : list (list event)) :
  In x (signals_set (concat h)) <-> exists tr, In tr h /\ In x (signals_set tr).
Proof.
  induction h as [|tr h IH]; simpl.
  - split; [intros [] | intros (? & [] & _)].
  - rewrite signals_set_app, in_app_iff, IH. split.
    + intros [H|(tr' & H1 & H2)]; eauto.
    + intros (tr' & [<-|H1] & H2); eauto.
Qed.

Lemma wander_signals (tr : list event) :
  forallb wander_event tr = true -> signals_set tr = [].
Proof.
  induction tr as [|e tr IH]; simpl; [reflexivity|].
  intros H. apply andb_prop in H as [He Htr]. unfold signals_set in *. simpl.
  rewrite (IH Htr). destruct e as [[]| | | |]; simpl in *; try discriminate; reflexivity.
Qed.

Lemma run_outcome_signals (fuel : nat) (self : Passenger) (sid : nat)
    (tr : list event) (r : result Passenger) :
  run_outcome fuel self sid tr r -> signals_set tr = [].
Proof.
  intros H.
  destruct H as [tr Hw Hc|pre st li key p Hw Hst Hp Hd Hb Hl Hk
                |pre p Hw Hp Hd Hb|pre rt cur p Hw Hc Hd Hb Hr];
    rewrite ?signals_set_app, ?(wander_signals _ Hw); try reflexivity.
  - rewrite (wander_signals st (stay_event_wander st Hst)). reflexivity.
  - destruct Hr as [delay Hdl|delay Hdl]; destruct Hdl;
      destruct (on_board _); reflexivity.
Qed.

(** No passenger sets a signal. *)
Lemma passenger_threads_signal_nothing (fuel : nat) (locs : list Location) :
  forall (roster : list Passenger) (hp : list (list event))
         (threads : list (prog Passenger)),
    forallb attached roster = true ->
    Forall3 follows (map (run fuel locs) roster) hp threads ->
    signals_set (concat hp) = [].
Proof.
  induction roster as [|p roster IH]; intros hp threads Hatt H.
  - inversion H; subst. reflexivity.
  - simpl in Hatt. apply andb_prop in Hatt as [Hp Hatt].
    inversion H as [|t h th ts hp' ths Hf Hrest]; subst.
    destruct (attached_spec p Hp) as (sid & Hs & Hd & Hb & Hl).
    destruct (follows_prefix _ _ _ _ Hf (run_runs fuel locs p sid Hs Hd Hb Hl))
      as (tr' & r & Hout).
    apply run_outcome_signals in Hout. rewrite signals_set_app in Hout.
    apply app_eq_nil in Hout as [Hout _].
    simpl. rewrite signals_set_app, Hout, (IH hp' ths Hatt Hrest). reflexivity.
Qed.

(** The signals a ship's thread has set so far: its own, in order. *)
Lemma ship_thread_signals (j : nat) (s : CruiseShip) (h : list event)
    (t : prog unit) (x : nat * Signal) :
  follows (ship_run j s) h t -> In x (signals_set h) ->
  fst x = j /\
  (snd x = Departed -> In (j, LastCall) (signals_set h)) /\
  (snd x = LastCall -> In (j, Arrived) (signals_set h)).
Proof.
  intros Hf Hx.
  destruct (follows_prefix _ _ _
              (fun tr _ => signals_set tr = [(j, Arrived); (j, LastCall); (j, Departed)])
              Hf) as (tr' & _ & E); [reflexivity|].
  rewrite signals_set_app in E.
  destruct (signals_set h) as [|a [|b [|c [|d l]]]]; simpl in E, Hx |- *.
  - destruct Hx.
  - injection E as -> _. destruct Hx as [<-|[]]. repeat split; discriminate.
  - injection E as -> -> _. destruct Hx as [<-|[<-|[]]];
      repeat split; try discriminate; auto.
  - injection E as -> -> -> _. destruct Hx as [<-|[<-|[<-|[]]]];
      repeat split; try discriminate; auto.
  - injection E as _ _ _ E. destruct tr'; discriminate.
Qed.

Lemma is_set_ship_after (j : nat) (ev : Signal) (g : list event) :
  forall s : CruiseShip,
    is_set (ship_after j g s) ev = true <->
    is_set s ev = true \/ In (j, ev) (signals_set g).
Proof.
  induction g as [|e g IH]; intros s.
  - simpl. tauto.
  - change (ship_after j (e :: g) s) with (ship_after j g (ship_after j [e] s)).
    rewrite IH.
    destruct e as [[l|d|loc pid|key|p|p|sid' ev']|sid' ev'|q b|q x|q n];
      try (unfold signals_set; simpl; tauto).
    unfold ship_after, signals_set. simpl.
    destruct (Nat.eqb_spec sid' j) as [->|Hne].
    + destruct ev, ev'; simpl; intuition congruence.
    + intuition congruence.
Qed.

Lemma day_signals (fuel : nat) (w : World) (roster : list Passenger)
    (sched : list Turn) (j : nat) :
  forallb attached roster = true ->
  forallb unsignalled (ships w) = true ->
  let w' := world (sys_run (start_day fuel w roster) sched) in
  (signal w' j Departed = true -> signal w' j LastCall = true) /\
  (signal w' j LastCall = true -> signal w' j Arrived = true).
Proof.
  intros Hatt Hfresh w'. subst w'.
  destruct (sys_run_ledger sched (start_day fuel w roster)) as (hp & hs & Hp & Hs & Hg).
  cbn [start_day passenger_threads ship_threads] in Hp, Hs.
  unfold signal. rewrite sys_run_replay, replay_ships. cbn [start_day world].
  destruct (ships w !! j) as [s|] eqn:Hj; [|split; discriminate].
  cbn [fmap option_fmap option_map].
  assert (Hs0 : forall ev, is_set s ev = false).
  { rewrite forallb_forall in Hfresh.
    assert (Hin : In s (ships w))
      by (apply list_elem_of_In; eapply list_elem_of_lookup_2; exact Hj).
    specialize (Hfresh s Hin). unfold unsignalled in Hfresh.
    apply andb_prop in Hfresh as [Hf Hd]. apply andb_prop in Hf as [Ha Hl].
    intros []; [destruct (is_set s Arrived) | destruct (is_set s LastCall)
               | destruct (is_set s Departed)]; try discriminate; reflexivity. }
  assert (Hiff : forall x, In x (signals_set (steps_of (start_day fuel w roster) sched))
                           <-> In x (signals_set (concat hs))).
  { intros x.
    pose proof (signals_set_permutation _ _ Hg) as Hperm.
    rewrite signals_set_app,
      (passenger_threads_signal_nothing fuel (locations w) roster hp _ Hatt Hp) in Hperm.
    simpl in Hperm.
    split; intros H; [apply (Permutation_in _ Hperm H)
                     | apply (Permutation_in _ (Permutation_sym Hperm) H)]. }
  assert (Hord : forall ev ev',
             (ev = Departed /\ ev' = LastCall) \/ (ev = LastCall /\ ev' = Arrived) ->
             In (j, ev) (signals_set (concat hs)) ->
             In (j, ev') (signals_set (concat hs))).
  { intros ev ev' Hev H. apply signals_set_concat in H as (tr & Htr & Hx).
    apply list_elem_of_In, list_elem_of_lookup_1 in Htr as [i Hi].
    destruct (Forall3_lookup_m _ _ _ _ _ _ Hs Hi) as (t & t' & Ht & _ & Hf).
    rewrite list_lookup_imap in Ht.
    destruct (ships w !! i) as [si|]; [|discriminate]. injection Ht as <-.
    destruct (ship_thread_signals i si tr t' (j, ev) Hf Hx) as (Hij & HD & HL).
    simpl in Hij, HD, HL. subst i.
    apply signals_set_concat. exists tr.
    split; [apply list_elem_of_In; eapply list_elem_of_lookup_2; exact Hi|].
    destruct Hev as [[-> ->]|[-> ->]]; auto. }
  split; intros H; apply is_set_ship_after in H; apply is_set_ship_after;
    right; (destruct H as [H|H]; [rewrite Hs0 in H; discriminate|]);
    apply Hiff; apply Hiff in H.
  - apply (Hord Departed LastCall); auto.
  - apply (Hord LastCall Arrived); auto.
Qed.

(** X16. At every moment of a day, whatever the schedule, for every ship that
    started with no signal set: if [departed] is set, so is [last_call],
    and if [last_call] is set, so is [arrived].  No passenger and no
    other ship sets them. *)
Theorem signals_stay_in_order (fuel : nat) (w : World) (roster : list Passenger)
    (sched : list Turn) (j : nat) :
  forallb attached roster = true ->
  forallb unsignalled (ships w) = true ->
  let w' := world (sys_run (start_day fuel w roster) sched) in
  (signal w' j Departed = true -> signal w' j LastCall = true) /\
  (signal w' j LastCall = true -> signal w' j Arrived = true).
Proof. exact (day_signals fuel w roster sched j). Qed.

Lemma signals_stay_in_order_witness :
  signal (world (sys_run small_day day_with_boarding)) 0 Arrived = true.
Proof.
  exact (proj2 (signals_stay_in_order 3 small_world small_roster day_with_boarding 0
                  eq_refl eq_refl) eq_refl).
Defined.

(** ** Setting up the day *)

Lemma board_passengers_spec (c : Casting) (sid : Z) (idx : nat) :
  forall (n : nat) (i : Z) (w : World) (s0 : CruiseShip),
    ships w !! idx = Some s0 ->
    let r := board_passengers c sid idx n i w in
    length (fst r) = n /\
    forallb attached (fst r) = true /\
    Forall (fun p => ship p = Some idx /\ ship_id p = sid) (fst r) /\
    List.NoDup (map passenger_id (fst r)) /\
    Forall (fun x => sid * 1000 + i <= x < sid * 1000 + i + Z.of_nat n)
      (map passenger_id (fst r)) /\
    (forall key,
        stats (snd r) !! key =
        (fun v => v + Z.of_nat (if String.eqb key "total_passengers" then n else 0))
          <$> (stats w !! key)) /\
    locations (snd r) = locations w /\
    stranded_passengers (snd r) = stranded_passengers w /\
    dead_passengers (snd r) = dead_passengers w /\
    exists s' : CruiseShip,
      ships (snd r) = <[idx := s']> (ships w) /\
      cs_ship_id s' = cs_ship_id s0 /\
      observers s' = observers s0 ++ map passenger_id (fst r) /\
      unsignalled s' = unsignalled s0.
Proof.
  induction n as [|n IH]; intros i w s0 Hidx.
  - cbn. repeat split; try constructor.
    + intros key. destruct (stats w !! key); simpl; [f_equal|reflexivity].
      destruct (String.eqb key "total_passengers"); lia.
    + exists s0. rewrite app_nil_r, list_insert_id by exact Hidx. auto.
  - cbn [board_passengers PassengerFactory_create attach_to_ship].
    set (pid := sid * 1000 + i).
    set (p := set_ship (Some idx)
                (new_Passenger pid sid (drawn_age_group c pid) (drawn_gender c pid)
                   (drawn_strength c pid))).
    cbn [ships set_stats passenger_id new_Passenger]. rewrite Hidx. cbv beta iota zeta.
    set (w2 := set_ships (<[idx := attach pid s0]> (ships w))
                 (set_stats (incr "total_passengers" (stats w)) w)).
    assert (Hidx2 : ships w2 !! idx = Some (attach pid s0)).
    { subst w2. cbn. apply list_lookup_insert_eq. eapply lookup_lt_Some; exact Hidx. }
    specialize (IH (i + 1) w2 (attach pid s0) Hidx2).
    destruct (board_passengers c sid idx n (i + 1) w2) as [ps w'].
    cbn [fst snd] in IH |- *.
    destruct IH as (Hlen & Hatt & Hship & Hsort & Hrange & Hstats & Hlocs & Hstr & Hdead
                    & s' & Hships & Hid & Hobs & Hsig).
    split; [simpl; lia|].
    split; [simpl; exact Hatt|].
    split; [constructor; [split; reflexivity | exact Hship]|].
    split; [|split; [|split; [|split; [|split; [|split]]]]].
    + simpl. constructor; [|exact Hsort].
      intros Hin. rewrite Forall_forall in Hrange.
      apply list_elem_of_In in Hin. specialize (Hrange _ Hin). subst pid. lia.
    + simpl. constructor; [subst pid; lia|].
      eapply Forall_impl; [exact Hrange|]. intros x Hx. simpl in Hx. lia.
    + intros key. rewrite Hstats. subst w2. cbn [stats set_ships set_stats].
      change (incr "total_passengers" (stats w))
        with (stats (perform (EDo (Incr "total_passengers")) w)).
      rewrite perform_stats. unfold incr_count. cbn [List.filter is_incr].
      rewrite (String.eqb_sym "total_passengers" key).
      destruct (stats w !! key); simpl; [f_equal|reflexivity].
      destruct (String.eqb key "total_passengers"); simpl length; lia.
    + rewrite Hlocs. reflexivity.
    + rewrite Hstr. reflexivity.
    + rewrite Hdead. reflexivity.
    + exists s'. rewrite Hships. subst w2. cbn [ships set_ships set_stats].
      rewrite list_insert_insert_eq.
      split; [reflexivity|]. split; [exact Hid|].
      split; [rewrite Hobs; simpl; rewrite <- app_assoc; reflexivity | exact Hsig].
Qed.

Lemma launch_ships_spec (c : Casting) (np : nat) :
  Z.of_nat np <= 1000 ->
  forall (ns : nat) (sid : Z) (w : World),
    let r := launch_ships c ns np sid w in
    length (fst r) = (ns * np)%nat /\
    forallb attached (fst r) = true /\
    List.NoDup (map passenger_id (fst r)) /\
    Forall (fun x => sid * 1000 <= x < (sid + Z.of_nat ns) * 1000)
      (map passenger_id (fst r)) /\
    (forall key,
        stats (snd r) !! key =
        (fun v => v + Z.of_nat (if String.eqb key "total_passengers"
                                then ns * np else 0))
          <$> (stats w !! key)) /\
    locations (snd r) = locations w /\
    stranded_passengers (snd r) = stranded_passengers w /\
    dead_passengers (snd r) = dead_passengers w /\
    length (ships (snd r)) = (length (ships w) + ns)%nat /\
    (forall k, (k < length (ships w))%nat -> ships (snd r) !! k = ships w !! k) /\
    forallb unsignalled (ships (snd r)) = forallb unsignalled (ships w) /\
    Forall (enrolled (snd r)) (fst r).
Proof.
  intros Hnp. induction ns as [|ns IH]; intros sid w.
  - cbn. repeat split; try constructor; try lia.
    intros key. destruct (stats w !! key); simpl; [f_equal|reflexivity].
    destruct (String.eqb key "total_passengers"); lia.
  - cbn [launch_ships]. cbv zeta.
    set (s := new_CruiseShip sid (arrival_hour c sid)).
    set (idx := length (ships w)).
    set (w1 := set_ships (ships w ++ [s]) w).
    assert (Hidx : ships w1 !! idx = Some s)
      by (subst w1 idx; cbn; apply list_lookup_middle; reflexivity).
    pose proof (board_passengers_spec c sid idx np 0 w1 s Hidx) as HB.
    destruct (board_passengers c sid idx np 0 w1) as [ps w2].
    cbn [fst snd] in HB.
    destruct HB as (Blen & Batt & Bship & Bnd & Brange & Bstats & Blocs & Bstr & Bdead
                    & s' & Bships & Bid & Bobs & Bsig).
    assert (Hships2 : ships w2 = ships w ++ [s']).
    { rewrite Bships. subst w1 idx. cbn [ships set_ships].
      rewrite <- (Nat.add_0_r (length (ships w))). rewrite insert_app_r. reflexivity. }
    specialize (IH (sid + 1) w2).
    destruct (launch_ships c ns np (sid + 1) w2) as [qs w3].
    cbn [fst snd] in IH |- *.
    destruct IH as (Llen & Latt & Lnd & Lrange & Lstats & Llocs & Lstr & Ldead
                    & Lships & Lkeep & Lsig & Lenr).
    split; [rewrite length_app; lia|].
    split; [rewrite forallb_app, Batt, Latt; reflexivity|].
    split; [|split; [|split; [|split; [|split; [|split; [|split; [|split; [|split]]]]]]]].
    + rewrite map_app. apply List.NoDup_app; [exact Bnd | exact Lnd|].
      intros x Hx Hx'. rewrite Forall_forall in Brange, Lrange.
      apply list_elem_of_In in Hx, Hx'.
      specialize (Brange _ Hx). specialize (Lrange _ Hx'). simpl in *. lia.
    + rewrite map_app. apply Forall_app. split.
      * eapply Forall_impl; [exact Brange|]. intros x Hx. simpl in Hx. lia.
      * eapply Forall_impl; [exact Lrange|]. intros x Hx. simpl in Hx. lia.
    + intros key. rewrite Lstats, Bstats. subst w1. cbn [stats set_ships].
      destruct (stats w !! key); simpl; [f_equal|reflexivity].
      destruct (String.eqb key "total_passengers"); lia.
    + rewrite Llocs, Blocs. reflexivity.
    + rewrite Lstr, Bstr. reflexivity.
    + rewrite Ldead, Bdead. reflexivity.
    + rewrite Lships, Hships2, length_app. simpl. lia.
    + intros k Hk. rewrite Lkeep by (rewrite Hships2, length_app; simpl; lia).
      rewrite Hships2. apply lookup_app_l. exact Hk.
    + rewrite Lsig, Hships2, forallb_app. simpl. rewrite Bsig. subst s. cbn.
      rewrite !andb_true_r. reflexivity.
    + apply Forall_app. split; [|exact Lenr].
      apply Forall_forall. intros p Hp.
      rewrite Forall_forall in Bship. destruct (Bship p Hp) as [Hsp Hsid].
      exists idx, s'. split; [exact Hsp|]. split; [|split].
      * rewrite Lkeep by (rewrite Hships2, length_app; simpl; subst idx; lia).
        rewrite Hships2. apply list_lookup_middle. reflexivity.
      * rewrite Bid, Hsid. reflexivity.
      * rewrite Bobs. apply in_or_app. right. apply in_map.
        apply list_elem_of_In. exact Hp.
Qed.

(** ** The day [main] runs *)

Lemma run_outcome_enrols_nobody (fuel : nat) (self : Passenger) (sid : nat)
    (tr : list event) (r : result Passenger) :
  run_outcome fuel self sid tr r -> incr_count "total_passengers" tr = 0%nat.
Proof.
  intros H.
  assert (Hw : forall pre, forallb wander_event pre = true ->
                           incr_count "total_passengers" pre = 0%nat)
    by (intros; apply wander_incr; [reflexivity | assumption]).
  destruct H as [tr Hpre Hc|pre st li key p Hpre Hst Hp Hd Hb Hl Hk
                |pre p Hpre Hp Hd Hb|pre rt cur p Hpre Hc Hd Hb Hr];
    rewrite ?incr_count_app, ?(Hw _ Hpre); try reflexivity.
  - rewrite (Hw st (stay_event_wander st Hst)).
    destruct Hk as [-> | ->]; reflexivity.
  - destruct Hr as [delay Hdl|delay Hdl]; destruct Hdl;
      destruct (on_board _); reflexivity.
Qed.

Lemma passenger_threads_enrol_nobody (fuel : nat) (locs : list Location) :
  forall (roster : list Passenger) (hp : list (list event))
         (threads : list (prog Passenger)),
    forallb attached roster = true ->
    Forall3 follows (map (run fuel locs) roster) hp threads ->
    incr_count "total_passengers" (concat hp) = 0%nat.
Proof.
  induction roster as [|p roster IH]; intros hp threads Hatt H.
  - inversion H; subst. reflexivity.
  - simpl in Hatt. apply andb_prop in Hatt as [Hp Hatt].
    inversion H as [|t h th ts hp' ths Hf Hrest]; subst.
    destruct (attached_spec p Hp) as (sid & Hs & Hd & Hb & Hl).
    destruct (follows_prefix _ _ _ _ Hf (run_runs fuel locs p sid Hs Hd Hb Hl))
      as (tr' & r & Hout).
    apply run_outcome_enrols_nobody in Hout. rewrite incr_count_app in Hout.
    simpl. rewrite incr_count_app, (IH hp' ths Hatt Hrest). lia.
Qed.

(** During the day nobody is added to [total_passengers], and no thread
    appears or disappears. *)
Lemma day_headcount (fuel : nat) (w : World) (roster : list Passenger)
    (sched : list Turn) :
  forallb attached roster = true ->
  let s := sys_run (start_day fuel w roster) sched in
  counter "total_passengers" s = stats w !! "total_passengers" /\
  length (passenger_threads s) = length roster /\
  length (ship_threads s) = length (ships w).
Proof.
  intros Hatt s.
  destruct (sys_run_ledger sched (start_day fuel w roster)) as (hp & hs & Hp & Hs & Hg).
  fold s in Hp, Hs. cbn [start_day passenger_threads ship_threads] in Hp, Hs.
  split; [|split].
  - unfold counter, s. rewrite sys_run_replay, replay_stats.
    rewrite (incr_count_permutation _ _ _ Hg), incr_count_app.
    rewrite (passenger_threads_enrol_nobody fuel (locations w) roster hp _ Hatt Hp).
    rewrite (ship_threads_count_nothing _ _ _ _ Hs).
    cbn [start_day world]. destruct (stats w !! "total_passengers"); simpl; [|reflexivity].
    f_equal. lia.
  - rewrite <- (Forall3_length_lr _ _ _ _ Hp), length_map. reflexivity.
  - rewrite <- (Forall3_length_lr _ _ _ _ Hs), length_imap. reflexivity.
Qed.

Lemma day_end_registries (fuel : nat) (w0 : World) (roster : list Passenger)
    (sched : list Turn) (finals : list Passenger) :
  forallb attached roster = true ->
  stranded_passengers w0 = [] -> dead_passengers w0 = [] ->
  map final (passenger_threads (sys_run (start_day fuel w0 roster) sched))
    = map Some finals ->
  let s := sys_run (start_day fuel w0 roster) sched in
  Permutation (stranded_passengers (world s)) (List.filter is_stranded finals) /\
  Permutation (dead_passengers (world s)) (List.filter is_dead finals) /\
  Permutation
    (List.filter is_boarded finals ++ List.filter is_stranded finals ++
     List.filter is_dead finals) finals /\
  Forall2 same_person roster finals.
Proof.
  intros Hatt Hs0 Hd0 Hfin s.
  pose proof (day_invariant_run fuel (locations w0) roster sched _
                (day_invariant_start fuel w0 roster Hs0 Hd0)) as Hinv.
  fold s in Hinv. destruct Hinv as (hist & Hroster & Hthreads & Hstr & Hdead & _).
  pose proof (finals_returned _ _ Hfin) as Hret. fold s in Hret.
  assert (Hfol : Forall2 (fun h f => follows (run fuel (locations w0) (fst h))
                                       (snd h) (Ret f)) hist finals).
  { clear - Hthreads Hret. revert finals Hret.
    induction Hthreads as [|h th hist threads Hh _ IH]; intros finals Hret;
      inversion Hret; subst; constructor; auto. }
  rewrite <- Hroster in Hatt.
  destruct (finished_partition fuel (locations w0) hist finals Hatt Hfol)
    as (P1 & P2 & P3 & P4).
  rewrite Hroster in P1. rewrite P3 in Hstr. rewrite P4 in Hdead.
  split; [exact Hstr|]. split; [exact Hdead|].
  split; [apply outcome_partition; exact P2 | exact P1].
Qed.

(** X17. The two loops of [setup_day], for any number of ships and at most
    1000 passengers a ship: the roster has one passenger per ship and
    seat, all as the constructor left them and attached; their ids
    [sid * 1000 + i] are distinct; every passenger's ship is a ship of
    the island that carries its [ship_id] and has it among its
    observers; [total_passengers] has grown by the size of the roster;
    the new ships have no signal set, and the locations are untouched. *)
Theorem setup_enrols_the_roster (c : Casting) (ns np : nat) (sid : Z) (w : World) :
  Z.of_nat np <= 1000 ->
  let roster := fst (launch_ships c ns np sid w) in
  let w' := snd (launch_ships c ns np sid w) in
  length roster = (ns * np)%nat /\
  forallb attached roster = true /\
  List.NoDup (map passenger_id roster) /\
  Forall (enrolled w') roster /\
  stats w' !! "total_passengers" =
    (fun v => v + Z.of_nat (ns * np)) <$> (stats w !! "total_passengers") /\
  length (ships w') = (length (ships w) + ns)%nat /\
  forallb unsignalled (ships w') = forallb unsignalled (ships w) /\
  locations w' = locations w.
Proof.
  intros Hnp roster w'.
  destruct (launch_ships_spec c np Hnp ns sid w)
    as (Llen & Latt & Lnd & _ & Lstats & Llocs & _ & _ & Lships & _ & Lsig & Lenr).
  repeat split; try assumption. apply (Lstats "total_passengers").
Qed.

Lemma setup_enrols_the_roster_witness :
  length small_roster = 2%nat /\ Forall (enrolled small_world) small_roster.
Proof.
  pose proof (setup_enrols_the_roster small_casting 1 2 1 initial_world)
    as (Hlen & _ & _ & Henr & _); [vm_compute; discriminate|].
  split; [exact Hlen | exact Henr].
Defined.

(** X18. The day [main] sets up, for every casting and every schedule.  At
    every moment: there are 250 passenger threads and 5 ship threads;
    [total_passengers] reads 250; every location holds between 0 and
    its capacity; for every ship [departed] implies [last_call] and
    [last_call] implies [arrived].  Once every passenger thread has
    returned: boarded, stranded registry and dead registry add up to
    250, and every location holds as many slots as passengers died
    there. *)
Theorem island_day (fuel : nat) (c : Casting) (sched : list Turn) :
  let s := sys_run (setup_day fuel c) sched in
  length (passenger_threads s) = 250%nat /\
  length (ship_threads s) = 5%nat /\
  counter "total_passengers" s = Some 250 /\
  (forall loc l, locations (world s) !! loc = Some l ->
                 0 <= count l <= max_capacity l) /\
  (forall j,
      (signal (world s) j Departed = true -> signal (world s) j LastCall = true) /\
      (signal (world s) j LastCall = true -> signal (world s) j Arrived = true)) /\
  (forall finals : list Passenger,
      map final (passenger_threads s) = map Some finals ->
      (length (List.filter is_boarded finals) +
       length (stranded_passengers (world s)) +
       length (dead_passengers (world s)))%nat = 250%nat /\
      (forall loc l, locations (world s) !! loc = Some l ->
                     count l = Z.of_nat (length (List.filter (died_at loc) finals)))).
Proof.
  unfold setup_day.
  change (Z.to_nat NUM_SHIPS_PER_DAY) with 5%nat.
  change (Z.to_nat PASSENGERS_PER_SHIP) with 50%nat.
  assert (Hnp : Z.of_nat 50 <= 1000) by lia.
  pose proof (launch_ships_spec c 50 Hnp 5 1 initial_world) as HL.
  destruct (launch_ships c 5 50 1 initial_world) as [roster w].
  cbn [fst snd] in HL.
  destruct HL as (Llen & Latt & _ & _ & Lstats & Llocs & Lstr & Ldead & Lships & _
                  & Lsig & _).
  change (5 * 50)%nat with 250%nat in *.
  change (stats initial_world) with initial_stats in Lstats.
  change (locations initial_world) with Island_locations in Llocs.
  change (stranded_passengers initial_world) with (@nil Passenger) in Lstr.
  change (dead_passengers initial_world) with (@nil Passenger) in Ldead.
  change (ships initial_world) with (@nil CruiseShip) in Lships, Lsig.
  cbn [length forallb Nat.add] in Lships, Lsig.
  assert (Htotal : stats w !! "total_passengers" = Some 250)
    by (rewrite Lstats; vm_compute; reflexivity).
  assert (Hcap : within_capacity w).
  { unfold within_capacity. rewrite Llocs.
    repeat constructor; vm_compute; discriminate. }
  assert (Hempty : forall loc l, locations w !! loc = Some l -> count l = 0).
  { rewrite Llocs. intros loc l Hl.
    assert (Hall : Forall (fun l => count l = 0) Island_locations)
      by (repeat constructor).
    exact (Forall_lookup_1 _ _ _ _ Hall Hl). }
  set (s := sys_run (start_day fuel w roster) sched).
  destruct (day_headcount fuel w roster sched Latt) as (Hcount & Hpt & Hst).
  fold s in Hcount, Hpt, Hst.
  destruct (sys_run_within_capacity (start_day fuel w roster) sched Hcap)
    as [Hcap' Hstatic].
  fold s in Hcap', Hstatic.
  assert (Hsame : forall loc l, locations (world s) !! loc = Some l ->
                                exists l0, locations w !! loc = Some l0).
  { intros loc l Hl. apply lookup_lt_is_Some.
    apply lookup_lt_Some in Hl.
    apply (f_equal length) in Hstatic. rewrite !length_map in Hstatic.
    cbn [start_day world] in Hstatic. lia. }
  split; [rewrite Hpt; exact Llen|].
  split; [rewrite Hst; exact Lships|].
  split; [rewrite Hcount; exact Htotal|].
  split; [|split].
  - intros loc l Hl. destruct (Hsame loc l Hl) as [l0 Hl0].
    destruct (day_occupancy fuel w roster sched loc l0 Latt Hl0) as (n & Ho & _ & _).
    fold s in Ho. unfold occupancy in Ho. rewrite Hl in Ho. simpl in Ho.
    injection Ho as Ho. rewrite (Hempty loc l0 Hl0) in Ho.
    pose proof (Forall_lookup_1 _ _ _ _ Hcap' Hl) as Hle. simpl in Hle. lia.
  - intros j. exact (day_signals fuel w roster sched j Latt Lsig).
  - intros finals Hfin.
    destruct (day_end_registries fuel w roster sched finals Latt Lstr Ldead Hfin)
      as (Rstr & Rdead & Rall & Rsame).
    fold s in Rstr, Rdead.
    split.
    + rewrite (Permutation_length Rstr), (Permutation_length Rdead).
      rewrite <- Llen, (Forall2_length _ _ _ Rsame), <- (Permutation_length Rall).
      rewrite !length_app. lia.
    + intros loc l Hl. destruct (Hsame loc l Hl) as [l0 Hl0].
      destruct (day_occupancy fuel w roster sched loc l0 Latt Hl0) as (n & Ho & _ & Hn).
      fold s in Ho, Hn. unfold occupancy in Ho. rewrite Hl in Ho. simpl in Ho.
      injection Ho as Ho. rewrite (Hempty loc l0 Hl0), (Hn finals Hfin) in Ho. lia.
Qed.

Lemma run_outcome_registers (fuel : nat) (self : Passenger) (sid : nat)
    (tr : list event) (r : result Passenger) (p : Passenger) :
  run_outcome fuel self sid tr r -> In p (appended_stranded tr) ->
  same_person self p /\ is_stranded p = true.
Proof.
  intros H Hp. destruct r as [f| |exn].
  - destruct (run_outcome_finished fuel self sid tr f H) as (Hsame & _ & Hstr & _).
    rewrite Hstr in Hp. unfold is_stranded.
    destruct (negb (on_board f) && negb (is_dead f)) eqn:E; [|destruct Hp].
    destruct Hp as [<-|[]]. split; assumption.
  - inversion H as [tr' Hw Hc| | |]; subst.
    destruct (wander_appends tr Hw) as [E _]. rewrite E in Hp. destruct Hp.
  - inversion H.
Qed.

(** Whoever is in the stranded registry, at any moment of the day, is a
    passenger of the roster, registered alive and off board. *)
Lemma registry_members (fuel : nat) (w : World) (roster : list Passenger)
    (sched : list Turn) (p : Passenger) :
  forallb attached roster = true ->
  stranded_passengers w = [] -> dead_passengers w = [] ->
  In p (stranded_passengers (world (sys_run (start_day fuel w roster) sched))) ->
  is_stranded p = true /\ exists q, In q roster /\ same_person q p.
Proof.
  intros Hatt Hs0 Hd0 Hp.
  pose proof (day_invariant_run fuel (locations w) roster sched _
                (day_invariant_start fuel w roster Hs0 Hd0)) as Hinv.
  destruct Hinv as (hist & Hroster & Hthreads & Hstr & _ & _).
  apply (Permutation_in _ Hstr) in Hp.
  apply in_concat in Hp as (l & Hl & Hpl).
  apply in_map_iff in Hl as ([q h] & <- & Hqh). cbn [snd] in Hpl.
  apply list_elem_of_In, list_elem_of_lookup_1 in Hqh as [i Hi].
  destruct (Forall2_lookup_l _ _ _ _ _ Hthreads Hi) as (th & _ & Hf).
  cbn [fst snd] in Hf.
  assert (Hq : In q roster).
  { rewrite <- Hroster. apply (in_map fst _ (q, h)).
    apply list_elem_of_In. eapply list_elem_of_lookup_2. exact Hi. }
  assert (Hqa : attached q = true)
    by (rewrite forallb_forall in Hatt; apply Hatt, Hq).
  destruct (attached_spec q Hqa) as (sid & Hs & Hd & Hb & Hl).
  destruct (follows_prefix _ _ _ _ Hf (run_runs fuel (locations w) q sid Hs Hd Hb Hl))
    as (tr' & r & Hout).
  destruct (run_outcome_registers fuel q sid (h ++ tr') r p Hout) as [Hsame Hstrd].
  { rewrite appended_stranded_app. apply in_or_app. left. exact Hpl. }
  split; [exact Hstrd|]. exists q. split; assumption.
Qed.

(** X19. [main] after the day: [run_hunger_games] passes the stranded
    registry to [HungerGames.run], whether or not every passenger
    thread has returned by then.  Whatever the schedule, the shuffle and
    the draws: there is one match fewer than entries of the registry;
    whoever fights or wins a match is a passenger of the roster that was
    registered alive and off board, so nobody who boarded or died takes
    part; and there is a survivor exactly if the registry is not
    empty. *)
Theorem only_the_stranded_fight (fuel : nat) (w : World) (roster : list Passenger)
    (sched : list Turn)
    (shuffle : list Passenger -> list Passenger) (draw : Z -> nat -> Z) :
  forallb attached roster = true ->
  stranded_passengers w = [] -> dead_passengers w = [] ->
  let stranded := stranded_passengers (world (sys_run (start_day fuel w roster) sched)) in
  Permutation stranded (shuffle stranded) ->
  let log := fst (HungerGames_run shuffle draw stranded) in
  let survivor := snd (HungerGames_run shuffle draw stranded) in
  length log = (length stranded - 1)%nat /\
  (forall m, In m log ->
     (is_stranded (fighter_a m) = true /\
      exists q, In q roster /\ same_person q (fighter_a m)) /\
     (is_stranded (fighter_b m) = true /\
      exists q, In q roster /\ same_person q (fighter_b m)) /\
     (winner m = fighter_a m \/ winner m = fighter_b m)) /\
  (survivor = None <-> stranded = []) /\
  (forall p, survivor = Some p ->
     In p stranded /\ is_stranded p = true /\
     exists q, In q roster /\ same_person q p).
Proof.
  intros Hatt Hs0 Hd0 stranded Hperm log survivor.
  assert (Hback : forall p, In p (shuffle stranded) -> In p stranded)
    by (intros p Hp; eapply Permutation_in; [symmetry; exact Hperm | exact Hp]).
  assert (Hmember : forall p, In p (shuffle stranded) ->
                              is_stranded p = true /\
                              exists q, In q roster /\ same_person q p)
    by (intros p Hp;
        apply (registry_members fuel w roster sched p Hatt Hs0 Hd0), Hback, Hp).
  pose proof (Permutation_length Hperm) as Hlen.
  destruct (tournament_rounds draw (length (shuffle stranded)) 0 (shuffle stranded) [])
    as (H1 & H2 & H3 & H4); [lia|].
  assert (Hrun : HungerGames_run shuffle draw stranded =
                 (snd (tournament (length (shuffle stranded)) draw 0
                         (shuffle stranded) []),
                  head (fst (tournament (length (shuffle stranded)) draw 0
                               (shuffle stranded) [])))).
  { unfold HungerGames_run.
    destruct (tournament _ draw 0 (shuffle stranded) []); reflexivity. }
  subst log survivor. rewrite Hrun. cbn [fst snd].
  assert (Hmatch : forall m,
             In m (snd (tournament (length (shuffle stranded)) draw 0
                          (shuffle stranded) [])) ->
             (is_stranded (fighter_a m) = true /\
              exists q, In q roster /\ same_person q (fighter_a m)) /\
             (is_stranded (fighter_b m) = true /\
              exists q, In q roster /\ same_person q (fighter_b m)) /\
             (winner m = fighter_a m \/ winner m = fighter_b m)).
  { intros m Hm. destruct (H4 m Hm) as [[]|(Ha & Hb & r & Hr)].
    split; [apply Hmember, Ha|]. split; [apply Hmember, Hb|].
    rewrite Hr. unfold fight. destruct (a_wins (fighter_a m) r); auto. }
  split; [rewrite H2, <- Hlen; simpl; lia|]. split; [exact Hmatch|].
  destruct (fst (tournament (length (shuffle stranded)) draw 0 (shuffle stranded) []))
    as [|p rest] eqn:Erem.
  - cbn [length] in H1.
    assert (Hz : length stranded = 0%nat) by lia.
    split; [split; [intros _; apply length_zero_iff_nil; exact Hz | reflexivity]|].
    intros q Hq. discriminate.
  - split.
    + split; [discriminate|]. intros Hnil.
      rewrite <- Hlen, Hnil in H1. simpl in H1. lia.
    + intros q Hq. simpl in Hq. injection Hq as <-.
      pose proof (H3 p (or_introl eq_refl)) as Hin.
      destruct (Hmember p Hin) as [Hstr Hq].
      split; [apply Hback, Hin|]. split; assumption.
Qed.

Lemma only_the_stranded_fight_witness :
  map passenger_id
    (stranded_passengers (world (sys_run small_day day_with_two_stranded))) =
    [1000; 1001] /\
  length (fst (HungerGames_run (fun l => l) (fun total _ => total)
                 (stranded_passengers
                    (world (sys_run small_day day_with_two_stranded))))) = 1%nat /\
  Forall (fun m => is_stranded (fighter_a m) = true /\
                   is_stranded (fighter_b m) = true /\
                   (winner m = fighter_a m \/ winner m = fighter_b m))
    (fst (HungerGames_run (fun l => l) (fun total _ => total)
            (stranded_passengers (world (sys_run small_day day_with_two_stranded))))).
Proof.
  pose proof (only_the_stranded_fight 3 small_world small_roster day_with_two_stranded
                (fun l => l) (fun total _ => total) eq_refl eq_refl eq_refl
                (Permutation_refl _)) as (_ & Hm & _).
  split; [vm_compute; reflexivity|]. split; [vm_compute; reflexivity|].
  apply List.Forall_forall. intros m Hin.
  destruct (Hm m Hin) as ((Ha & _) & (Hb & _) & Hw).
  split; [exact Ha|]. split; [exact Hb | exact Hw].
Defined.

(** ** The incidents of a stay *)

Lemma incremented_app (tr tr' : list event) :
  incremented (tr ++ tr') = incremented tr ++ incremented tr'.
Proof. apply omap_app. Qed.

Lemma stay_event_incremented (tr : list event) :
  forallb stay_event tr = true -> incremented tr = [].
Proof.
  induction tr as [|e tr IH]; simpl; [reflexivity|].
  intros H. apply andb_prop in H as [He Htr]. unfold incremented in *. simpl.
  rewrite (IH Htr). destruct e as [[]| |[]| |]; simpl in *; try discriminate; reflexivity.
Qed.

Ltac table_leaf :=
  cbn [incremented omap app]; 
  first [ left; repeat split; reflexivity
        | right; eexists; split; [reflexivity|]; split;
          [cbn; tauto | split; reflexivity] ].

Lemma stay_in_activity_incident (fuel : nat) (self : Passenger) (sid li : nat) :
  is_dead self = false -> current_location self = Some li -> ship self = Some sid ->
  (li < 8)%nat ->
  all_runs (stay_in_activity fuel Island_locations self) (one_incident li self).
Proof.
  intros Hd Hl Hs Hli. unfold stay_in_activity. rewrite Hd, Hl.
  cbn [bind ask_f all_runs]. intros t0.
  apply all_runs_bind. eapply all_runs_mono; [|apply (stay_wait_runs sid); assumption].
  intros tr r [Hst [->|[-> Hf]]];
    [|cbn [one_incident incremented omap];
      change (omap _ tr) with (incremented tr);
      apply stay_event_incremented, Hst].
  pose proof (stay_event_incremented tr Hst) as Hnone.
  assert (Hlift : forall (t : prog Passenger),
             all_runs t (fun tr' r' => one_incident li self tr' r') ->
             all_runs t (fun tr' r' => one_incident li self (EF Now t0 :: tr ++ tr') r')).
  { intros t. apply all_runs_mono. intros tr' r' H.
    assert (E : incremented (EF Now t0 :: tr ++ tr') = incremented tr')
      by (change (EF Now t0 :: tr ++ tr') with ([EF Now t0] ++ tr ++ tr');
          rewrite !incremented_app, Hnone; reflexivity).
    destruct r' as [p| |exn]; unfold one_incident in *; rewrite ?E; exact H. }
  apply Hlift. clear Hlift Hnone Hst tr.
  destruct li as [|[|[|[|[|[|[|[|li]]]]]]]]; try lia;
    unfold stay_incidents, roll; cbn -[PrimFloat.ltb];
    repeat first
      [ progress intros
      | match goal with
        | |- context [if (?r <? ?p)%float then _ else _] =>
            destruct (r <? p)%float; cbn -[PrimFloat.ltb]
        end
      | rewrite Hd
      | table_leaf ].
Qed.

(** X20. A stay at one of the island's eight locations, for a living
    passenger, when it returns: it increments at most one counter, and
    only one that belongs to the location: [intoxicated] at the two
    restaurants, [drunk] at the two bars, [popup_delay] at the shopping
    street, [died_cliff] or [lost_hiking] at the hiking excursion,
    [died_shark] or [snorkel_delay] at the snorkeling excursion,
    [fell_asleep] at the beach.  The passenger ends dead exactly if the
    counter is [died_cliff] or [died_shark], and drunk exactly if it was
    drunk before or the counter is [drunk]. *)
Theorem stay_has_one_incident (fuel : nat) (self : Passenger) (sid li : nat)
    (o : nat -> Answer) (pos : nat) (p : Passenger) :
  is_dead self = false -> current_location self = Some li -> ship self = Some sid ->
  (li < 8)%nat ->
  snd (outcome_at o pos (stay_in_activity fuel Island_locations self)) = Finished p ->
  let tr := fst (outcome_at o pos (stay_in_activity fuel Island_locations self)) in
  (incremented tr = [] /\ is_dead p = false /\ was_drunk p = was_drunk self) \/
  (exists key,
      incremented tr = [key] /\ In key (incident_keys li) /\
      is_dead p = (String.eqb key "died_cliff" || String.eqb key "died_shark") /\
      was_drunk p = (String.eqb key "drunk" || was_drunk self)).
Proof.
  intros Hd Hl Hs Hli Hp tr.
  pose proof (all_runs_at _ _ o pos (stay_in_activity_incident fuel self sid li Hd Hl Hs Hli))
    as H.
  rewrite Hp in H. exact H.
Qed.

Lemma stay_has_one_incident_witness :
  incremented (fst (outcome_at calm_oracle 0
                      (stay_in_activity 3 Island_locations beach_goer))) = ["fell_asleep"].
Proof.
  destruct (stay_has_one_incident 3 beach_goer 0 7 calm_oracle 0 beach_stay_result
              eq_refl eq_refl eq_refl (le_n 8) eq_refl)
    as [(H & _)|(key & H & _)]; [discriminate H | reflexivity].
Defined.


(** * The return phase *)

Lemma return_to_ship_steps (cur : Passenger) (sid : nat) (o : nat -> Answer) (pos : nat) :
  is_dead cur = false -> ship cur = Some sid ->
  exists (delay : list event) (departed : bool),
    reaction_delay cur delay /\ (delay = [] \/ was_drunk cur = true) /\
    outcome_at o pos (return_to_ship cur) =
      (delay ++ [line "[RETURN]" cur; EDo (Sleep 0.125%float);
                 EB (IsSet sid Departed) departed;
                 EDo (Incr (if departed then "stranded" else "boarded"));
                 line (if departed then "[MISS]" else "[BOARD]") cur],
       Finished (if departed then cur else set_on_board true cur)).
Proof.
  intros Hd Hs.
  pose proof (all_runs_at _ _ o pos (return_to_ship_runs cur sid Hd Hs)) as (p & Hr & Hph).
  destruct (outcome_at o pos (return_to_ship cur)) as [tr r] eqn:E.
  cbn [fst snd] in Hr, Hph. subst r.
  destruct Hph as [delay Hdl|delay Hdl].
  - exists delay, false. split; [exact Hdl|].
    split; [destruct Hdl; auto | reflexivity].
  - exists delay, true. split; [exact Hdl|].
    split; [destruct Hdl; auto | reflexivity].
Qed.

Lemma run_ends_by_departure_or_return (fuel : nat) (self : Passenger) (sid : nat)
    (tr : list event) (p : Passenger) :
  run_outcome fuel self sid tr (Finished p) -> is_dead p = false ->
  (on_board p = true /\ count_return_lines tr = 1%nat /\
   incr_count "boarded" tr = 1%nat /\ incr_count "stranded" tr = 0%nat /\
   appended_stranded tr = []) \/
  (on_board p = false /\ appended_stranded tr = [p] /\
   incr_count "boarded" tr = 0%nat /\
   incr_count "stranded" tr = count_return_lines tr).
Proof.
  intros H Halive.
  assert (Hw : forall key pre,
             mem key ["boarded"; "stranded"; "died_cliff"; "died_shark";
                      "total_passengers"] = true ->
             forallb wander_event pre = true -> incr_count key pre = 0%nat)
    by (intros; apply wander_incr; assumption).
  inversion H as [|pre st li key q Hpre Hst Hp Hd Hb Hl Hk
                 |pre q Hpre Hp Hd Hb|pre rt cur q Hpre Hc Hd Hb Hr]; subst.
  - congruence.
  - right. destruct (wander_appends pre Hpre) as [Ea _].
    rewrite !incr_count_app, !count_return_lines_app, !appended_stranded_app.
    rewrite !(Hw _ pre), (wander_count_return pre Hpre), Ea by (assumption || reflexivity).
    repeat split; try reflexivity. exact Hb.
  - destruct (wander_appends pre Hpre) as [Ea _].
    rewrite !incr_count_app, !count_return_lines_app, !appended_stranded_app.
    rewrite !(Hw _ pre), (wander_count_return pre Hpre), Ea by (assumption || reflexivity).
    inversion Hr as [delay Hdl|delay Hdl]; subst.
    + left. cbn [on_board set_on_board].
      rewrite !incr_count_app, !count_return_lines_app, !appended_stranded_app.
      destruct Hdl; repeat split; reflexivity.
    + right. rewrite Hb.
      rewrite !incr_count_app, !count_return_lines_app, !appended_stranded_app.
      destruct Hdl; rewrite ?Hd; repeat split; reflexivity.
Qed.

(** C5. [return_to_ship], for any living passenger of the ship and
    whatever the draws: the reaction delay first, present only for a
    passenger that was drunk; then the [RETURN] line and the taxi sleep
    of 0.125; then one read of the ship's departed signal; if it is not
    set the passenger is on board and [boarded] goes up by one, if it is
    set [stranded] goes up by one.  In a run of a passenger's day the
    return phase occurs at most once, and when it occurs it is this
    sequence, followed, if the ship had departed, by the one append to
    the stranded registry.  A passenger that ends its day alive has
    either boarded through exactly one return phase, or is off board
    and registered as stranded exactly once, with [stranded] counted
    exactly if a return phase took place. *)
Theorem return_phase_once (fuel : nat) (locs : list Location) (self : Passenger)
    (sid : nat) (o : nat -> Answer) (w : World) :
  ship self = Some sid -> is_dead self = false -> on_board self = false ->
  current_location self = None ->
  let tr := trace_of o (run fuel locs self) in
  let r := result_of o (run fuel locs self) in
  (forall (cur : Passenger) (pos : nat),
      is_dead cur = false -> ship cur = Some sid ->
      exists (delay : list event) (departed : bool),
        reaction_delay cur delay /\ (delay = [] \/ was_drunk cur = true) /\
        outcome_at o pos (return_to_ship cur) =
          (delay ++ [line "[RETURN]" cur; EDo (Sleep 0.125%float);
                     EB (IsSet sid Departed) departed;
                     EDo (Incr (if departed then "stranded" else "boarded"));
                     line (if departed then "[MISS]" else "[BOARD]") cur],
           Finished (if departed then cur else set_on_board true cur))) /\
  (count_return_lines tr <= 1)%nat /\
  (count_return_lines tr = 1%nat ->
   exists (pre delay post : list event) (cur p : Passenger) (departed : bool),
     tr = pre ++ delay ++
          [line "[RETURN]" cur; EDo (Sleep 0.125%float);
           EB (IsSet sid Departed) departed] ++ post /\
     no_return_line pre = true /\
     reaction_delay cur delay /\ (delay = [] \/ was_drunk cur = true) /\
     r = Finished p /\
     if departed then
       on_board p = false /\
       post = [EDo (Incr "stranded"); line "[MISS]" p;
               EDo (AppendStranded p); line "[STRANDED]" p] /\
       stats (replay tr w) !! "stranded" = (fun v => v + 1) <$> (stats w !! "stranded") /\
       stats (replay tr w) !! "boarded" = stats w !! "boarded" /\
       stranded_passengers (replay tr w) = stranded_passengers w ++ [p]
     else
       on_board p = true /\
       post = [EDo (Incr "boarded"); line "[BOARD]" p] /\
       stats (replay tr w) !! "boarded" = (fun v => v + 1) <$> (stats w !! "boarded") /\
       stats (replay tr w) !! "stranded" = stats w !! "stranded" /\
       stranded_passengers (replay tr w) = stranded_passengers w) /\
  (forall p : Passenger,
      r = Finished p -> is_dead p = false ->
      (on_board p = true /\ count_return_lines tr = 1%nat /\
       incr_count "boarded" tr = 1%nat /\ incr_count "stranded" tr = 0%nat /\
       appended_stranded tr = []) \/
      (on_board p = false /\ appended_stranded tr = [p] /\
       incr_count "boarded" tr = 0%nat /\
       incr_count "stranded" tr = count_return_lines tr)).
Proof.
  intros Hs Hd Hb Hl tr r.
  split; [intros cur pos Hdc Hsc; apply return_to_ship_steps; assumption|].
  destruct (return_phase_shape fuel locs self sid o w Hs Hd Hb Hl) as [Hle Hshape].
  split; [exact Hle|]. split; [exact Hshape|].
  intros p Hr Halive.
  pose proof (all_runs_eval _ _ o 0%nat (run_runs fuel locs self sid Hs Hd Hb Hl)) as H.
  fold (trace_of o (run fuel locs self)) in H.
  fold (result_of o (run fuel locs self)) in H.
  fold tr in H. fold r in H. rewrite Hr in H.
  exact (run_ends_by_departure_or_return fuel self sid tr p H Halive).
Qed.

Lemma return_phase_once_witness :
  outcome_at boarding_oracle 15 (return_to_ship first_passenger) =
    ([line "[RETURN]" first_passenger; EDo (Sleep 0.125%float);
      EB (IsSet 0 Departed) false; EDo (Incr "boarded");
      line "[BOARD]" first_passenger],
     Finished (set_on_board true first_passenger)) /\
  count_return_lines (trace_of boarding_oracle (run 3 Island_locations first_passenger))
    = 1%nat /\
  incr_count "boarded" (trace_of boarding_oracle (run 3 Island_locations first_passenger))
    = 1%nat.
Proof.
  pose proof (return_phase_once 3 Island_locations first_passenger 0 boarding_oracle
                initial_world eq_refl eq_refl eq_refl eq_refl) as (HA & _ & _ & HD).
  split.
  - destruct (HA first_passenger 15%nat eq_refl eq_refl)
      as (delay & departed & Hdl & _ & E).
    rewrite E. inversion Hdl as [Hsober|r Hdrunk|r d Hdrunk]; try discriminate Hdrunk.
    vm_compute in E. destruct departed; [discriminate E | reflexivity].
  - destruct (HD boarding_result eq_refl eq_refl)
      as [(_ & Hc & Hi & _)|(Hoff & _)]; [split; assumption | discriminate Hoff].
Defined.


(** * Stranded means the ship has left *)

Lemma no_append_skip (sid : nat) (pre rest : list event) :
  forallb no_append pre = true ->
  (forall seen, stranded_after_departure sid seen rest = true) ->
  forall seen, stranded_after_departure sid seen (pre ++ rest) = true.
Proof.
  intros Hpre Hrest. induction pre as [|e pre IH]; intros seen; [apply Hrest|].
  simpl in Hpre. apply andb_prop in Hpre as [He Hpre].
  destruct e as [[l|d|loc pid|key|p|p|s ev]|s ev|[s [| |]|loc pid] [|]|q x|q n];
    try discriminate He; cbn [app stranded_after_departure]; apply IH; exact Hpre.
Qed.

Lemma wander_no_append (tr : list event) :
  forallb wander_event tr = true -> forallb no_append tr = true.
Proof.
  induction tr as [|e tr IH]; simpl; [reflexivity|].
  intros H. apply andb_prop in H as [He Htr]. rewrite (IH Htr), andb_true_r.
  destruct e as [[]| | | |]; simpl in *; try reflexivity; discriminate.
Qed.

Lemma stranded_after_departure_prefix (sid : nat) (h t : list event) :
  forall seen,
    stranded_after_departure sid seen (h ++ t) = true ->
    stranded_after_departure sid seen h = true.
Proof.
  induction h as [|e h IH]; intros seen H; [reflexivity|].
  destruct e as [[l|d|loc pid|key|p|p|s ev]|s ev|[s [| |]|loc pid] [|]|q x|q n];
    cbn [app stranded_after_departure] in *; try (apply IH; exact H).
  apply andb_prop in H as [Hs H]. apply andb_true_intro.
  split; [exact Hs | apply IH; exact H].
Qed.

Lemma stranded_after_departure_read (sid : nat) (p : Passenger) (h : list event) :
  forall seen,
    stranded_after_departure sid seen h = true ->
    In (EDo (AppendStranded p)) h ->
    seen = true \/ In (EB (IsSet sid Departed) true) h.
Proof.
  induction h as [|e h IH]; intros seen H Hin; [destruct Hin|].
  destruct Hin as [->|Hin].
  - cbn [stranded_after_departure] in H. apply andb_prop in H as [Hs _]. left. exact Hs.
  - assert (Hstep : forall seen',
               stranded_after_departure sid seen' h = true ->
               seen' = true \/ In (EB (IsSet sid Departed) true) (e :: h))
      by (intros seen' H'; destruct (IH seen' H' Hin); [left | right; right]; assumption).
    destruct e as [[l|d|loc pid|key|q|q|s ev]|s ev|[s [| |]|loc pid] [|]|q x|q n];
      cbn [stranded_after_departure] in H; try (apply Hstep; exact H).
    + apply andb_prop in H as [Hs _]. left. exact Hs.
    + destruct (IH _ H Hin) as [Hor|Hread]; [|right; right; exact Hread].
      apply orb_prop in Hor as [Hs|Heq]; [left; exact Hs|].
      apply Nat.eqb_eq in Heq. subst s. right. left. reflexivity.
Qed.

(** In every run of a passenger's day, the append to the stranded
    registry comes after a read of the ship's departed signal that
    answered [True]. *)
Lemma run_outcome_after_departure (fuel : nat) (self : Passenger) (sid : nat)
    (tr : list event) (r : result Passenger) :
  run_outcome fuel self sid tr r -> stranded_after_departure sid false tr = true.
Proof.
  intros H.
  destruct H as [tr Hw Hc|pre st li key p Hw Hst Hp Hd Hb Hl Hk
                |pre p Hw Hp Hd Hb|pre rt cur p Hw Hc Hd Hb Hr].
  - rewrite <- (app_nil_r tr). apply no_append_skip; [apply wander_no_append, Hw|].
    reflexivity.
  - apply no_append_skip; [apply wander_no_append, Hw|]. intros seen.
    cbn [app stranded_after_departure].
    apply no_append_skip;
      [apply wander_no_append, stay_event_wander, Hst | reflexivity].
  - apply no_append_skip; [apply wander_no_append, Hw|]. intros seen.
    cbn [app stranded_after_departure line]. rewrite Nat.eqb_refl, orb_true_r.
    reflexivity.
  - apply no_append_skip; [apply wander_no_append, Hw|]. intros seen.
    cbn [app stranded_after_departure].
    destruct Hr as [delay Hdl|delay Hdl].
    + cbn [on_board set_on_board]. rewrite app_nil_r.
      rewrite <- (app_nil_r (delay ++ _)).
      apply no_append_skip; [|reflexivity].
      destruct Hdl; reflexivity.
    + rewrite Hb. rewrite <- app_assoc.
      apply no_append_skip; [destruct Hdl; reflexivity|]. intros seen'.
      cbn [app stranded_after_departure line]. rewrite Nat.eqb_refl, orb_true_r.
      reflexivity.
Qed.

Lemma signal_kept (e : event) (w : World) (j : nat) (ev : Signal) :
  signal w j ev = true -> signal (perform e w) j ev = true.
Proof.
  unfold signal. rewrite perform_ships.
  destruct (ships w !! j) as [s|]; [|discriminate]. simpl. intros H.
  apply (proj2 (is_set_ship_after j ev [e] s)). left. exact H.
Qed.

Lemma replay_signal_kept (g : list event) :
  forall (w : World) (j : nat) (ev : Signal),
    signal w j ev = true -> signal (replay g w) j ev = true.
Proof.
  induction g as [|e g IH]; intros w j ev H; [exact H|].
  change (replay (e :: g) w) with (replay g (perform e w)).
  apply IH, signal_kept, H.
Qed.

(** A signal that a step has read as set is set ever after. *)
Lemma consistent_read (g : list event) :
  forall (w : World) (j : nat) (ev : Signal),
    consistent w g -> In (EB (IsSet j ev) true) g ->
    signal (replay g w) j ev = true.
Proof.
  induction g as [|e g IH]; intros w j ev Hc Hin; [destruct Hin|].
  destruct Hc as [Ha Hc]. change (replay (e :: g) w) with (replay g (perform e w)).
  destruct Hin as [->|Hin]; [|apply IH; assumption].
  apply replay_signal_kept. simpl in Ha. simpl. symmetry. exact Ha.
Qed.

Lemma appended_stranded_In (p : Passenger) (tr : list event) :
  In p (appended_stranded tr) <-> In (EDo (AppendStranded p)) tr.
Proof.
  unfold appended_stranded. induction tr as [|e tr IH]; simpl; [tauto|].
  destruct e as [[l|d|loc pid|key|q|q|s ev]|s ev|q b|q x|q n]; simpl;
    rewrite ?IH; try (split; [intros H; right; exact H | intros [H|H]; [discriminate H | exact H]]).
  split.
  - intros [->|H]; [left; reflexivity | right; exact H].
  - intros [H|H]; [injection H as ->; left; reflexivity | right; exact H].
Qed.

(** X12. Nobody is registered as stranded while their ship is still
    there: at every moment of a day, whatever the schedule, every
    passenger in the stranded registry belongs to a ship of the island
    whose departed signal is set.  The passenger's thread has read the
    signal as set before it made the entry, and a signal once set stays
    set. *)
Theorem stranded_means_departed (fuel : nat) (w : World) (roster : list Passenger)
    (sched : list Turn) (p : Passenger) :
  forallb attached roster = true ->
  stranded_passengers w = [] ->
  In p (stranded_passengers (world (sys_run (start_day fuel w roster) sched))) ->
  exists sid : nat,
    ship p = Some sid /\
    signal (world (sys_run (start_day fuel w roster) sched)) sid Departed = true.
Proof.
  intros Hatt Hs0 Hp.
  destruct (sys_run_ledger sched (start_day fuel w roster)) as (hp & hs & Hthr & Hsh & Hg).
  cbn [start_day passenger_threads ship_threads] in Hthr, Hsh.
  rewrite sys_run_replay in Hp |- *.
  rewrite replay_stranded in Hp. cbn [start_day world] in Hp |- *.
  rewrite Hs0 in Hp. simpl in Hp.
  apply appended_stranded_In in Hp.
  pose proof (Permutation_in _ Hg Hp) as Hin.
  apply in_app_or in Hin as [Hin|Hin].
  - apply in_concat in Hin as (h & Hh & Hph).
    apply list_elem_of_In, list_elem_of_lookup_1 in Hh as [i Hi].
    destruct (Forall3_lookup_m _ _ _ _ _ _ Hthr Hi) as (t & th & Ht & _ & Hf).
    rewrite list_lookup_fmap in Ht.
    destruct (roster !! i) as [q|] eqn:Hq; [|discriminate]. simpl in Ht.
    injection Ht as <-.
    assert (Hqa : attached q = true).
    { rewrite forallb_forall in Hatt. apply Hatt.
      apply list_elem_of_In. eapply list_elem_of_lookup_2. exact Hq. }
    destruct (attached_spec q Hqa) as (sid & Hsq & Hd & Hb & Hl).
    destruct (follows_prefix _ _ _ _ Hf (run_runs fuel (locations w) q sid Hsq Hd Hb Hl))
      as (tr' & r & Hout).
    destruct (run_outcome_registers fuel q sid (h ++ tr') r p Hout) as [Hsame _].
    { apply appended_stranded_In. apply in_or_app. left. exact Hph. }
    exists sid. split; [destruct Hsame as (_ & _ & _ & _ & _ & ->); exact Hsq|].
    pose proof (stranded_after_departure_prefix sid h tr' false
                  (run_outcome_after_departure fuel q sid _ r Hout)) as Hok.
    destruct (stranded_after_departure_read sid p h false Hok Hph) as [Habs|Hread];
      [discriminate|].
    apply (consistent_read _ w sid Departed
             (steps_consistent sched (start_day fuel w roster))).
    apply (Permutation_in _ (Permutation_sym Hg)). apply in_or_app. left.
    apply in_concat. exists h. split; [|exact Hread].
    apply list_elem_of_In. eapply list_elem_of_lookup_2. exact Hi.
  - exfalso. apply in_concat in Hin as (h & Hh & Hph).
    apply list_elem_of_In, list_elem_of_lookup_1 in Hh as [j Hj].
    destruct (Forall3_lookup_m _ _ _ _ _ _ Hsh Hj) as (t & th & Ht & _ & Hf).
    rewrite list_lookup_imap in Ht.
    destruct (ships w !! j) as [sj|]; [|discriminate]. injection Ht as <-.
    destruct (follows_prefix _ _ _
                (fun tr _ => appended_stranded tr = [] /\ appended_dead tr = [])
                Hf (ship_run_registers_nobody j sj))
      as (tr' & r & [Hnone _]).
    rewrite appended_stranded_app in Hnone. apply app_eq_nil in Hnone as [Hnone _].
    apply appended_stranded_In in Hph. rewrite Hnone in Hph. destruct Hph.
Qed.

Lemma stranded_means_departed_witness :
  map passenger_id (stranded_passengers (world (sys_run small_day day_with_stranding))) =
    [1001] /\
  signal (world (sys_run small_day day_with_stranding)) 0 Departed = true.
Proof.
  split; [vm_compute; reflexivity|].
  destruct (stranded_means_departed 3 small_world small_roster day_with_stranding
              (nth 0 (stranded_passengers (world (sys_run small_day day_with_stranding)))
                 first_passenger)
              eq_refl eq_refl)
    as (sid & Hs & Hsig).
  - vm_compute. left. reflexivity.
  - vm_compute in Hs. injection Hs as <-. exact Hsig.
Defined.


(** * One outcome per passenger *)











